(** * The file-handle migration engine of synapseutils/migrate_functions.py

    A shallow embedding of the index -> migrate pipeline: the sqlite
    checkpoint table [migrations], the indexer, the scheduler with its
    key cursor, the three migration operations, [_wait_futures] and the
    result cursor [MigrationResult.get_migrations].

    Conventions.
    - A Python value that reaches sqlite (None, int, str) is a [value];
      sqlite stores it as NULL, INTEGER or TEXT.
    - The checkpoint table is the list of its rows in rowid order.
    - The Synapse client is an oracle: every remote operation answers as a
      function of the calls made so far, and the calls are logged.
    - Code that can raise returns [Exn + A] next to the state it leaves. *)

From Stdlib Require Import ZArith String Ascii List Bool Lia.
From Stdlib Require Import OrderedTypeEx Sorted Permutation.
From stdpp Require Import gmap strings.
Import ListNotations.

Open Scope string_scope.
Open Scope list_scope.
Open Scope Z_scope.

(* ===================================================================== *)
(** ** Values                                                             *)
(* ===================================================================== *)

(** None / int / str: what the code binds to sqlite parameters and reads
    back from result rows. *)
Inductive value : Type :=
| VNone
| VInt (z : Z)
| VStr (s : string).

#[global] Instance value_eq_dec : EqDecision value.
Proof. solve_decision. Defined.

(** Python [==] on these values. *)
Definition py_eqb (a b : value) : bool := bool_decide (a = b).

Definition is_none (a : value) : bool :=
  match a with VNone => true | _ => false end.

(** sqlite's ordering of storage classes, used by ORDER BY: NULL first,
    then INTEGER by numeric value, then TEXT by byte-wise comparison. *)
Definition value_compare (a b : value) : comparison :=
  match a, b with
  | VNone, VNone => Eq
  | VNone, _ => Lt
  | _, VNone => Gt
  | VInt x, VInt y => Z.compare x y
  | VInt _, VStr _ => Lt
  | VStr _, VInt _ => Gt
  | VStr s, VStr t => String.compare s t
  end.

(** Comparison operators inside a WHERE clause. A comparison with NULL is
    unknown; the clauses of this program combine comparisons with AND and
    OR only, so unknown selects exactly when false does. *)
Definition sql_eq (a b : value) : bool :=
  negb (is_none a) && negb (is_none b) && py_eqb a b.

Definition sql_gt (a b : value) : bool :=
  negb (is_none a) && negb (is_none b) &&
  match value_compare a b with Gt => true | _ => false end.

Definition sql_ge (a b : value) : bool :=
  negb (is_none a) && negb (is_none b) &&
  match value_compare a b with Lt => false | _ => true end.

(** [str(v)], as used by [str.format]. *)
Definition digit_char (n : Z) : ascii := ascii_of_N (48 + Z.to_N n).

Fixpoint digits_of (fuel : nat) (n : Z) (acc : string) : string :=
  match fuel with
  | O => acc
  | S fuel' =>
      let acc' := String (digit_char (n mod 10)) acc in
      if n / 10 =? 0 then acc' else digits_of fuel' (n / 10) acc'
  end.

Definition str_of_Z (z : Z) : string :=
  let body := digits_of (S (Z.to_nat (Z.log2 (Z.abs z)))) (Z.abs z) "" in
  if z <? 0 then String.append "-" body else body.

Definition py_str (v : value) : string :=
  match v with
  | VNone => "None"
  | VInt z => str_of_Z z
  | VStr s => s
  end.

(** [int(v)] for an int or an ASCII str, as Python reads a decimal
    literal: surrounding white space is dropped, one sign is allowed, the
    rest are digits, with single underscores between digits. *)
Definition is_digit (c : ascii) : bool :=
  let n := N_of_ascii c in (48 <=? n)%N && (n <=? 57)%N.

Definition is_space (c : ascii) : bool :=
  let n := N_of_ascii c in
  ((9 <=? n)%N && (n <=? 13)%N) || ((28 <=? n)%N && (n <=? 32)%N).

Fixpoint lstrip (s : string) : string :=
  match s with
  | String c s' => if is_space c then lstrip s' else s
  | EmptyString => EmptyString
  end.

Fixpoint rstrip (s : string) : string :=
  match s with
  | String c s' =>
      match rstrip s' with
      | EmptyString => if is_space c then EmptyString else String c EmptyString
      | t => String c t
      end
  | EmptyString => EmptyString
  end.

(** [after_digit] tells whether the previous character was a digit: an
    underscore must follow one, and the literal must end on one. *)
Fixpoint parse_digits (s : string) (acc : Z) (after_digit : bool) : option Z :=
  match s with
  | EmptyString => if after_digit then Some acc else None
  | String c s' =>
      if is_digit c
      then parse_digits s' (10 * acc + Z.of_N (N_of_ascii c) - 48) true
      else if (N_of_ascii c =? 95)%N && after_digit
      then parse_digits s' acc false
      else None
  end.

Definition int_of_str (s : string) : option Z :=
  match rstrip (lstrip s) with
  | String "-" t => option_map Z.opp (parse_digits t 0 false)
  | String "+" t => parse_digits t 0 false
  | t => parse_digits t 0 false
  end.

(* ===================================================================== *)
(** ** Exceptions                                                         *)
(* ===================================================================== *)

Inductive Exn : Type :=
| ValueError (msg : string)
| TypeError (msg : string)
| ProgrammingError (msg : string)   (* sqlite3.ProgrammingError *)
| IntegrityError (msg : string)     (* sqlite3.IntegrityError *)
| SynapseHTTPError (msg : string)
| OtherError (msg : string).        (* any other exception of the client *)

Definition py_int (v : value) : Exn + Z :=
  match v with
  | VInt z => inr z
  | VStr s =>
      match int_of_str s with
      | Some z => inr z
      | None => inl (ValueError (String.append "invalid literal for int() with base 10: " s))
      end
  | VNone => inl (TypeError "int() argument must be a string or a number")
  end.

(* ===================================================================== *)
(** ** Enumerations and the migration key                                 *)
(* ===================================================================== *)

Inductive _MigrationStatus : Type :=
| INDEXED
| MIGRATED
| ALREADY_MIGRATED
| ERRORED.

Definition status_value (s : _MigrationStatus) : Z :=
  match s with
  | INDEXED => 1
  | MIGRATED => 2
  | ALREADY_MIGRATED => 3
  | ERRORED => 4
  end.

(** [_MigrationStatus(v)]: the member with that value. *)
Definition status_of_value (v : value) : Exn + _MigrationStatus :=
  match v with
  | VInt 1 => inr INDEXED
  | VInt 2 => inr MIGRATED
  | VInt 3 => inr ALREADY_MIGRATED
  | VInt 4 => inr ERRORED
  | _ => inl (ValueError (String.append (py_str v) " is not a valid _MigrationStatus"))
  end.

Definition status_name (s : _MigrationStatus) : string :=
  match s with
  | INDEXED => "INDEXED"
  | MIGRATED => "MIGRATED"
  | ALREADY_MIGRATED => "ALREADY_MIGRATED"
  | ERRORED => "ERRORED"
  end.

Inductive _MigrationType : Type :=
| PROJECT
| FOLDER
| FILE
| TABLE_ATTACHED_FILE.

Definition type_value (t : _MigrationType) : Z :=
  match t with
  | PROJECT => 1
  | FOLDER => 2
  | FILE => 3
  | TABLE_ATTACHED_FILE => 4
  end.

(** The NamedTuple [_MigrationKey]. Its fields hold what sqlite returned
    (or the sentinels of the initial cursor), so each is a [value]. *)
Record _MigrationKey : Type := mkKey {
  id : value;
  type : value;
  version : value;
  row_id : value;
  col_id : value
}.

#[global] Instance key_eq_dec : EqDecision _MigrationKey.
Proof. solve_decision. Defined.

(* ===================================================================== *)
(** ** The checkpoint table                                               *)
(* ===================================================================== *)

(** One row of [migrations], columns as in [_ensure_schema]. *)
Record Row : Type := mkRow {
  c_id : value;
  c_type : value;
  c_version : value;
  c_row_id : value;
  c_col_id : value;
  c_parent_id : value;
  c_status : value;
  c_exception : value;
  c_from_storage_location_id : value;
  c_from_file_handle_id : value;
  c_to_file_handle_id : value
}.

#[global] Instance row_eq_dec : EqDecision Row.
Proof. solve_decision. Defined.

Inductive Column : Type :=
| Col_id | Col_type | Col_version | Col_row_id | Col_col_id
| Col_parent_id | Col_status | Col_exception
| Col_from_storage_location_id | Col_from_file_handle_id
| Col_to_file_handle_id.

Definition null_row : Row :=
  mkRow VNone VNone VNone VNone VNone VNone VNone VNone VNone VNone VNone.

Definition set_col (c : Column) (v : value) (r : Row) : Row :=
  match c with
  | Col_id => mkRow v (c_type r) (c_version r) (c_row_id r) (c_col_id r) (c_parent_id r) (c_status r) (c_exception r) (c_from_storage_location_id r) (c_from_file_handle_id r) (c_to_file_handle_id r)
  | Col_type => mkRow (c_id r) v (c_version r) (c_row_id r) (c_col_id r) (c_parent_id r) (c_status r) (c_exception r) (c_from_storage_location_id r) (c_from_file_handle_id r) (c_to_file_handle_id r)
  | Col_version => mkRow (c_id r) (c_type r) v (c_row_id r) (c_col_id r) (c_parent_id r) (c_status r) (c_exception r) (c_from_storage_location_id r) (c_from_file_handle_id r) (c_to_file_handle_id r)
  | Col_row_id => mkRow (c_id r) (c_type r) (c_version r) v (c_col_id r) (c_parent_id r) (c_status r) (c_exception r) (c_from_storage_location_id r) (c_from_file_handle_id r) (c_to_file_handle_id r)
  | Col_col_id => mkRow (c_id r) (c_type r) (c_version r) (c_row_id r) v (c_parent_id r) (c_status r) (c_exception r) (c_from_storage_location_id r) (c_from_file_handle_id r) (c_to_file_handle_id r)
  | Col_parent_id => mkRow (c_id r) (c_type r) (c_version r) (c_row_id r) (c_col_id r) v (c_status r) (c_exception r) (c_from_storage_location_id r) (c_from_file_handle_id r) (c_to_file_handle_id r)
  | Col_status => mkRow (c_id r) (c_type r) (c_version r) (c_row_id r) (c_col_id r) (c_parent_id r) v (c_exception r) (c_from_storage_location_id r) (c_from_file_handle_id r) (c_to_file_handle_id r)
  | Col_exception => mkRow (c_id r) (c_type r) (c_version r) (c_row_id r) (c_col_id r) (c_parent_id r) (c_status r) v (c_from_storage_location_id r) (c_from_file_handle_id r) (c_to_file_handle_id r)
  | Col_from_storage_location_id => mkRow (c_id r) (c_type r) (c_version r) (c_row_id r) (c_col_id r) (c_parent_id r) (c_status r) (c_exception r) v (c_from_file_handle_id r) (c_to_file_handle_id r)
  | Col_from_file_handle_id => mkRow (c_id r) (c_type r) (c_version r) (c_row_id r) (c_col_id r) (c_parent_id r) (c_status r) (c_exception r) (c_from_storage_location_id r) v (c_to_file_handle_id r)
  | Col_to_file_handle_id => mkRow (c_id r) (c_type r) (c_version r) (c_row_id r) (c_col_id r) (c_parent_id r) (c_status r) (c_exception r) (c_from_storage_location_id r) (c_from_file_handle_id r) v
  end.

Definition get_col (c : Column) (r : Row) : value :=
  match c with
  | Col_id => c_id r
  | Col_type => c_type r
  | Col_version => c_version r
  | Col_row_id => c_row_id r
  | Col_col_id => c_col_id r
  | Col_parent_id => c_parent_id r
  | Col_status => c_status r
  | Col_exception => c_exception r
  | Col_from_storage_location_id => c_from_storage_location_id r
  | Col_from_file_handle_id => c_from_file_handle_id r
  | Col_to_file_handle_id => c_to_file_handle_id r
  end.

Definition column_name (c : Column) : string :=
  match c with
  | Col_id => "id"
  | Col_type => "type"
  | Col_version => "version"
  | Col_row_id => "row_id"
  | Col_col_id => "col_id"
  | Col_parent_id => "parent_id"
  | Col_status => "status"
  | Col_exception => "exception"
  | Col_from_storage_location_id => "from_storage_location_id"
  | Col_from_file_handle_id => "from_file_handle_id"
  | Col_to_file_handle_id => "to_file_handle_id"
  end.

(** The key columns of a row, as the scheduler rebuilds its [_MigrationKey]
    from the [key_dict] of a result row. *)
Definition row_key (r : Row) : _MigrationKey :=
  mkKey (c_id r) (c_type r) (c_version r) (c_row_id r) (c_col_id r).

(** The sqlite connection: the rows the open transaction sees and the rows
    of the last commit. *)
Record Connection : Type := mkConn {
  rows : list Row;
  committed : list Row
}.

Definition commit (c : Connection) : Connection :=
  mkConn (rows c) (rows c).

Definition rollback (c : Connection) : Connection :=
  mkConn (committed c) (committed c).

(** [primary key (id, type, row_id, col_id, version)]: sqlite enforces it
    as a unique index, in which a NULL is distinct from every value, NULL
    included. Two rows conflict when all five columns are non-NULL and
    equal. *)
Definition pk_conflict (r r' : Row) : bool :=
  sql_eq (c_id r) (c_id r') && sql_eq (c_type r) (c_type r') &&
  sql_eq (c_row_id r) (c_row_id r') && sql_eq (c_col_id r) (c_col_id r') &&
  sql_eq (c_version r) (c_version r').

(** [id], [type] and [status] are declared NOT NULL. *)
Definition not_null_ok (r : Row) : bool :=
  negb (is_none (c_id r)) && negb (is_none (c_type r)) &&
  negb (is_none (c_status r)).

(** One [insert into migrations (cols) values (?, ..., ?)] with the
    parameters [params]. The sqlite3 module refuses a parameter sequence
    whose length is not the number of question marks (one per listed
    column in every insert of this program). A parameter is stored as it
    is bound. sqlite does so for the values the program binds in
    practice: None, an integer of at most 64 bits under a column that is
    not declared [text], a text under a column that is not declared
    [integer] ([kept_untyped] and [kept_as_text] below). *)
Definition bind_row (cols : list Column) (params : list value) : Exn + Row :=
  if (List.length cols =? List.length params)%nat
  then inr (fold_left (fun r cv => set_col (fst cv) (snd cv) r)
                      (combine cols params) null_row)
  else inl (ProgrammingError "Incorrect number of bindings supplied").

Definition insert_row (t : list Row) (r : Row) : Exn + list Row :=
  if negb (not_null_ok r)
  then inl (IntegrityError "NOT NULL constraint failed")
  else if existsb (pk_conflict r) t
  then inl (IntegrityError "UNIQUE constraint failed")
  else inr (t ++ [r]).

Definition execute_insert (cols : list Column) (params : list value)
    (t : list Row) : Exn + list Row :=
  match bind_row cols params with
  | inl e => inl e
  | inr r => insert_row t r
  end.

(** [cursor.executemany(insert, seq)]: the statement runs once per element;
    the first failure raises and the rows inserted before it stay in the
    open transaction. *)
Fixpoint executemany_insert (cols : list Column) (seq : list (list value))
    (t : list Row) : list Row * option Exn :=
  match seq with
  | [] => (t, None)
  | params :: seq' =>
      match execute_insert cols params t with
      | inl e => (t, Some e)
      | inr t' => executemany_insert cols seq' t'
      end
  end.

(** [cursor.execute(update ...)] of [_wait_futures]: the WHERE clause is
    assembled from the key, [col = ?] for a field that is not None and
    [col is null] for one that is. *)
Definition key_field_matches (field col : value) : bool :=
  if is_none field then is_none col else sql_eq col field.

Definition update_where (k : _MigrationKey) (r : Row) : bool :=
  sql_eq (c_id r) (id k) && sql_eq (c_type r) (type k) &&
  key_field_matches (version k) (c_version r) &&
  key_field_matches (row_id k) (c_row_id r) &&
  key_field_matches (col_id k) (c_col_id r).

Definition update_row (status to_file_handle_id exception : value) (r : Row) : Row :=
  set_col Col_exception exception
    (set_col Col_to_file_handle_id to_file_handle_id
       (set_col Col_status status r)).

Definition execute_update (status to_file_handle_id exception : value)
    (k : _MigrationKey) (t : list Row) : list Row :=
  map (fun r => if update_where k r
                then update_row status to_file_handle_id exception r
                else r) t.

(** [select 1 from migrations where id = ? and status >= ?] of
    [_check_indexed], then [fetchone]. *)
Definition check_indexed_where (entity_id : value) (r : Row) : bool :=
  sql_eq (c_id r) entity_id && sql_ge (c_status r) (VInt (status_value INDEXED)).

(** The WHERE clause of the scheduler's query. [key_id], [version],
    [row_id], [col_id] are the bound parameters (the cursor key with -1
    in place of None). *)
Definition migrate_where (key_id version row_id col_id : value) (r : Row) : bool :=
  sql_eq (c_status r) (VInt (status_value INDEXED)) &&
  ((sql_gt (c_id r) key_id &&
      (sql_eq (c_type r) (VInt (type_value FILE)) ||
       sql_eq (c_type r) (VInt (type_value TABLE_ATTACHED_FILE))))
   || (sql_eq (c_id r) key_id && sql_eq (c_type r) (VInt (type_value FILE)) &&
       negb (is_none (c_version r)) && sql_gt (c_version r) version)
   || (sql_eq (c_id r) key_id &&
       sql_eq (c_type r) (VInt (type_value TABLE_ATTACHED_FILE)) &&
       (sql_gt (c_row_id r) row_id ||
        (sql_eq (c_row_id r) row_id && sql_gt (c_col_id r) col_id)))).

(** Lexicographic combination of comparisons. *)
Definition lex (c1 c2 : comparison) : comparison :=
  match c1 with Eq => c2 | _ => c1 end.

(** [order by id, type, row_id, col_id, version] on keys. *)
Definition key_compare (a b : _MigrationKey) : comparison :=
  lex (value_compare (id a) (id b))
   (lex (value_compare (type a) (type b))
    (lex (value_compare (row_id a) (row_id b))
     (lex (value_compare (col_id a) (col_id b))
          (value_compare (version a) (version b))))).

Definition key_lt (a b : _MigrationKey) : Prop := key_compare a b = Lt.

Definition row_leb (r1 r2 : Row) : bool :=
  match key_compare (row_key r1) (row_key r2) with Gt => false | _ => true end.

(** ORDER BY as a stable insertion sort: rows that tie keep rowid order. *)
Fixpoint insert_sorted (r : Row) (l : list Row) : list Row :=
  match l with
  | [] => [r]
  | r' :: l' => if row_leb r r' then r :: l else r' :: insert_sorted r l'
  end.

Definition sort_rows (l : list Row) : list Row :=
  fold_right insert_sorted [] l.

Definition select_migratable (t : list Row) (key_id version row_id col_id : value)
    (limit : nat) : list Row :=
  firstn limit (sort_rows (List.filter (migrate_where key_id version row_id col_id) t)).

(** The query of [get_migrations]: rows paired with their rowid. *)
Definition with_rowid (t : list Row) : list (Z * Row) :=
  combine (map Z.of_nat (seq 1 (List.length t))) t.

Definition get_migrations_where (rowid : Z) (x : Z * Row) : bool :=
  (rowid <? fst x) &&
  (sql_eq (c_type (snd x)) (VInt (type_value FILE)) ||
   sql_eq (c_type (snd x)) (VInt (type_value TABLE_ATTACHED_FILE))).

Definition select_migrations (t : list Row) (rowid : Z) (limit : nat) : list (Z * Row) :=
  firstn limit (List.filter (get_migrations_where rowid) (with_rowid t)).

(** [_get_batch_size()]. *)
Definition _get_batch_size : nat := 1%nat.

(* ===================================================================== *)
(** ** The Synapse client                                                 *)
(* ===================================================================== *)

(** Modelled from the spec: synapseclient.core.constants.concrete_types is
    not part of the sources; the four entity kinds the indexer dispatches
    on are named as in section 4.2, every other concrete type is
    [OTHER_ENTITY]. *)
Inductive ConcreteType : Type :=
| FILE_ENTITY
| TABLE_ENTITY
| FOLDER_ENTITY
| PROJECT_ENTITY
| OTHER_ENTITY (name : string).

#[global] Instance concrete_type_eq_dec : EqDecision ConcreteType.
Proof. solve_decision. Defined.

(** What the code reads off an entity (or a child record of getChildren):
    [utils.id_of], [utils.concrete_type_of], [versionNumber],
    [dataFileHandleId] and [_file_handle['storageLocationId']]. *)
Record Entity : Type := mkEntity {
  id_of : value;
  concrete_type_of : ConcreteType;
  versionNumber : value;
  dataFileHandleId : value;
  storageLocationId : value
}.

(** A column model of [/entity/{id}/column]. *)
Record ColumnModel : Type := mkColumnModel {
  cm_id : value;
  cm_name : string;
  cm_columnType : string
}.

(** The ['fileHandle'] of [_getFileHandleDownload]. *)
Record FileHandle : Type := mkFileHandle {
  fh_id : value;
  fh_storageLocationId : value
}.

(** [source_file_handle_association]. *)
Record FileHandleAssociation : Type := mkAssociation {
  fileHandleId : value;
  associateObjectId : value;
  associateObjectType : string
}.

(** What [syn.store] is given: an entity whose data file handle was
    replaced, or a PartialRowset of one PartialRow with one cell. *)
Inductive Storable : Type :=
| StoreEntity (e : Entity)
| StorePartialRowset (table_id : value) (row : value) (column : string) (cell : value).

(** A JSON object with string values, for the body of the PUT. *)
Definition json_object : Type := list (string * value).

(** Remote calls and [executor.submit], in the order the program makes
    them. *)
Inductive Call : Type :=
| Get (entity_id : value) (version : value)
| GetChildren (entity_id : value) (includeTypes : list string)
| GET_paginated (path : string)
| RestGET (path : string)
| RestPUT (path : string) (body : json_object)
| TableQuery (query : string)
| GetFileHandleDownload (file_handle_id : value) (table_id : value)
| MultipartCopy (assoc : FileHandleAssociation) (storage_location_id : value)
| StoreCall (obj : Storable)
| CreateSnapshotVersion (table_id : value)
| Submit (key : _MigrationKey) (from_file_handle_id : value).

(** The client as an oracle. Each operation answers from the calls made
    before it and its arguments, with a result or an exception. *)
Record Synapse : Type := mkSynapse {
  syn_get : list Call -> value -> value -> Exn + Entity;
  syn_getChildren : list Call -> value -> list string -> Exn + list Entity;
  syn_versions : list Call -> value -> Exn + list value;
  syn_storage_location : list Call -> value -> Exn + unit;
  syn_table_columns : list Call -> value -> Exn + list ColumnModel;
  syn_column_name : list Call -> value -> Exn + string;
  syn_tableQuery : list Call -> string -> Exn + list (list value);
  syn_getFileHandleDownload : list Call -> value -> value -> Exn + FileHandle;
  syn_multipart_copy : list Call -> FileHandleAssociation -> value -> Exn + value;
  syn_store : list Call -> Storable -> Exn + unit;
  syn_restPUT : list Call -> string -> json_object -> Exn + unit;
  syn_create_snapshot_version : list Call -> value -> Exn + unit
}.

(* ===================================================================== *)
(** ** State and exceptions                                               *)
(* ===================================================================== *)

(** A computation over a state [S] that returns or raises. *)
Definition M (S A : Type) : Type := S -> S * (Exn + A).

Definition ret {S A} (a : A) : M S A := fun s => (s, inr a).

Definition raise {S A} (e : Exn) : M S A := fun s => (s, inl e).

Definition bind {S A B} (m : M S A) (k : A -> M S B) : M S B :=
  fun s => match m s with
           | (s', inl e) => (s', inl e)
           | (s', inr a) => k a s'
           end.

Notation "x <- c1 ;; c2" := (bind c1 (fun x => c2))
  (at level 100, c1 at next level, right associativity).
Notation "c1 ;;; c2" := (bind c1 (fun _ => c2))
  (at level 100, right associativity).

(** The state of the main thread: the connection and the call log. *)
Record World : Type := mkWorld {
  conn : Connection;
  calls : list Call
}.

(** A remote call: logged, then answered. *)
Definition remote {A} (c : Call) (answer : list Call -> Exn + A) : M (list Call) A :=
  fun log => (log ++ [c], answer log).

(** A remote computation run by the main thread. *)
Definition on_calls {A} (m : M (list Call) A) : M World A :=
  fun w => let (log, r) := m (calls w) in (mkWorld (conn w) log, r).

(** A statement on the connection. *)
Definition on_rows {A} (f : list Row -> list Row * (Exn + A)) : M World A :=
  fun w => let (t, r) := f (rows (conn w)) in
           (mkWorld (mkConn t (committed (conn w))) (calls w), r).

Definition query {A} (f : list Row -> A) : M World A :=
  fun w => (w, inr (f (rows (conn w)))).

Definition conn_commit : M World unit :=
  fun w => (mkWorld (commit (conn w)) (calls w), inr tt).

(** The model's only non-Python outcome: the iteration budget of a
    [while True] loop ran out. The two loops that have one, in [migrate]
    and in [get_migrations], run outside every handler of the program. *)
Definition Diverged : Exn := OtherError "iteration budget exhausted".

(** Python's RecursionError, a subclass of Exception: a call that would
    exceed the recursion limit of the interpreter raises it in its
    caller. *)
Definition RecursionError : Exn :=
  OtherError "RecursionError: maximum recursion depth exceeded".

(** [try: m  except Exception: h]: every exception is handled. *)
Definition try_except {S A} (m : M S A) (h : Exn -> M S A) : M S A :=
  fun s => match m s with
           | (s', inl e) => h e s'
           | (s', inr a) => (s', inr a)
           end.

Fixpoint mapM {S A B} (f : A -> M S B) (l : list A) : M S (list B) :=
  match l with
  | [] => ret []
  | a :: l' => b <- f a ;; bs <- mapM f l' ;; ret (b :: bs)
  end.

(** [cursor.executemany] and [cursor.execute] of an insert. *)
Definition executemany (cols : list Column) (seq : list (list value)) : M World unit :=
  on_rows (fun t =>
    match executemany_insert cols seq t with
    | (t', Some e) => (t', inl e)
    | (t', None) => (t', inr tt)
    end).

Definition execute (cols : list Column) (params : list value) : M World unit :=
  on_rows (fun t =>
    match execute_insert cols params t with
    | inl e => (t, inl e)
    | inr t' => (t', inr tt)
    end).

(* ===================================================================== *)
(** ** The indexer                                                        *)
(* ===================================================================== *)

Definition get (syn : Synapse) (entity_id version : value) : M (list Call) Entity :=
  remote (Get entity_id version) (fun log => syn_get syn log entity_id version).

Definition _check_indexed (entity_id : value) : M World bool :=
  query (existsb (check_indexed_where entity_id)).

Definition _get_version_numbers (syn : Synapse) (entity_id : value) : M (list Call) (list value) :=
  remote (GET_paginated (String.concat "" ["/entity/"; py_str entity_id; "/version"]))
         (fun log => syn_versions syn log entity_id).

(** The column list of the insert of [_index_file_entity]; the statement
    has one question mark per column, seven in all. *)
Definition file_insert_columns : list Column :=
  [Col_id; Col_type; Col_version; Col_parent_id;
   Col_from_storage_location_id; Col_from_file_handle_id; Col_status].

Definition _index_file_entity (syn : Synapse) (entity : Entity) (parent_id : value)
    (file_version_strategy : value) : M World Z :=
  let entity_id := id_of entity in
  insert_values <-
    (if py_eqb file_version_strategy (VStr "new") then
       entity <- on_calls (get syn entity_id VNone) ;;
       ret [[entity_id;
             VInt (type_value FILE);
             VNone;
             parent_id;
             storageLocationId entity;
             dataFileHandleId entity;
             VInt (status_value INDEXED)]]
     else if py_eqb file_version_strategy (VStr "all") then
       versions <- on_calls (_get_version_numbers syn entity_id) ;;
       mapM (fun version =>
               entity <- on_calls (get syn entity_id version) ;;
               ret [entity_id;
                    VInt (type_value FILE);
                    version;
                    parent_id;
                    storageLocationId entity;
                    dataFileHandleId entity;
                    VInt (status_value INDEXED)])
            versions
     else if py_eqb file_version_strategy (VStr "latest") then
       entity <- on_calls (get syn entity_id VNone) ;;
       ret [[entity_id;
             VInt (type_value FILE);
             versionNumber entity;
             versionNumber entity;
             parent_id;
             storageLocationId entity;
             dataFileHandleId entity;
             VInt (status_value INDEXED)]]
     else ret []) ;;
  (match insert_values with
   | [] => ret tt
   | _ => executemany file_insert_columns insert_values
   end) ;;;
  ret (Z.of_nat (List.length insert_values)).

(** A dict keyed by a value, in insertion order: assigning to a key that
    is present replaces its value in place. *)
Fixpoint dict_set {V} (k : value) (v : V) (d : list (value * V)) : list (value * V) :=
  match d with
  | [] => [(k, v)]
  | (k', v') :: d' => if py_eqb k k' then (k, v) :: d' else (k', v') :: dict_set k v d'
  end.

(** The body of the generator [_get_file_handle_rows] for one query row:
    one [_getFileHandleDownload] per cell. *)
Fixpoint row_file_handles (syn : Synapse) (table_id : value)
    (file_handle_columns : list ColumnModel) (file_handle_ids : list value)
    (file_handles : list (value * FileHandle)) : M (list Call) (list (value * FileHandle)) :=
  match file_handle_ids with
  | [] => ret file_handles
  | file_handle_id :: ids' =>
      match file_handle_columns with
      | [] => raise (OtherError "IndexError: list index out of range")
      | c :: cols' =>
          file_handle <- remote (GetFileHandleDownload file_handle_id table_id)
                           (fun log => syn_getFileHandleDownload syn log file_handle_id table_id) ;;
          row_file_handles syn table_id cols' ids' (dict_set (cm_id c) file_handle file_handles)
      end
  end.

Definition table_insert_columns : list Column :=
  [Col_id; Col_type; Col_parent_id; Col_row_id; Col_col_id; Col_version;
   Col_from_storage_location_id; Col_from_file_handle_id; Col_status].

(** The inner loop of [_index_table_entity] over the cells of one row. *)
Fixpoint index_cells (entity_id parent_id row_id row_version : value)
    (items : list (value * FileHandle)) (row_batch : list (list value)) (total : Z)
  : M World (list (list value) * Z) :=
  match items with
  | [] => ret (row_batch, total)
  | (col_id, file_handle) :: items' =>
      let row_batch := row_batch ++
        [[entity_id;
          VInt (type_value TABLE_ATTACHED_FILE);
          parent_id;
          row_id;
          col_id;
          row_version;
          fh_storageLocationId file_handle;
          fh_id file_handle;
          VInt (status_value INDEXED)]] in
      if (List.length row_batch mod _get_batch_size =? 0)%nat
      then executemany table_insert_columns row_batch ;;;
           index_cells entity_id parent_id row_id row_version items' []
             (total + Z.of_nat (List.length row_batch))
      else index_cells entity_id parent_id row_id row_version items' row_batch total
  end.

(** The outer loop: the generator yields a row, the body consumes it. *)
Fixpoint index_table_rows (syn : Synapse) (entity_id parent_id : value)
    (file_handle_columns : list ColumnModel) (results : list (list value))
    (row_batch : list (list value)) (total : Z) : M World (list (list value) * Z) :=
  match results with
  | [] => ret (row_batch, total)
  | row :: results' =>
      match row with
      | row_id :: row_version :: file_handle_ids =>
          file_handles <- on_calls
            (row_file_handles syn entity_id file_handle_columns file_handle_ids []) ;;
          st <- index_cells entity_id parent_id row_id row_version file_handles row_batch total ;;
          index_table_rows syn entity_id parent_id file_handle_columns results' (fst st) (snd st)
      | _ => raise (ValueError "not enough values to unpack (expected 2)")
      end
  end.

Definition _index_table_entity (syn : Synapse) (entity : Entity) (parent_id : value)
    (create_table_snapshot : value) : M World Z :=
  let entity_id := id_of entity in
  columns <- on_calls
    (remote (RestGET (String.concat "" ["/entity/"; py_str entity_id; "/column"]))
            (fun log => syn_table_columns syn log entity_id)) ;;
  let file_handle_columns :=
    List.filter (fun c => bool_decide (cm_columnType c = "FILEHANDLEID")) columns in
  let file_column_select := String.concat "," (map cm_name file_handle_columns) in
  let q := String.concat "" ["select "; file_column_select; " from "; py_str entity_id] in
  results <- on_calls (remote (TableQuery q) (fun log => syn_tableQuery syn log q)) ;;
  st <- index_table_rows syn entity_id parent_id file_handle_columns results [] 0 ;;
  match fst st with
  | [] => ret (snd st)
  | row_batch =>
      executemany table_insert_columns row_batch ;;;
      ret (snd st + Z.of_nat (List.length row_batch))
  end.

Definition include_types (file_version_strategy table_strategy : value) : list string :=
  ["folder"] ++ (if is_none file_version_strategy then [] else ["file"])
             ++ (if is_none table_strategy then [] else ["table"]).

(** [_index_entity] and [_index_container], which call each other.
    [fuel] is the number of nested calls of [_index_entity] that the
    recursion limit of the interpreter leaves room for: the call that
    exceeds it raises RecursionError, which the [try] of the calling
    [_index_entity] handles like any other exception. *)
Fixpoint _index_entity (fuel : nat) (syn : Synapse) (entity : Entity) (parent_id : value)
    (file_version_strategy table_strategy : value) (continue_on_error : bool)
  : M World Z :=
  match fuel with
  | O => raise RecursionError
  | S fuel' =>
      let entity_id := id_of entity in
      let concrete_type := concrete_type_of entity in
      let _index_container : M World Z :=
        children <- on_calls
          (remote (GetChildren entity_id (include_types file_version_strategy table_strategy))
                  (fun log => syn_getChildren syn log entity_id
                                (include_types file_version_strategy table_strategy))) ;;
        total <- (fix each_child (children : list Entity) (total : Z) : M World Z :=
                    match children with
                    | [] => ret total
                    | child :: children' =>
                        count <- _index_entity fuel' syn child entity_id
                                   file_version_strategy table_strategy continue_on_error ;;
                        each_child children' (total + count)
                    end) children 0 ;;
        let container_type :=
          if bool_decide (PROJECT_ENTITY = concrete_type)
          then type_value PROJECT else type_value FOLDER in
        execute [Col_id; Col_type; Col_parent_id; Col_status]
                [entity_id; VInt container_type; parent_id; VInt (status_value INDEXED)] ;;;
        ret total in
      try_except
        (indexed <- _check_indexed entity_id ;;
         total <- (if negb indexed then
                     match concrete_type with
                     | FILE_ENTITY =>
                         _index_file_entity syn entity parent_id file_version_strategy
                     | TABLE_ENTITY =>
                         _index_table_entity syn entity parent_id table_strategy
                     | FOLDER_ENTITY | PROJECT_ENTITY => _index_container
                     | OTHER_ENTITY _ =>
                         raise (OtherError "UnboundLocalError: count")
                     end
                   else ret 0) ;;
         conn_commit ;;;
         ret total)
        (fun ex => if continue_on_error then ret 0 else raise ex)
  end.

(* ===================================================================== *)
(** ** Migration operations                                               *)
(* ===================================================================== *)

(** [multipart_copy] of synapseclient.core.upload.multipart_upload is not
    part of the sources: it is one more operation of the oracle, which
    answers with the new file handle id or raises. *)
Definition multipart_copy (syn : Synapse) (assoc : FileHandleAssociation)
    (storage_location_id : value) : M (list Call) value :=
  remote (MultipartCopy assoc storage_location_id)
         (fun log => syn_multipart_copy syn log assoc storage_location_id).

Definition store (syn : Synapse) (obj : Storable) : M (list Call) unit :=
  remote (StoreCall obj) (fun log => syn_store syn log obj).

Definition restPUT (syn : Synapse) (path : string) (body : json_object) : M (list Call) unit :=
  remote (RestPUT path body) (fun log => syn_restPUT syn log path body).

(** The type of [migration_fn]. *)
Definition MigrationFn : Type :=
  Synapse -> _MigrationKey -> value -> value -> M (list Call) value.

Definition _create_new_file_version : MigrationFn :=
  fun syn key from_file_handle_id storage_location_id =>
  entity <- get syn (id key) VNone ;;
  let source_file_handle_association :=
    mkAssociation from_file_handle_id (id key) "FileEntity" in
  new_file_handle_id <-
    multipart_copy syn source_file_handle_association storage_location_id ;;
  let entity := mkEntity (id_of entity) (concrete_type_of entity) (versionNumber entity)
                         new_file_handle_id (storageLocationId entity) in
  store syn (StoreEntity entity) ;;;
  ret new_file_handle_id.

Definition _migrate_file_version : MigrationFn :=
  fun syn key from_file_handle_id storage_location_id =>
  let source_file_handle_association :=
    mkAssociation from_file_handle_id (id key) "FileEntity" in
  new_file_handle_id <-
    multipart_copy syn source_file_handle_association storage_location_id ;;
  let file_handle_update_request :=
    [("oldFileHandleId", from_file_handle_id);
     ("newFileHandleId", new_file_handle_id)] in
  restPUT syn
    (String.concat "" ["/entity/"; py_str (id key); "/version/";
                       py_str (version key); "/filehandle"])
    file_handle_update_request ;;;
  ret new_file_handle_id.

(** [synapseclient.table.PartialRow(values, rowId)], whose class is not
    part of the sources: its constructor keeps the mapping of the cells
    and converts the row id with [int(rowId)], so it raises TypeError for
    a row id None and ValueError for a text that is no number. *)
Definition PartialRow (rowId : value) : M (list Call) value :=
  fun log => (log, match py_int rowId with
                   | inl e => inl e
                   | inr z => inr (VInt z)
                   end).

Definition _migrate_table_attached_file : MigrationFn :=
  fun syn key from_file_handle_id storage_location_id =>
  let source_file_handle_association :=
    mkAssociation from_file_handle_id (id key) "TableEntity" in
  to_file_handle_id <-
    multipart_copy syn source_file_handle_association storage_location_id ;;
  partial_row_id <- PartialRow (row_id key) ;;
  store syn (StorePartialRowset (id key) partial_row_id (py_str (col_id key))
                                to_file_handle_id) ;;;
  ret to_file_handle_id.

(** [class _MigrationError(Exception)], raised [from ex]. *)
Record _MigrationError : Type := mkMigrationError {
  key : _MigrationKey;
  __cause__ : Exn
}.

(** The closure [migration_task]: [syn], [key], [from_file_handle_id] and
    [storage_location_id] are its arguments; [migration_fn] is a free
    variable, read when the body runs. *)
Definition migration_task (migration_fn : MigrationFn) (syn : Synapse)
    (key : _MigrationKey) (from_file_handle_id storage_location_id : value)
  : list Call -> list Call * (_MigrationError + (_MigrationKey * value)) :=
  fun log =>
    match migration_fn syn key from_file_handle_id storage_location_id log with
    | (log', inr to_file_handle_id) => (log', inr (key, to_file_handle_id))
    | (log', inl ex) => (log', inl (mkMigrationError key ex))
    end.

(* ===================================================================== *)
(** ** The worker pool                                                    *)
(* ===================================================================== *)

(** A submitted task: the arguments given to [executor.submit], and the
    number of bindings of [migration_fn] made before its own. *)
Record Future : Type := mkFuture {
  f_key : _MigrationKey;
  f_from_file_handle_id : value;
  f_storage_location_id : value;
  f_seq : nat
}.

Inductive ReturnWhen : Type := FIRST_COMPLETED | ALL_COMPLETED.

(** What the program leaves to the runtime.
    - [DEFAULT_NUM_THREADS]: the constant of pool_provider.
    - [wait]: concurrent.futures.wait, giving the completed futures in
      the order the program iterates them, and the others.
    - [rebinds_before_read f]: how many later iterations of the dispatch
      loop assign [migration_fn] before the worker running [f] evaluates
      that variable.
    - [format_exception]: traceback.format_exception, joined. *)
Record Runtime : Type := mkRuntime {
  DEFAULT_NUM_THREADS : Z;
  wait : list Call -> ReturnWhen -> list Future -> list Future * list Future;
  rebinds_before_read : Future -> nat;
  format_exception : Exn -> string
}.

(** [int(a / 2)] for an int [a]. The true division of two ints gives the
    double nearest to the quotient, ties to even, and [int] truncates it.
    A quotient of at most 53 significant bits is a double, so the result
    is the quotient truncated; a longer one is first rounded to 53 bits,
    [q] being its leading 53 bits and [r] the [s] bits that are dropped,
    and is then an integer. *)
Definition int_of_half (a : Z) : Z :=
  let m := Z.abs a in
  let bits := Z.log2 m + 1 in
  if bits <=? 53 then Z.quot a 2
  else
    let s := bits - 53 in
    let q := Z.shiftr m s in
    let r := Z.land m (Z.ones s) in
    let half := Z.shiftl 1 (s - 1) in
    let q := if (half <? r) || ((r =? half) && Z.odd q) then q + 1 else q in
    Z.sgn a * Z.shiftl q (s - 1).

(** The number of concurrent copies, [max(int(DEFAULT_NUM_THREADS / 2), 1)]. *)
Definition max_concurrent_file_copies (rt : Runtime) : Z :=
  Z.max (int_of_half (DEFAULT_NUM_THREADS rt)) 1.

(** [_get_executor()]. The executor itself is the runtime's. The division
    raises OverflowError when the rounded quotient is beyond the largest
    double. *)
Definition _get_executor (rt : Runtime) : Exn + Z :=
  if 2 ^ 1024 <=? Z.abs (int_of_half (DEFAULT_NUM_THREADS rt))
  then inl (OtherError "OverflowError: integer division result too large for a float")
  else inr (max_concurrent_file_copies rt).

(** The value of the closure variable [migration_fn] that the task of [f]
    reads. [history] lists the values bound so far, oldest first; the
    task cannot read later than now. *)
Definition closure_migration_fn (rt : Runtime) (history : list MigrationFn)
    (f : Future) : MigrationFn :=
  match nth_error history
          (Nat.min (f_seq f + rebinds_before_read rt f) (List.length history - 1)) with
  | Some fn => fn
  | None => fun _ _ _ _ => raise (OtherError "NameError: migration_fn")
  end.

(** [completed_future.result()]. The calls of the task are logged here,
    when the scheduler collects the result; the worker makes them at some
    time after the [Submit] of its key. *)
Definition future_result (rt : Runtime) (syn : Synapse) (history : list MigrationFn)
    (f : Future) : list Call -> list Call * (_MigrationError + (_MigrationKey * value)) :=
  migration_task (closure_migration_fn rt history f) syn
    (f_key f) (f_from_file_handle_id f) (f_storage_location_id f).

(** The loop of [_wait_futures] over the completed futures. *)
Fixpoint each_completed (rt : Runtime) (syn : Synapse) (history : list MigrationFn)
    (continue_on_error : bool) (completed : list Future)
    (migrated_count error_count : Z) : M World (Z * Z) :=
  match completed with
  | [] => ret (migrated_count, error_count)
  | completed_future :: completed' =>
      fun w =>
        let (log, result) := future_result rt syn history completed_future (calls w) in
        let '(key, to_file_handle_id, ex, status, migrated_count, error_count) :=
          match result with
          | inr (key, to_file_handle_id) =>
              (key, to_file_handle_id, None, status_value MIGRATED,
               migrated_count + 1, error_count)
          | inl migration_ex =>
              (key migration_ex, VNone, Some (__cause__ migration_ex),
               status_value ERRORED, migrated_count, error_count + 1)
          end in
        let tb_str :=
          match ex with
          | Some ex => VStr (format_exception rt ex)
          | None => VNone
          end in
        let t := execute_update (VInt status) to_file_handle_id tb_str key
                   (rows (conn w)) in
        let w := mkWorld (commit (mkConn t (committed (conn w)))) log in
        match ex with
        | Some ex =>
            if negb continue_on_error
            then (w, inl ex)
            else each_completed rt syn history continue_on_error completed'
                   migrated_count error_count w
        | None =>
            each_completed rt syn history continue_on_error completed'
              migrated_count error_count w
        end
  end.

Definition _wait_futures (rt : Runtime) (syn : Synapse) (history : list MigrationFn)
    (futures : list Future) (return_when : ReturnWhen) (continue_on_error : bool)
  : M World (list Future * Z * Z) :=
  fun w =>
    let (completed, futures) := wait rt (calls w) return_when futures in
    (counts <- each_completed rt syn history continue_on_error completed 0 0 ;;
     ret (futures, fst counts, snd counts)) w.

(* ===================================================================== *)
(** ** The scheduler and [migrate]                                        *)
(* ===================================================================== *)

(** The local variables of [migrate] that the dispatch loop updates.
    [migration_fn_history] is the closure cell of [migration_fn]: every
    value assigned to it, oldest first. *)
Record Sched : Type := mkSched {
  cursor_key : _MigrationKey;
  futures : list Future;
  migration_fn_history : list MigrationFn;
  migrated_total : Z;
  error_total : Z
}.

Definition initial_key : _MigrationKey :=
  mkKey (VStr "") VNone (VInt (-1)) (VInt (-1)) (VInt (-1)).

Definition submit (key : _MigrationKey) (from_file_handle_id : value) : M (list Call) unit :=
  fun log => (log ++ [Submit key from_file_handle_id], inr tt).

(** The body of [for row in results]. *)
Definition dispatch_row (syn : Synapse) (storage_location_id table_strategy : value)
    (st : Sched) (row : Row) : M World Sched :=
  let last_key := cursor_key st in
  let key := row_key row in
  let from_file_handle_id := c_from_file_handle_id row in
  migration_fn <-
    (if py_eqb (type key) (VInt (type_value FILE)) then
       if is_none (version key)
       then ret _create_new_file_version
       else ret _migrate_file_version
     else if py_eqb (type key) (VInt (type_value TABLE_ATTACHED_FILE)) then
       (if negb (py_eqb (id last_key) (id key)) && py_eqb table_strategy (VStr "snapshot")
        then on_calls (remote (CreateSnapshotVersion (id key))
                         (fun log => syn_create_snapshot_version syn log (id key)))
        else ret tt) ;;;
       ret _migrate_table_attached_file
     else raise (ValueError (String.concat ""
                   ["Unexpected type "; py_str (type key); " with id "; py_str (id key)]))) ;;
  let future := mkFuture key from_file_handle_id storage_location_id
                         (List.length (migration_fn_history st)) in
  on_calls (submit key from_file_handle_id) ;;;
  ret (mkSched key (futures st ++ [future])
               (migration_fn_history st ++ [migration_fn])
               (migrated_total st) (error_total st)).

Fixpoint dispatch_rows (syn : Synapse) (storage_location_id table_strategy : value)
    (results : list Row) (st : Sched) : M World Sched :=
  match results with
  | [] => ret st
  | row :: results' =>
      st' <- dispatch_row syn storage_location_id table_strategy st row ;;
      dispatch_rows syn storage_location_id table_strategy results' st'
  end.

Definition or_minus_one (v : value) : value :=
  if is_none v then VInt (-1) else v.

(** The query of one iteration, from the cursor key. *)
Definition next_batch (key : _MigrationKey) (t : list Row) : list Row :=
  select_migratable t (id key)
    (or_minus_one (version key)) (or_minus_one (row_id key)) (or_minus_one (col_id key))
    _get_batch_size.

(** The head of an iteration: [if len(futures) >= max_concurrent_file_copies]
    the loop waits for a first future and adds its counts. *)
Definition wait_if_saturated (rt : Runtime) (syn : Synapse) (continue_on_error : bool)
    (st : Sched) : M World Sched :=
  if Z.of_nat (List.length (futures st)) >=? max_concurrent_file_copies rt
  then r <- _wait_futures rt syn (migration_fn_history st) (futures st)
              FIRST_COMPLETED continue_on_error ;;
       let '(futures, migrated_count, error_count) := r in
       ret (mkSched (cursor_key st) futures (migration_fn_history st)
                    (migrated_total st + migrated_count)
                    (error_total st + error_count))
  else ret st.

(** [while True:] of [migrate]; [fuel] bounds the number of iterations. *)
Fixpoint migrate_loop (fuel : nat) (rt : Runtime) (syn : Synapse)
    (storage_location_id table_strategy : value) (continue_on_error : bool)
    (st : Sched) : M World Sched :=
  match fuel with
  | O => raise Diverged
  | S fuel' =>
      st <- wait_if_saturated rt syn continue_on_error st ;;
      results <- query (next_batch (cursor_key st)) ;;
      st <- dispatch_rows syn storage_location_id table_strategy results st ;;
      if (List.length results =? 0)%nat
      then ret st
      else migrate_loop fuel' rt syn storage_location_id table_strategy
             continue_on_error st
  end.

(** The scheduler: the loop, then the wait for all remaining futures. *)
Definition run_scheduler (fuel : nat) (rt : Runtime) (syn : Synapse)
    (storage_location_id table_strategy : value) (continue_on_error : bool)
  : M World Sched :=
  st <- migrate_loop fuel rt syn storage_location_id table_strategy continue_on_error
          (mkSched initial_key [] [] 0 0) ;;
  match futures st with
  | [] => ret st
  | _ =>
      r <- _wait_futures rt syn (migration_fn_history st) (futures st)
             ALL_COMPLETED continue_on_error ;;
      let '(_, migrated_count, error_count) := r in
      ret (mkSched (cursor_key st) (futures st) (migration_fn_history st)
                   (migrated_total st + migrated_count)
                   (error_total st + error_count))
  end.

Definition _verify_storage_location_ownership (syn : Synapse)
    (storage_location_id : value) : M (list Call) unit :=
  fun log =>
    match remote (RestGET (String.append "/storageLocation/" (py_str storage_location_id)))
                 (fun log => syn_storage_location syn log storage_location_id) log with
    | (log', inl (SynapseHTTPError _)) =>
        (log', inl (ValueError (String.concat ""
           ["Error verifying storage location ownership of ";
            py_str storage_location_id;
            ". You must be creator of the destination storage location"])))
    | r => r
    end.

(** The two membership tests on the strategies at the head of [migrate]. *)
Definition py_in (v : value) (l : list value) : bool := existsb (py_eqb v) l.

Definition check_strategies (file_version_strategy table_strategy : value) : Exn + unit :=
  if is_none file_version_strategy && is_none table_strategy then
    inl (ValueError "No value for either file_version_strategy or create_table_snapshot, no entities selected for migration")
  else if negb (py_in file_version_strategy [VStr "new"; VStr "all"; VStr "latest"; VNone]) then
    inl (ValueError (String.concat ""
           ["invalid value "; py_str file_version_strategy;
            " passed for file_version_strategy"]))
  else if negb (py_in table_strategy [VStr "snapshot"; VStr "noshapshot"; VNone]) then
    inl (ValueError (String.concat ""
           ["invalid value "; py_str table_strategy; " passed for table_strategy"]))
  else inr tt.

(** [with sqlite3.connect(db_path) as conn:] commits when the block ends
    and rolls back when it raises. *)
Definition with_connection {A} (m : M World A) : M World A :=
  fun w =>
    match m w with
    | (w', inl e) => (mkWorld (rollback (conn w')) (calls w'), inl e)
    | (w', inr a) => (mkWorld (commit (conn w')) (calls w'), inr a)
    end.

(** The counters of the [MigrationResult] that [migrate] returns; its
    [db_path] is the connection of the world. *)
Record MigrationResult : Type := mkMigrationResult {
  indexed_total : Z;
  result_migrated_total : Z;
  result_error_total : Z
}.

(** A step that touches no state. *)
Definition check {S A} (r : Exn + A) : M S A :=
  fun s => (s, r).

Definition migrate (fuel : nat) (rt : Runtime) (syn : Synapse) (entity : value)
    (storage_location_id : value) (dry_run : bool)
    (file_version_strategy table_strategy : value) (continue_on_error : bool)
  : M World MigrationResult :=
  check (check_strategies file_version_strategy table_strategy) ;;;
  on_calls (_verify_storage_location_ownership syn storage_location_id) ;;;
  check (_get_executor rt) ;;;
  with_connection
    (conn_commit ;;;
     entity <- on_calls (get syn entity VNone) ;;
     indexed <- _check_indexed (id_of entity) ;;
     indexed_total <-
       (if negb indexed
        then _index_entity fuel syn entity VNone file_version_strategy table_strategy
               continue_on_error
        else ret 0) ;;
     if negb dry_run then
       st <- run_scheduler fuel rt syn storage_location_id table_strategy
               continue_on_error ;;
       ret (mkMigrationResult indexed_total (migrated_total st) (error_total st))
     else ret (mkMigrationResult indexed_total 0 0)).

(* ===================================================================== *)
(** ** The result cursor                                                  *)
(* ===================================================================== *)

#[global] Instance value_countable : Countable value.
Proof.
  refine (inj_countable'
            (fun v => match v with
                      | VNone => inl tt
                      | VInt z => inr (inl z)
                      | VStr s => inr (inr s)
                      end)
            (fun x => match x with
                      | inl _ => VNone
                      | inr (inl z) => VInt z
                      | inr (inr s) => VStr s
                      end) _).
  intros []; reflexivity.
Defined.

(** The columns of the select of [get_migrations] after [rowid]. *)
Definition result_columns : list Column :=
  [Col_id; Col_type; Col_version; Col_row_id; Col_col_id;
   Col_from_storage_location_id; Col_from_file_handle_id;
   Col_to_file_handle_id; Col_status; Col_exception].

(** The dict comprehension: one entry per column that is not None. *)
Definition initial_row_dict (row : Row) : gmap string value :=
  fold_left (fun d c => if is_none (get_col c row) then d
                        else <[column_name c := get_col c row]> d)
            result_columns ∅.

Definition int_args : list string :=
  ["version"; "row_id"; "from_storage_location_id"; "from_file_handle_id";
   "to_file_handle_id"].

(** [for int_arg in (...)]: [row_dict[int_arg] = int(int_val)] when the
    entry is there. *)
Fixpoint convert_int_args (args : list string) (row_dict : gmap string value)
  : Exn + gmap string value :=
  match args with
  | [] => inr row_dict
  | int_arg :: args' =>
      match row_dict !! int_arg with
      | None => convert_int_args args' row_dict
      | Some int_val =>
          if is_none int_val then convert_int_args args' row_dict
          else match py_int int_val with
               | inl e => inl e
               | inr z => convert_int_args args' (<[int_arg := VInt z]> row_dict)
               end
      end
  end.

(** The state of the generator: the calls it made, the cache of column
    names, and the records yielded so far. *)
Record Cursor : Type := mkCursor {
  cur_calls : list Call;
  column_names : gmap value string;
  yielded : list (gmap string value)
}.

(** The body of [for row in results], up to the [yield]. *)
Definition result_record (syn : Synapse) (row : Row) : M Cursor unit :=
  fun st =>
    let row_dict := initial_row_dict row in
    match row_dict !! "type" with
    | None => (st, inl (OtherError "KeyError: type"))
    | Some ty =>
        let row_dict :=
          <["type" := if py_eqb ty (VInt (type_value FILE))
                      then VStr "file" else VStr "table"]> row_dict in
        match convert_int_args int_args row_dict with
        | inl e => (st, inl e)
        | inr row_dict =>
            let col_id := default VNone (row_dict !! "col_id") in
            let row_dict := delete "col_id" row_dict in
            let named : Cursor * (Exn + gmap string value) :=
              if is_none col_id then (st, inr row_dict)
              else match column_names st !! col_id with
                   | Some column_name =>
                       (st, inr (<["col_name" := VStr column_name]> row_dict))
                   | None =>
                       let (log, r) :=
                         remote (RestGET (String.append "/column/" (py_str col_id)))
                                (fun log => syn_column_name syn log col_id)
                                (cur_calls st) in
                       match r with
                       | inl e => (mkCursor log (column_names st) (yielded st), inl e)
                       | inr column_name =>
                           (mkCursor log (<[col_id := column_name]> (column_names st))
                                     (yielded st),
                            inr (<["col_name" := VStr column_name]> row_dict))
                       end
                   end in
            match named with
            | (st, inl e) => (st, inl e)
            | (st, inr row_dict) =>
                match row_dict !! "status" with
                | None => (st, inl (OtherError "KeyError: status"))
                | Some status =>
                    match status_of_value status with
                    | inl e => (st, inl e)
                    | inr s =>
                        let row_dict := <["status" := VStr (status_name s)]> row_dict in
                        (mkCursor (cur_calls st) (column_names st)
                                  (yielded st ++ [row_dict]), inr tt)
                    end
                end
            end
        end
    end.

(** One batch: every row is turned into a record; the last rowid read is
    returned. *)
Fixpoint result_batch (syn : Synapse) (results : list (Z * Row)) (rowid : Z)
  : M Cursor Z :=
  match results with
  | [] => ret rowid
  | (rid, row) :: results' =>
      result_record syn row ;;;
      result_batch syn results' rid
  end.

(** [while True:] of [get_migrations] over the committed rows [t]. *)
Fixpoint get_migrations_loop (fuel : nat) (syn : Synapse) (t : list Row) (rowid : Z)
  : M Cursor unit :=
  match fuel with
  | O => raise Diverged
  | S fuel' =>
      let results := select_migrations t rowid _get_batch_size in
      rowid <- result_batch syn results rowid ;;
      if (List.length results =? 0)%nat
      then ret tt
      else get_migrations_loop fuel' syn t rowid
  end.

(** [MigrationResult.get_migrations]: the records yielded, in order, and
    the exception that ended the generator, if one did. *)
Definition get_migrations (fuel : nat) (syn : Synapse) (db : Connection)
  : list (gmap string value) * option Exn :=
  match get_migrations_loop fuel syn (committed db) (-1) (mkCursor [] ∅ []) with
  | (st, inl e) => (yielded st, Some e)
  | (st, inr _) => (yielded st, None)
  end.

(* ===================================================================== *)
(** ** Vocabulary of the properties                                       *)
(* ===================================================================== *)

(** The five fields in the order of the ORDER BY. *)
Definition key_fields (k : _MigrationKey) : list value :=
  [id k; type k; row_id k; col_id k; version k].

Fixpoint fields_compare (l1 l2 : list value) : comparison :=
  match l1, l2 with
  | a :: l1', b :: l2' => lex (value_compare a b) (fields_compare l1' l2')
  | _, _ => Eq
  end.

(** [key_le]: not greater, the order of a result set. *)
Definition key_le (a b : _MigrationKey) : Prop := key_compare a b <> Gt.

(** The order of a result set, on rows. *)
Definition rows_le (r1 r2 : Row) : Prop := key_le (row_key r1) (row_key r2).

(** The keys given to [executor.submit], in dispatch order. *)
Definition submitted (ev : list Call) : list (_MigrationKey * value) :=
  flat_map (fun c => match c with Submit k fh => [(k, fh)] | _ => [] end) ev.

Definition dispatched (ev : list Call) : list _MigrationKey :=
  map fst (submitted ev).

(** The table ids given to [create_snapshot_version], in call order. *)
Definition snapshot_calls (ev : list Call) : list value :=
  flat_map (fun c => match c with CreateSnapshotVersion i => [i] | _ => [] end) ev.

Definition is_sched_event (c : Call) : bool :=
  match c with
  | Submit _ _ | CreateSnapshotVersion _ => true
  | _ => false
  end.

(** What [executor.submit] is given for a row. *)
Definition row_submission (r : Row) : _MigrationKey * value :=
  (row_key r, c_from_file_handle_id r).

(** What the dispatch loop emits for the rows [l] when the previous key
    had id [p]: for each row, the snapshot call if the row starts a table,
    then the submit. *)
Fixpoint expected_events (table_strategy p : value) (l : list (_MigrationKey * value))
  : list Call :=
  match l with
  | [] => []
  | (k, fh) :: l' =>
      (if py_eqb (type k) (VInt (type_value TABLE_ATTACHED_FILE)) &&
          (negb (py_eqb p (id k)) && py_eqb table_strategy (VStr "snapshot"))
       then [CreateSnapshotVersion (id k)] else [])
      ++ Submit k fh :: expected_events table_strategy (id k) l'
  end.

(** Every submit of a table cell comes after a snapshot call of its table:
    [snapped] holds the ids of the snapshot calls seen so far. *)
Fixpoint snapshots_precede (snapped : list value) (ev : list Call) : Prop :=
  match ev with
  | [] => True
  | CreateSnapshotVersion i :: ev' => snapshots_precede (i :: snapped) ev'
  | Submit k _ :: ev' =>
      (type k = VInt (type_value TABLE_ATTACHED_FILE) -> In (id k) snapped) /\
      snapshots_precede snapped ev'
  | _ :: ev' => snapshots_precede snapped ev'
  end.

Definition count_snapshots (table_id : value) (ev : list Call) : nat :=
  count_occ value_eq_dec (snapshot_calls ev) table_id.

(** A key of payload work. *)
Definition is_payload (k : _MigrationKey) : Prop :=
  type k = VInt (type_value FILE) \/ type k = VInt (type_value TABLE_ATTACHED_FILE).

(** The checkpoint as the indexer leaves it.
    - no two rows have the same key;
    - a FILE row has neither row id nor column id;
    - an entity id has rows of one payload type only;
    - the id of a table row is a non-empty text. *)
Record well_formed (t : list Row) : Prop := mkWellFormed {
  wf_unique : List.NoDup (map row_key t);
  wf_file : forall r, In r t -> c_type r = VInt (type_value FILE) ->
            c_row_id r = VNone /\ c_col_id r = VNone;
  wf_one_type : forall r r', In r t -> In r' t -> c_id r = c_id r' ->
            c_type r = VInt (type_value FILE) ->
            c_type r' <> VInt (type_value TABLE_ATTACHED_FILE);
  wf_table_id : forall r, In r t ->
            c_type r = VInt (type_value TABLE_ATTACHED_FILE) ->
            exists s, c_id r = VStr s /\ s <> ""
}.

(** concurrent.futures.wait returns futures it was given. *)
Definition wait_sound (rt : Runtime) : Prop :=
  forall log return_when fs,
    incl (fst (wait rt log return_when fs)) fs /\
    incl (snd (wait rt log return_when fs)) fs.

(** A remote computation that submits nothing and takes no snapshot. *)
Definition quiet {A} (m : M (list Call) A) : Prop :=
  forall log, exists evs,
    fst (m log) = log ++ evs /\
    Forall (fun c => is_sched_event c = false) evs.

(** The three functions the dispatch loop binds to [migration_fn]. *)
Definition known_fn (fn : MigrationFn) : Prop :=
  fn = _create_new_file_version \/ fn = _migrate_file_version \/
  fn = _migrate_table_attached_file.

(** How a row of the checkpoint can differ from the row the scheduler
    started with: the key stays; the status stays, or has left INDEXED
    because the row's key, one of the dispatched keys [ds], came back
    from a task. *)
Definition row_evolves (rt : Runtime) (ds : list _MigrationKey) (r0 r : Row) : Prop :=
  row_key r = row_key r0 /\
  (c_status r = c_status r0 \/
   (c_status r <> VInt (status_value INDEXED) /\
    (wait_sound rt -> In (row_key r0) ds))).

Definition evolves (rt : Runtime) (ds : list _MigrationKey) (t0 t : list Row) : Prop :=
  Forall2 (row_evolves rt ds) t0 t.

(** A key of a payload row that was INDEXED when the scheduler started. *)
Definition initially_indexed (t0 : list Row) (k : _MigrationKey) : Prop :=
  exists r, In r t0 /\ row_key r = k /\
            c_status r = VInt (status_value INDEXED) /\
            is_payload k /\ id k <> VNone.

(** The invariant of the dispatch loop, between the world [w0] the
    scheduler started in and the current state, [ev] being the calls made
    since. *)
Record sched_inv (rt : Runtime) (table_strategy : value) (w0 : World)
    (st : Sched) (w : World) (ev : list Call) : Prop := mkSchedInv {
  inv_calls : calls w = calls w0 ++ ev;
  inv_events : List.filter is_sched_event ev
               = expected_events table_strategy (VStr "") (submitted ev);
  inv_sorted : well_formed (rows (conn w0)) ->
               StronglySorted key_lt (dispatched ev);
  inv_indexed : Forall (initially_indexed (rows (conn w0))) (dispatched ev);
  inv_rows : evolves rt (dispatched ev) (rows (conn w0)) (rows (conn w));
  inv_cursor : cursor_key st = List.last (dispatched ev) initial_key;
  inv_futures : wait_sound rt ->
                Forall (fun f => In (f_key f) (dispatched ev)) (futures st);
  inv_history : Forall known_fn (migration_fn_history st);
  inv_complete :
    well_formed (rows (conn w0)) -> wait_sound rt ->
    forall r, In r (rows (conn w0)) ->
      c_status r = VInt (status_value INDEXED) ->
      c_type r = VInt (type_value TABLE_ATTACHED_FILE) ->
      value_compare (c_id r) (id (cursor_key st)) = Lt ->
      exists k, In k (dispatched ev) /\ id k = c_id r /\
                type k = VInt (type_value TABLE_ATTACHED_FILE)
}.

(** Every table that had an INDEXED cell when the scheduler started has
    had a cell dispatched. *)
Definition tables_visited (rt : Runtime) (t0 : list Row) (ev : list Call) : Prop :=
  well_formed t0 -> wait_sound rt ->
  forall r, In r t0 ->
    c_status r = VInt (status_value INDEXED) ->
    c_type r = VInt (type_value TABLE_ATTACHED_FILE) ->
    exists k, In k (dispatched ev) /\ id k = c_id r /\
              type k = VInt (type_value TABLE_ATTACHED_FILE).

(** The table [table_id] has a cell that is INDEXED in the checkpoint [t]. *)
Definition has_indexed_cell (t : list Row) (table_id : value) : Prop :=
  exists r, In r t /\ c_id r = table_id /\
            c_type r = VInt (type_value TABLE_ATTACHED_FILE) /\
            c_status r = VInt (status_value INDEXED).

(** Parameters of an insert that, when they bind, give a row whose status
    is INDEXED. *)
Definition params_indexed (cols : list Column) (params : list value) : Prop :=
  forall r, bind_row cols params = inr r ->
            c_status r = VInt (status_value INDEXED).

(** The rows of [t'] are those of [t] followed by rows that are INDEXED. *)
Definition extends_indexed (t t' : list Row) : Prop :=
  exists added, t' = t ++ added /\
    Forall (fun r => c_status r = VInt (status_value INDEXED)) added.

(** What holds of the world when the scheduler raises. *)
Definition sched_raised (w0 w : World) : Prop :=
  exists ev, calls w = calls w0 ++ ev /\
             (well_formed (rows (conn w0)) ->
              StronglySorted key_lt (dispatched ev)) /\
             Forall (initially_indexed (rows (conn w0))) (dispatched ev).

(** A record of [get_migrations] against the row it was read from: a
    column that is NULL has no entry, and an entry under one of the five
    integer fields is the [int] of the stored value. *)
Definition record_of_row (row : Row) (d : gmap string value) : Prop :=
  (forall c, In c result_columns -> get_col c row = VNone ->
             d !! column_name c = None) /\
  (forall c, In c [Col_version; Col_row_id; Col_from_storage_location_id;
                   Col_from_file_handle_id; Col_to_file_handle_id] ->
             forall v, d !! column_name c = Some v ->
             exists z, v = VInt z /\ py_int (get_col c row) = inr z).

(* ===================================================================== *)
(** ** Vocabulary of the further properties                               *)
(* ===================================================================== *)

(** The loop [for child in children] of [_index_container], over the
    function that indexes one child. *)
Definition each_child (index_child : Entity -> M World Z)
  : list Entity -> Z -> M World Z :=
  fix each_child (children : list Entity) (total : Z) : M World Z :=
    match children with
    | [] => ret total
    | child :: children' =>
        count <- index_child child ;;
        each_child children' (total + count)
    end.

(** [_index_container] over the function that indexes a child under a
    parent id: what [_index_entity] runs for a folder or a project. *)
Definition _index_container (index_child : Entity -> value -> M World Z)
    (syn : Synapse) (container_entity : Entity)
    (parent_id file_version_strategy table_strategy : value) : M World Z :=
  let entity_id := id_of container_entity in
  children <- on_calls
    (remote (GetChildren entity_id (include_types file_version_strategy table_strategy))
            (fun log => syn_getChildren syn log entity_id
                          (include_types file_version_strategy table_strategy))) ;;
  total <- each_child (fun child => index_child child entity_id) children 0 ;;
  let container_type :=
    if bool_decide (PROJECT_ENTITY = concrete_type_of container_entity)
    then type_value PROJECT else type_value FOLDER in
  execute [Col_id; Col_type; Col_parent_id; Col_status]
          [entity_id; VInt container_type; parent_id; VInt (status_value INDEXED)] ;;;
  ret total.

(** Calls that only read from the service. *)
Definition is_read (c : Call) : bool :=
  match c with
  | Get _ _ | GetChildren _ _ | GET_paginated _ | RestGET _
  | TableQuery _ | GetFileHandleDownload _ _ => true
  | _ => false
  end.

(** Calls that change an entity or a table. *)
Definition is_update (c : Call) : bool :=
  match c with
  | StoreCall _ | RestPUT _ _ => true
  | _ => false
  end.

(** A remote computation that only reads. *)
Definition reads {A} (m : M (list Call) A) : Prop :=
  forall log, exists evs,
    fst (m log) = log ++ evs /\ Forall (fun c => is_read c = true) evs.

(** A computation of the main thread keeps the relation [P] between the
    world it starts in and the world it leaves, whether it returns or
    raises. *)
Definition preserves (P : World -> World -> Prop) {A} (m : M World A) : Prop :=
  forall w, P w (fst (m w)).

(** Between two worlds, only reading calls were made. *)
Definition only_reads (w w' : World) : Prop :=
  exists evs, calls w' = calls w ++ evs /\ Forall (fun c => is_read c = true) evs.

(** Between two worlds, rows were only appended to the checkpoint: the
    rows of [w] are still there, unchanged and in place, and what is
    committed is what was, or the rows of [w] and some of the new ones. *)
Definition only_appends (w w' : World) : Prop :=
  exists a b,
    rows (conn w') = rows (conn w) ++ a ++ b /\
    (committed (conn w') = committed (conn w) \/
     committed (conn w') = rows (conn w) ++ a).

(** A row of payload work: a file version or a table cell. *)
Definition is_payload_row (r : Row) : bool :=
  py_eqb (c_type r) (VInt (type_value FILE)) ||
  py_eqb (c_type r) (VInt (type_value TABLE_ATTACHED_FILE)).

(** The number of payload rows among [added]. *)
Definition payload_count (added : list Row) : Z :=
  Z.of_nat (List.length (List.filter is_payload_row added)).

(** The outcome of an indexing function started in [w]: when it returns
    a count, rows were appended to the checkpoint and the count is the
    number of payload rows among them. *)
Definition counts_payload (w : World) (res : World * (Exn + Z)) : Prop :=
  match res with
  | (w', inr n) =>
      exists added, rows (conn w') = rows (conn w) ++ added /\ n = payload_count added
  | (_, inl _) => True
  end.

(** A row of the checkpoint as [_index_table_entity] writes it for a cell
    of the table [entity_id] found under [parent_id]. *)
Definition indexed_cell (entity_id parent_id : value) (r : Row) : Prop :=
  c_id r = entity_id /\
  c_type r = VInt (type_value TABLE_ATTACHED_FILE) /\
  c_parent_id r = parent_id /\
  c_status r = VInt (status_value INDEXED) /\
  c_to_file_handle_id r = VNone /\ c_exception r = VNone.

(** What sqlite stores as it is bound. The sqlite3 module binds an int
    as a 64-bit integer and raises OverflowError beyond; a column that
    [_ensure_schema] declares [text] ([id], [exception],
    [from_file_handle_id], [to_file_handle_id]) turns an integer into its
    decimal text; [parent_id] and [from_storage_location_id] are declared
    without a type and keep what they are given. *)
Definition kept_untyped (v : value) : Prop :=
  match v with
  | VInt z => - 2 ^ 63 <= z < 2 ^ 63
  | _ => True
  end.

Definition kept_as_text (v : value) : Prop :=
  match v with
  | VInt _ => False
  | _ => True
  end.

(** A client whose copies all fail, with one error. *)
Definition copies_fail (syn : Synapse) (e : Exn) : Prop :=
  forall log assoc storage_location_id,
    syn_multipart_copy syn log assoc storage_location_id = inl e.

(** [wait] splits the futures it is given into those that are done and
    the others. *)
Definition wait_splits (rt : Runtime) : Prop :=
  forall log return_when fs,
    (List.length (fst (wait rt log return_when fs)) +
     List.length (snd (wait rt log return_when fs)))%nat = List.length fs.

(** With ALL_COMPLETED, [wait] leaves no future behind. *)
Definition wait_all_completes (rt : Runtime) : Prop :=
  forall log fs, snd (wait rt log ALL_COMPLETED fs) = [].

(** With FIRST_COMPLETED, [wait] returns at least one future of a
    non-empty set as done. *)
Definition wait_first_completes (rt : Runtime) : Prop :=
  forall log fs, fs <> [] -> fst (wait rt log FIRST_COMPLETED fs) <> [].

(** Every key dispatched in [ev] is counted as migrated, counted as
    errored, or the key of a future that is still outstanding. *)
Definition accounted (continue_on_error : bool) (st : Sched) (ev : list Call) : Prop :=
  migrated_total st + error_total st + Z.of_nat (List.length (futures st))
  = Z.of_nat (List.length (dispatched ev)) /\
  0 <= migrated_total st /\ 0 <= error_total st /\
  (continue_on_error = false -> error_total st = 0).

(** The keys a record of [get_migrations] can have. *)
Definition record_keys : list string :=
  ["id"; "type"; "version"; "row_id"; "from_storage_location_id";
   "from_file_handle_id"; "to_file_handle_id"; "status"; "exception"; "col_name"].

(** The record that [get_migrations] yields for a row, entry by entry:
    'id' and 'exception' are as stored; 'type' is 'file' for a FILE row
    and 'table' otherwise; each of the five integer fields is the [int]
    of what is stored; 'col_name' is a name the service gave for the
    column id of the row; 'status' is the name of the status. A column
    that is NULL has no entry, and there is no other entry: 'col_id' is
    not reported. *)
Definition yields_record (syn : Synapse) (row : Row) (d : gmap string value) : Prop :=
  (forall c, In c [Col_id; Col_exception] ->
     d !! column_name c
     = if is_none (get_col c row) then None else Some (get_col c row)) /\
  d !! "type" = Some (if py_eqb (c_type row) (VInt (type_value FILE))
                      then VStr "file" else VStr "table") /\
  (forall c, In c [Col_version; Col_row_id; Col_from_storage_location_id;
                   Col_from_file_handle_id; Col_to_file_handle_id] ->
     if is_none (get_col c row) then d !! column_name c = None
     else exists z, py_int (get_col c row) = inr z /\
                    d !! column_name c = Some (VInt z)) /\
  (if is_none (c_col_id row) then d !! "col_name" = None
   else exists log name,
          syn_column_name syn log (c_col_id row) = inr name /\
          d !! "col_name" = Some (VStr name)) /\
  (exists s, status_of_value (c_status row) = inr s /\
             d !! "status" = Some (VStr (status_name s))) /\
  (forall k, ~ In k record_keys -> d !! k = None).

(** Every name in the cache [column_names] of the generator is a name the
    service gave for that column id. *)
Definition cache_sound (syn : Synapse) (names : gmap value string) : Prop :=
  forall col name, names !! col = Some name ->
    exists log, syn_column_name syn log col = inr name.

(* ===================================================================== *)
(** ** A small deployment                                                 *)
(* ===================================================================== *)

(** A client for worked examples. [get] answers a file entity at
    version 2 whose file handle 100 lives in storage location 7, with
    versions 1 and 2; there are no children. A table has one file handle
    column, 10, and one row, 1 at version 3, holding file handle 200. The
    copy of file handle 666 fails; any other copy answers with a new
    file handle id, numbered by the calls made so far. *)
Definition example_syn : Synapse :=
  mkSynapse
    (fun _ entity_id _ => inr (mkEntity entity_id FILE_ENTITY (VInt 2) (VStr "100") (VInt 7)))
    (fun _ _ _ => inr [])
    (fun _ _ => inr [VInt 1; VInt 2])
    (fun _ _ => inr tt)
    (fun _ _ => inr [mkColumnModel (VInt 10) "attachment" "FILEHANDLEID";
                     mkColumnModel (VInt 11) "label" "STRING"])
    (fun _ _ => inr "attachment")
    (fun _ _ => inr [[VInt 1; VInt 3; VStr "200"]])
    (fun _ file_handle_id _ => inr (mkFileHandle file_handle_id (VInt 7)))
    (fun log assoc _ =>
       if py_eqb (fileHandleId assoc) (VStr "666")
       then inl (SynapseHTTPError "503 Service Unavailable")
       else inr (VStr (str_of_Z (900 + Z.of_nat (List.length log)))))
    (fun _ _ => inr tt)
    (fun _ _ _ => inr tt)
    (fun _ _ => inr tt).

(** [wait] of a pool whose tasks complete in submission order: with
    FIRST_COMPLETED the oldest future is done, with ALL_COMPLETED all. *)
Definition example_wait (log : list Call) (return_when : ReturnWhen)
    (fs : list Future) : list Future * list Future :=
  match return_when with
  | ALL_COMPLETED => (fs, [])
  | FIRST_COMPLETED => (firstn 1 fs, skipn 1 fs)
  end.

(** A pool of eight threads whose workers start a task at once: the task
    reads [migration_fn] before the dispatch loop assigns it again. *)
Definition prompt_rt : Runtime :=
  mkRuntime 8 example_wait (fun _ => 0%nat)
            (fun _ => "Traceback (most recent call last)").

(** The same pool with busy workers: a task starts after the dispatch
    loop has gone through one more row. *)
Definition late_rt : Runtime :=
  mkRuntime 8 example_wait (fun _ => 1%nat)
            (fun _ => "Traceback (most recent call last)").

(** A FILE row as [_index_file_entity] writes it, in a given status. *)
Definition file_row (entity_id : string) (version : value) (file_handle_id : string)
    (status : _MigrationStatus) : Row :=
  mkRow (VStr entity_id) (VInt (type_value FILE)) version VNone VNone VNone
        (VInt (status_value status)) VNone (VInt 7) (VStr file_handle_id) VNone.

(** A TABLE_ATTACHED_FILE row as [_index_table_entity] writes it. *)
Definition cell_row (table_id : string) (row_id col_id version : Z)
    (file_handle_id : string) (status : _MigrationStatus) : Row :=
  mkRow (VStr table_id) (VInt (type_value TABLE_ATTACHED_FILE)) (VInt version)
        (VInt row_id) (VInt col_id) VNone
        (VInt (status_value status)) VNone (VInt 7) (VStr file_handle_id) VNone.

(** A checkpoint of two versions of a file and the cells of two tables. *)
Definition example_checkpoint : list Row :=
  [file_row "syn1" (VInt 1) "100" INDEXED;
   file_row "syn1" (VInt 2) "101" INDEXED;
   cell_row "syn2" 1 10 3 "200" INDEXED;
   cell_row "syn2" 1 11 3 "201" INDEXED;
   cell_row "syn3" 5 10 1 "300" INDEXED].

(** A checkpoint of one file version followed by one table cell. *)
Definition mixed_checkpoint : list Row :=
  [file_row "syn1" (VInt 1) "100" INDEXED;
   cell_row "syn2" 1 10 3 "200" INDEXED].

(** A checkpoint whose only row failed in an earlier run. *)
Definition errored_checkpoint : list Row :=
  [file_row "syn1" (VInt 1) "100" ERRORED].

(** A checkpoint whose only row has a file handle that cannot be copied. *)
Definition failing_checkpoint : list Row :=
  [file_row "syn1" (VInt 1) "666" INDEXED].

(** The world when the checkpoint file holds [t] and no call was made. *)
Definition open_db (t : list Row) : World := mkWorld (mkConn t t) [].

(** The table entity syn2 as [getChildren] or [get] describes it. *)
Definition example_table : Entity :=
  mkEntity (VStr "syn2") TABLE_ENTITY (VInt 3) VNone VNone.

(** A run of the scheduler over [example_checkpoint], prompt workers. *)
Definition example_run : World * (Exn + Sched) :=
  run_scheduler 10 prompt_rt example_syn (VInt 9) (VStr "snapshot") true
                (open_db example_checkpoint).

(** Runs of the scheduler over [mixed_checkpoint], the workers prompt and
    late. *)
Definition prompt_run : World * (Exn + Sched) :=
  run_scheduler 10 prompt_rt example_syn (VInt 9) (VStr "snapshot") true
                (open_db mixed_checkpoint).

Definition late_run : World * (Exn + Sched) :=
  run_scheduler 10 late_rt example_syn (VInt 9) (VStr "snapshot") true
                (open_db mixed_checkpoint).

(** A pool of two threads, which runs one copy at a time, over a file
    whose copy fails followed by a table cell, with
    continue_on_error = False. *)
Definition two_thread_rt : Runtime :=
  mkRuntime 2 example_wait (fun _ => 0%nat)
            (fun _ => "Traceback (most recent call last)").

Definition aborting_checkpoint : list Row :=
  [file_row "syn1" (VInt 1) "666" INDEXED;
   cell_row "syn2" 1 10 3 "200" INDEXED].

Definition aborted_run : World * (Exn + Sched) :=
  run_scheduler 10 two_thread_rt example_syn (VInt 9) (VStr "snapshot") false
                (open_db aborting_checkpoint).

(** [migrate] run again on a checkpoint whose row is ERRORED. *)
Definition errored_rerun : World * (Exn + MigrationResult) :=
  migrate 10 prompt_rt example_syn (VStr "syn1") (VInt 9) false (VStr "all") VNone
          false (open_db errored_checkpoint).

(** [migrate] of a file that lives in storage location 7 to the storage
    location 7, on an empty checkpoint: a dry run, and a full run. *)
Definition same_location_dry_run : World * (Exn + MigrationResult) :=
  migrate 10 prompt_rt example_syn (VStr "syn1") (VInt 7) true (VStr "new") VNone
          false (open_db []).

Definition same_location_run : World * (Exn + MigrationResult) :=
  migrate 10 prompt_rt example_syn (VStr "syn1") (VInt 7) false (VStr "new") VNone
          false (open_db []).

(** A client that does not own the storage location: the check of the
    destination answers 403. *)
Definition stranger_syn : Synapse :=
  mkSynapse (syn_get example_syn) (syn_getChildren example_syn)
    (syn_versions example_syn)
    (fun _ _ => inl (SynapseHTTPError "403 Forbidden"))
    (syn_table_columns example_syn) (syn_column_name example_syn)
    (syn_tableQuery example_syn) (syn_getFileHandleDownload example_syn)
    (syn_multipart_copy example_syn) (syn_store example_syn)
    (syn_restPUT example_syn) (syn_create_snapshot_version example_syn).

(** The example client with a storage service that is down: every copy
    fails. *)
Definition failing_copy_syn : Synapse :=
  mkSynapse (syn_get example_syn) (syn_getChildren example_syn)
    (syn_versions example_syn) (syn_storage_location example_syn)
    (syn_table_columns example_syn) (syn_column_name example_syn)
    (syn_tableQuery example_syn) (syn_getFileHandleDownload example_syn)
    (fun _ _ _ => inl (SynapseHTTPError "503 Service Unavailable"))
    (syn_store example_syn)
    (syn_restPUT example_syn) (syn_create_snapshot_version example_syn).

(** The file entity syn1, the project syn9 that holds it and the table
    syn2, and a link, which the indexer has no case for. *)
Definition example_file : Entity :=
  mkEntity (VStr "syn1") FILE_ENTITY (VInt 2) (VStr "100") (VInt 7).

Definition example_project : Entity :=
  mkEntity (VStr "syn9") PROJECT_ENTITY VNone VNone VNone.

Definition example_link : Entity :=
  mkEntity (VStr "syn5") (OTHER_ENTITY "org.sagebionetworks.repo.model.Link")
           VNone VNone VNone.

(** The example client over a hierarchy: [get] of syn9 answers the
    project, whose children are the file syn1 and the table syn2. *)
Definition project_syn : Synapse :=
  mkSynapse
    (fun log entity_id version =>
       if py_eqb entity_id (VStr "syn9") then inr example_project
       else syn_get example_syn log entity_id version)
    (fun _ entity_id _ =>
       if py_eqb entity_id (VStr "syn9") then inr [example_file; example_table]
       else inr [])
    (syn_versions example_syn) (syn_storage_location example_syn)
    (syn_table_columns example_syn) (syn_column_name example_syn)
    (syn_tableQuery example_syn) (syn_getFileHandleDownload example_syn)
    (syn_multipart_copy example_syn) (syn_store example_syn)
    (syn_restPUT example_syn) (syn_create_snapshot_version example_syn).

(** A dry run of [migrate] over the project, on an empty checkpoint. *)
Definition project_dry_run : World * (Exn + MigrationResult) :=
  migrate 10 prompt_rt project_syn (VStr "syn9") (VInt 9) true (VStr "all")
          (VStr "snapshot") false (open_db []).

(* ===================================================================== *)
(** * Properties                                                          *)
(* ===================================================================== *)

(** ** Validation of the strategies *)

Lemma check_strategies_noshapshot :
  forall fvs, py_in fvs [VStr "new"; VStr "all"; VStr "latest"; VNone] = true ->
  check_strategies fvs (VStr "noshapshot") = inr tt.
Proof.
  intros fvs H. unfold check_strategies. rewrite H. simpl.
  destruct (is_none fvs); reflexivity.
Qed.

(** C5. [migrate] called with table_strategy = 'nosnapshot' does not pass
    validation: the membership test of the code spells the value
    'noshapshot', so 'nosnapshot' raises the ValueError of an invalid
    table_strategy before anything is touched, and the misspelt value is
    what is accepted. *)
Theorem migrate_nosnapshot_rejected :
  forall fuel rt syn entity storage_location_id dry_run continue_on_error w,
    migrate fuel rt syn entity storage_location_id dry_run
            (VStr "new") (VStr "nosnapshot") continue_on_error w
    = (w, inl (ValueError "invalid value nosnapshot passed for table_strategy"))
    /\ check_strategies (VStr "new") (VStr "noshapshot") = inr tt.
Proof.
  intros. split; reflexivity.
Qed.

(** ** Inserts *)

Lemma executemany_insert_extends :
  forall cols seq t, exists added,
    fst (executemany_insert cols seq t) = t ++ added.
Proof.
  intros cols seq. induction seq as [|params seq IH]; intros t; simpl.
  - exists []. now rewrite app_nil_r.
  - unfold execute_insert.
    destruct (bind_row cols params) as [e|r]; simpl.
    + exists []. now rewrite app_nil_r.
    + unfold insert_row.
      destruct (negb (not_null_ok r)); simpl.
      * exists []. now rewrite app_nil_r.
      * destruct (existsb (pk_conflict r) t); simpl.
        -- exists []. now rewrite app_nil_r.
        -- destruct (IH (t ++ [r])) as [added Ha]. exists (r :: added).
           rewrite Ha, <- app_assoc. reflexivity.
Qed.

(** C4. With file_version_strategy = 'latest' the tuple built for the
    insert holds eight values (the version number twice) for a statement
    of seven parameters: indexing a file entity fetches it once, then the
    insert raises and no row is written. *)
Theorem index_file_entity_latest_raises :
  forall syn entity parent_id w,
    _index_file_entity syn entity parent_id (VStr "latest") w =
    (mkWorld (conn w) (calls w ++ [Get (id_of entity) VNone]),
     match syn_get syn (calls w) (id_of entity) VNone with
     | inl e => inl e
     | inr _ => inl (ProgrammingError "Incorrect number of bindings supplied")
     end).
Proof.
  intros syn entity parent_id [c log].
  unfold _index_file_entity, bind, on_calls, get, remote. simpl.
  destruct (syn_get syn log (id_of entity) VNone) as [e|e']; simpl.
  - reflexivity.
  - unfold executemany, on_rows. simpl. destruct c; reflexivity.
Qed.

Lemma bind_row_length :
  forall cols params,
    List.length params = List.length cols -> exists r, bind_row cols params = inr r.
Proof.
  intros cols params H. unfold bind_row.
  rewrite H, Nat.eqb_refl. eauto.
Qed.

Lemma existsb_pk_conflict :
  forall r r' t, In r' t -> pk_conflict r r' = true ->
                 existsb (pk_conflict r) t = true.
Proof.
  intros r r' t Hin Hc. apply existsb_exists. eauto.
Qed.


(** A row with a NULL key column conflicts with no row: every FILE row,
    whose row id and column id are NULL, is inserted again. *)
Lemma insert_null_key_never_conflicts :
  forall t r, not_null_ok r = true -> c_row_id r = VNone ->
              insert_row t r = inr (t ++ [r]).
Proof.
  intros t r Hnn Hnull. unfold insert_row. rewrite Hnn. simpl.
  replace (existsb (pk_conflict r) t) with false; [reflexivity|].
  symmetry. apply not_true_is_false. intros H.
  apply existsb_exists in H as (r' & _ & Hc).
  unfold pk_conflict in Hc. rewrite Hnull in Hc.
  unfold sql_eq in Hc. simpl in Hc.
  rewrite !andb_false_r in Hc. simpl in Hc. discriminate.
Qed.

(** ** Collecting the results of the tasks *)

Lemma each_completed_app :
  forall rt syn history coe before after mc ec w,
    each_completed rt syn history coe (before ++ after) mc ec w =
    match each_completed rt syn history coe before mc ec w with
    | (w1, inr counts) =>
        each_completed rt syn history coe after (fst counts) (snd counts) w1
    | (w1, inl e) => (w1, inl e)
    end.
Proof.
  intros rt syn history coe before. induction before as [|f before IH]; intros; simpl.
  - reflexivity.
  - destruct (future_result rt syn history f (calls w)) as [log [merr|[k fh]]]; simpl.
    + destruct (negb coe); [reflexivity|]. apply IH.
    + apply IH.
Qed.

Lemma py_eqb_refl : forall a, py_eqb a a = true.
Proof. intros a. unfold py_eqb. now apply bool_decide_eq_true. Qed.

Lemma py_eqb_neq : forall a b, a <> b -> py_eqb a b = false.
Proof. intros a b H. unfold py_eqb. now apply bool_decide_eq_false. Qed.

Lemma sql_eq_true : forall a b, sql_eq a b = true -> a = b /\ a <> VNone.
Proof.
  intros a b E. unfold sql_eq, py_eqb in E.
  apply andb_prop in E as [E1 E]. apply andb_prop in E1 as [E1 _].
  apply bool_decide_eq_true in E. split; [assumption|].
  destruct a; [discriminate| |]; congruence.
Qed.

Lemma sql_eq_refl : forall a, a <> VNone -> sql_eq a a = true.
Proof.
  intros a Ha. unfold sql_eq, py_eqb.
  rewrite bool_decide_eq_true_2 by reflexivity.
  destruct a; [congruence| |]; reflexivity.
Qed.

Lemma key_field_matches_true :
  forall f c, key_field_matches f c = true -> c = f.
Proof.
  intros f c E. unfold key_field_matches in E.
  destruct (is_none f) eqn:Hf.
  - destruct f; try discriminate. destruct c; try discriminate. reflexivity.
  - now apply sql_eq_true in E.
Qed.

Lemma update_where_row_key :
  forall k r, update_where k r = true -> row_key r = k.
Proof.
  intros k r H. unfold update_where in H.
  apply andb_prop in H as [H H5]. apply andb_prop in H as [H H4].
  apply andb_prop in H as [H H3]. apply andb_prop in H as [H1 H2].
  apply sql_eq_true in H1 as [H1 _]. apply sql_eq_true in H2 as [H2 _].
  apply key_field_matches_true in H3, H4, H5.
  destruct k. unfold row_key. simpl in *. congruence.
Qed.

Lemma update_where_refl :
  forall r, c_id r <> VNone -> c_type r <> VNone ->
            update_where (row_key r) r = true.
Proof.
  intros r Hi Ht. unfold update_where, row_key. simpl.
  assert (Hkf : forall a, key_field_matches a a = true).
  { intros a. unfold key_field_matches. destruct (is_none a) eqn:E; [reflexivity|].
    apply sql_eq_refl. intros ->. discriminate. }
  rewrite !sql_eq_refl, !Hkf by assumption. reflexivity.
Qed.

Lemma execute_update_in :
  forall status fh tb k t r,
    In r t -> update_where k r = true ->
    In (update_row status fh tb r) (execute_update status fh tb k t).
Proof.
  intros status fh tb k t r Hin Hw. unfold execute_update.
  apply in_map_iff. exists r. rewrite Hw. auto.
Qed.

(** C7. When the task of a completed future failed and continue_on_error
    is false, [_wait_futures] updates the row of the task's key to
    ERRORED with the formatted exception, commits (the committed rows are
    the updated rows), and only then raises; what it raises is the
    exception the migration function raised, not the [_MigrationError]
    around it. The futures iterated before it succeeded. *)
Theorem wait_futures_raises_cause :
  forall rt syn history w futures return_when before f after remaining
         w1 counts log1 ex,
    wait rt (calls w) return_when futures = (before ++ f :: after, remaining) ->
    each_completed rt syn history false before 0 0 w = (w1, inr counts) ->
    closure_migration_fn rt history f syn (f_key f) (f_from_file_handle_id f)
      (f_storage_location_id f) (calls w1) = (log1, inl ex) ->
    exists t,
      t = execute_update (VInt (status_value ERRORED)) VNone
            (VStr (format_exception rt ex)) (f_key f) (rows (conn w1)) /\
      _wait_futures rt syn history futures return_when false w
      = (mkWorld (mkConn t t) log1, inl ex) /\
      forall r, In r (rows (conn w1)) -> update_where (f_key f) r = true ->
        exists r', In r' t /\ row_key r' = f_key f /\
                   c_status r' = VInt (status_value ERRORED) /\
                   c_exception r' = VStr (format_exception rt ex).
Proof.
  intros rt syn history w futures return_when before f after remaining
         w1 counts log1 ex Hwait Hbefore Htask.
  eexists. split; [reflexivity|]. split.
  - unfold _wait_futures. rewrite Hwait. unfold bind.
    rewrite each_completed_app, Hbefore. simpl.
    unfold future_result, migration_task. rewrite Htask. simpl. reflexivity.
  - intros r Hin Hw.
    exists (update_row (VInt (status_value ERRORED)) VNone
                       (VStr (format_exception rt ex)) r).
    split; [now apply execute_update_in|].
    apply update_where_row_key in Hw. rewrite <- Hw.
    repeat split.
Qed.

(** Leaving the [with] block on an exception rolls back to the last
    commit: the ERRORED row committed by [_wait_futures] is kept. *)
Lemma with_connection_raise :
  forall A (m : M World A) w w' e,
    m w = (w', inl e) ->
    with_connection m w
    = (mkWorld (mkConn (committed (conn w')) (committed (conn w'))) (calls w'), inl e).
Proof.
  intros A m w w' e H. unfold with_connection. rewrite H. reflexivity.
Qed.

(** ** The migration operations *)

(** [_migrate_file_version] copies first, then PUTs the old and the new
    file handle id to the version's filehandle path, and returns the new
    id; a failure of either call is the exception it raises. *)
Lemma migrate_file_version_calls :
  forall syn key from_file_handle_id storage_location_id log,
    let assoc := mkAssociation from_file_handle_id (id key) "FileEntity" in
    let path := String.concat "" ["/entity/"; py_str (id key); "/version/";
                                  py_str (version key); "/filehandle"] in
    _migrate_file_version syn key from_file_handle_id storage_location_id log =
    match syn_multipart_copy syn log assoc storage_location_id with
    | inl ex => (log ++ [MultipartCopy assoc storage_location_id], inl ex)
    | inr new_file_handle_id =>
        let body := [("oldFileHandleId", from_file_handle_id);
                     ("newFileHandleId", new_file_handle_id)] in
        ((log ++ [MultipartCopy assoc storage_location_id]) ++ [RestPUT path body],
         match syn_restPUT syn (log ++ [MultipartCopy assoc storage_location_id])
                 path body with
         | inl ex => inl ex
         | inr _ => inr new_file_handle_id
         end)
    end.
Proof.
  intros. unfold _migrate_file_version, bind, multipart_copy, restPUT, remote, ret.
  fold assoc. fold path.
  destruct (syn_multipart_copy syn log assoc storage_location_id) as [ex|new];
    [reflexivity|].
  destruct (syn_restPUT _ _ _ _); reflexivity.
Qed.

(** Whatever function the task runs, an exception of it is wrapped with
    the key the task was submitted with, and is the cause of the wrapper;
    a result is returned with that key. *)
Lemma migration_task_wraps :
  forall fn syn k from_file_handle_id storage_location_id log,
    match migration_task fn syn k from_file_handle_id storage_location_id log with
    | (log', inl migration_ex) =>
        key migration_ex = k /\
        fn syn k from_file_handle_id storage_location_id log
        = (log', inl (__cause__ migration_ex))
    | (log', inr (k', to_file_handle_id)) =>
        k' = k /\
        fn syn k from_file_handle_id storage_location_id log
        = (log', inr to_file_handle_id)
    end.
Proof.
  intros. unfold migration_task.
  destruct (fn syn k from_file_handle_id storage_location_id log) as [log' [ex|fh]];
    simpl; auto.
Qed.

(** A task that reads [migration_fn] before the loop assigns it again
    runs the function selected for its own row. *)
Lemma closure_read_at_once :
  forall rt history f fn,
    rebinds_before_read rt f = 0%nat ->
    nth_error history (f_seq f) = Some fn ->
    closure_migration_fn rt history f = fn.
Proof.
  intros rt history f fn H0 Hn. unfold closure_migration_fn.
  rewrite H0, Nat.add_0_r.
  assert (f_seq f < List.length history)%nat by (apply nth_error_Some; congruence).
  rewrite Nat.min_l by lia. now rewrite Hn.
Qed.

(** ** The records of the result cursor *)

Lemma column_name_inj : forall c c', column_name c = column_name c' -> c = c'.
Proof. intros c c' H. destruct c, c'; try reflexivity; discriminate H. Qed.

Section RowDict.

Variable row : Row.

Let step (d : gmap string value) (c : Column) : gmap string value :=
  if is_none (get_col c row) then d else <[column_name c := get_col c row]> d.

Lemma fold_step_other :
  forall l (d : gmap string value) k,
    (forall c, In c l -> column_name c <> k) ->
    fold_left step l d !! k = d !! k.
Proof.
  induction l as [|c l IH]; intros d k H; simpl; [reflexivity|].
  rewrite IH by (intros; apply H; now right).
  unfold step. destruct (is_none (get_col c row)); [reflexivity|].
  apply lookup_insert_ne. apply H. now left.
Qed.

Lemma fold_step_column :
  forall l (d : gmap string value) c,
    List.NoDup l -> In c l ->
    fold_left step l d !! column_name c =
    if is_none (get_col c row) then d !! column_name c else Some (get_col c row).
Proof.
  induction l as [|c0 l IH]; intros d c Hnd Hin; [destruct Hin|].
  inversion Hnd as [|? ? Hnotin Hnd']; subst. simpl.
  destruct Hin as [->|Hin].
  - rewrite fold_step_other.
    + unfold step. destruct (is_none (get_col c row)); [reflexivity|].
      apply lookup_insert_eq.
    + intros c' Hc' E. apply column_name_inj in E. subst. contradiction.
  - rewrite IH by assumption.
    destruct (is_none (get_col c row)); [|reflexivity].
    unfold step. destruct (is_none (get_col c0 row)); [reflexivity|].
    apply lookup_insert_ne. intros E. apply column_name_inj in E. subst.
    contradiction.
Qed.

Lemma fold_step_values :
  forall l (d : gmap string value),
    (forall k v, d !! k = Some v -> v <> VNone) ->
    forall k v, fold_left step l d !! k = Some v -> v <> VNone.
Proof.
  induction l as [|c l IH]; intros d Hd k v; simpl; [apply Hd|].
  apply IH. intros k' v'. unfold step.
  destruct (is_none (get_col c row)) eqn:E; [apply Hd|].
  destruct (decide (column_name c = k')) as [<-|Hne].
  - rewrite lookup_insert_eq. intros [= <-] Hv. rewrite Hv in E. discriminate.
  - rewrite lookup_insert_ne by assumption. apply Hd.
Qed.

Lemma result_columns_nodup : List.NoDup result_columns.
Proof.
  unfold result_columns.
  repeat (constructor; [simpl; intuition discriminate|]). constructor.
Qed.

Lemma initial_row_dict_column :
  forall c, In c result_columns ->
    initial_row_dict row !! column_name c =
    if is_none (get_col c row) then None else Some (get_col c row).
Proof.
  intros c Hin. unfold initial_row_dict.
  etransitivity;
    [apply (fold_step_column result_columns ∅ c result_columns_nodup Hin)|].
  destruct (is_none (get_col c row)); [apply lookup_empty|reflexivity].
Qed.

Lemma initial_row_dict_values :
  forall k v, initial_row_dict row !! k = Some v -> v <> VNone.
Proof.
  unfold initial_row_dict.
  apply (fold_step_values result_columns ∅).
  intros k v H. rewrite lookup_empty in H. discriminate.
Qed.

End RowDict.

Lemma int_args_nodup : List.NoDup int_args.
Proof.
  unfold int_args.
  repeat (constructor; [simpl; intuition discriminate|]). constructor.
Qed.

Lemma convert_int_args_spec :
  forall args (d d' : gmap string value),
    List.NoDup args ->
    (forall k v, d !! k = Some v -> v <> VNone) ->
    convert_int_args args d = inr d' ->
    (forall k, ~ In k args -> d' !! k = d !! k) /\
    (forall k, In k args ->
       match d !! k with
       | None => d' !! k = None
       | Some v => exists z, py_int v = inr z /\ d' !! k = Some (VInt z)
       end).
Proof.
  induction args as [|a args IH]; intros d d' Hnd Hd H; simpl in H.
  - injection H as <-. split; [reflexivity|]. intros k [].
  - inversion Hnd as [|? ? Ha Hnd']; subst.
    destruct (d !! a) as [v|] eqn:Hda.
    + assert (Hv : is_none v = false).
      { destruct v; try reflexivity. now apply Hd in Hda. }
      rewrite Hv in H. destruct (py_int v) as [e|z] eqn:Hp; [discriminate|].
      apply IH in H as [P1 P2]; [|assumption|].
      * split.
        -- intros k Hk. rewrite P1 by (intros ?; apply Hk; now right).
           apply lookup_insert_ne. intros ->. apply Hk. now left.
        -- intros k [<-|Hk].
           ++ rewrite Hda. exists z. split; [assumption|].
              rewrite P1 by assumption. apply lookup_insert_eq.
           ++ specialize (P2 k Hk).
              rewrite lookup_insert_ne in P2 by (intros ->; contradiction).
              exact P2.
      * intros k v'. destruct (decide (a = k)) as [<-|Hne].
        -- rewrite lookup_insert_eq. intros [= <-]. discriminate.
        -- rewrite lookup_insert_ne by assumption. apply Hd.
    + apply IH in H as [P1 P2]; [|assumption|assumption].
      split.
      * intros k Hk. apply P1. intros ?. apply Hk. now right.
      * intros k [<-|Hk]; [|now apply P2].
        rewrite Hda. rewrite P1 by assumption. exact Hda.
Qed.

Lemma record_of_row_intro :
  forall row (d1 d2 d4 d5 : gmap string value) ty v5,
    initial_row_dict row !! "type" = Some ty ->
    d1 = <["type" := v5]> (initial_row_dict row) ->
    convert_int_args int_args d1 = inr d2 ->
    (forall k, k <> "col_name" -> d4 !! k = delete "col_id" d2 !! k) ->
    (exists s, d4 !! "status" = Some s /\ exists name, d5 = <["status" := name]> d4) ->
    v5 <> VNone ->
    record_of_row row d5.
Proof.
  intros row d1 d2 d4 d5 ty v5 Hty Hd1 Hconv Hd4 (s & Hs & name & Hd5) Hv5.
  assert (Hvals : forall k v, d1 !! k = Some v -> v <> VNone).
  { intros k v. subst d1. destruct (decide ("type" = k)) as [<-|Hne].
    - rewrite lookup_insert_eq. now intros [= <-].
    - rewrite lookup_insert_ne by assumption. apply initial_row_dict_values. }
  destruct (convert_int_args_spec int_args d1 d2 int_args_nodup Hvals Hconv) as [P1 P2].
  assert (F1 : forall c, In c result_columns -> column_name c <> "type" ->
                 d1 !! column_name c =
                 if is_none (get_col c row) then None else Some (get_col c row)).
  { intros c Hc Hne. subst d1. rewrite lookup_insert_ne by congruence.
    now apply initial_row_dict_column. }
  assert (F5 : forall k, k <> "status" -> k <> "col_name" -> k <> "col_id" ->
                 d5 !! k = d2 !! k).
  { intros k H1 H2 H3. subst d5. rewrite lookup_insert_ne by congruence.
    rewrite Hd4 by assumption. now apply lookup_delete_ne. }
  assert (Hstatus : d1 !! "status" = Some s).
  { rewrite <- (P1 "status") by (simpl; intuition discriminate).
    rewrite Hd4 in Hs by discriminate.
    rewrite lookup_delete_ne in Hs by discriminate. exact Hs. }
  assert (G : forall c, In c result_columns -> In (column_name c) int_args ->
                get_col c row = VNone -> d2 !! column_name c = None).
  { intros c Hc Hi Hn. specialize (P2 _ Hi).
    rewrite (F1 c Hc) in P2.
    - rewrite Hn in P2. exact P2.
    - intros E. rewrite E in Hi. simpl in Hi. intuition discriminate. }
  split.
  - intros c Hc Hnull.
    assert (Hinit := initial_row_dict_column row c Hc). rewrite Hnull in Hinit.
    simpl in Hinit.
    assert (Hc' := Hc). unfold result_columns in Hc'. simpl in Hc'.
    destruct Hc' as [<-|[<-|[<-|[<-|[<-|[<-|[<-|[<-|[<-|[<-|[]]]]]]]]]]].
    + simpl. rewrite F5 by discriminate. rewrite P1 by (simpl; intuition discriminate).
      subst d1. rewrite lookup_insert_ne by discriminate. exact Hinit.
    + simpl in Hinit. congruence.
    + simpl. rewrite F5 by discriminate. apply (G Col_version); simpl; auto 6.
    + simpl. rewrite F5 by discriminate. apply (G Col_row_id); simpl; auto 6.
    + simpl. subst d5. rewrite lookup_insert_ne by discriminate.
      rewrite Hd4 by discriminate. apply lookup_delete_eq.
    + simpl. rewrite F5 by discriminate.
      apply (G Col_from_storage_location_id); simpl; auto 6.
    + simpl. rewrite F5 by discriminate.
      apply (G Col_from_file_handle_id); simpl; auto 6.
    + simpl. rewrite F5 by discriminate.
      apply (G Col_to_file_handle_id); simpl; auto 6.
    + assert (F := F1 Col_status Hc). simpl in F.
      rewrite F in Hstatus by discriminate.
      simpl in Hnull. rewrite Hnull in Hstatus. discriminate.
    + simpl. rewrite F5 by discriminate. rewrite P1 by (simpl; intuition discriminate).
      subst d1. rewrite lookup_insert_ne by discriminate. exact Hinit.
  - intros c Hc v Hv.
    assert (Hres : In c result_columns).
    { unfold result_columns. simpl in *. intuition. }
    assert (Hint : In (column_name c) int_args).
    { unfold int_args. simpl in *.
      destruct Hc as [<-|[<-|[<-|[<-|[<-|[]]]]]]; simpl; auto 6. }
    assert (Hk : column_name c <> "status" /\ column_name c <> "col_name" /\
                 column_name c <> "col_id" /\ column_name c <> "type").
    { simpl in Hc. destruct Hc as [<-|[<-|[<-|[<-|[<-|[]]]]]];
        simpl; repeat split; discriminate. }
    destruct Hk as (K1 & K2 & K3 & K4).
    rewrite F5 in Hv by assumption.
    specialize (P2 _ Hint). rewrite (F1 c Hres K4) in P2.
    destruct (is_none (get_col c row)).
    + congruence.
    + destruct P2 as (z & Hz & Hd2). exists z. split; [congruence|assumption].
Qed.

Lemma result_record_spec :
  forall syn row st,
    match result_record syn row st with
    | (st', inr _) => exists d, yielded st' = yielded st ++ [d] /\ record_of_row row d
    | (st', inl _) => yielded st' = yielded st
    end.
Proof.
  intros syn row st. unfold result_record.
  destruct (initial_row_dict row !! "type") as [ty|] eqn:Hty; [|reflexivity].
  set (d1 := <["type" := _]> (initial_row_dict row)).
  destruct (convert_int_args int_args d1) as [e|d2] eqn:Hconv; [reflexivity|].
  set (col := default VNone (d2 !! "col_id")).
  set (named := if is_none col then _ else _).
  assert (Hnamed : yielded (fst named) = yielded st /\
                   match snd named with
                   | inr d4 => forall k, k <> "col_name" ->
                                         d4 !! k = delete "col_id" d2 !! k
                   | inl _ => True
                   end).
  { subst named. destruct (is_none col).
    - simpl. auto.
    - destruct (column_names st !! col) as [name|].
      + simpl. split; [reflexivity|]. intros k Hk.
        apply lookup_insert_ne. congruence.
      + unfold remote.
        destruct (syn_column_name syn (cur_calls st) col) as [e|name]; simpl.
        * auto.
        * split; [reflexivity|]. intros k Hk. apply lookup_insert_ne. congruence. }
  destruct named as [st1 [e|d4]]; simpl in Hnamed; destruct Hnamed as [Hy Hd4].
  - exact Hy.
  - destruct (d4 !! "status") as [status|] eqn:Hs; [|exact Hy].
    destruct (status_of_value status) as [e|s]; [exact Hy|].
    simpl. eexists. split; [now rewrite Hy|].
    eapply (record_of_row_intro row d1 d2 d4 _ ty); eauto.
    destruct (py_eqb ty (VInt (type_value FILE))); discriminate.
Qed.

Lemma result_batch_spec :
  forall syn results rowid st st' r,
    result_batch syn results rowid st = (st', r) ->
    exists ds, yielded st' = yielded st ++ ds /\
               Forall (fun d => exists x, In x results /\ record_of_row (snd x) d) ds.
Proof.
  intros syn results. induction results as [|[rid row] results IH];
    intros rowid st st' r H; simpl in H.
  - injection H as <- _. exists []. split; [now rewrite app_nil_r|constructor].
  - unfold bind in H. pose proof (result_record_spec syn row st) as Hrec.
    destruct (result_record syn row st) as [st1 [e|[]]].
    + injection H as <- _. exists []. split; [now rewrite app_nil_r|constructor].
    + destruct Hrec as (d & Hy & Hd).
      apply IH in H as (ds & Hy' & Hds).
      exists (d :: ds). split.
      * rewrite Hy', Hy, <- app_assoc. reflexivity.
      * constructor.
        -- exists (rid, row). split; [now left|exact Hd].
        -- eapply List.Forall_impl; [|exact Hds].
           intros d' (x & Hx & Hr). exists x. split; [now right|exact Hr].
Qed.

Lemma In_firstn :
  forall A (l : list A) n x, In x (firstn n l) -> In x l.
Proof.
  intros A l n x H. rewrite <- (firstn_skipn n l). apply in_or_app. now left.
Qed.

Lemma select_migrations_in :
  forall t rowid limit x,
    In x (select_migrations t rowid limit) ->
    In (snd x) t /\
    (c_type (snd x) = VInt (type_value FILE) \/
     c_type (snd x) = VInt (type_value TABLE_ATTACHED_FILE)).
Proof.
  intros t rowid limit x H. unfold select_migrations in H.
  apply In_firstn in H. apply filter_In in H as [Hin Hw]. split.
  - unfold with_rowid in Hin. destruct x as [rid row].
    apply in_combine_r in Hin. exact Hin.
  - unfold get_migrations_where in Hw. apply andb_prop in Hw as [_ Hw].
    apply orb_prop in Hw as [Hw|Hw]; apply sql_eq_true in Hw as [Hw _]; auto.
Qed.

Lemma get_migrations_loop_spec :
  forall fuel syn t rowid st st' r,
    get_migrations_loop fuel syn t rowid st = (st', r) ->
    exists ds, yielded st' = yielded st ++ ds /\
      Forall (fun d => exists row, In row t /\
                (c_type row = VInt (type_value FILE) \/
                 c_type row = VInt (type_value TABLE_ATTACHED_FILE)) /\
                record_of_row row d) ds.
Proof.
  induction fuel as [|fuel IH]; intros syn t rowid st st' r H; simpl in H.
  - injection H as <- _. exists []. split; [now rewrite app_nil_r|constructor].
  - unfold bind in H.
    destruct (result_batch syn (select_migrations t rowid _get_batch_size) rowid st)
      as [st1 [e|rowid']] eqn:Hb.
    + injection H as <- _. apply result_batch_spec in Hb as (ds & Hy & Hds).
      exists ds. split; [exact Hy|].
      eapply List.Forall_impl; [|exact Hds]. intros d (x & Hx & Hr).
      apply select_migrations_in in Hx as [? ?]. eauto.
    + apply result_batch_spec in Hb as (ds & Hy & Hds).
      assert (Hds' : Forall (fun d => exists row, In row t /\
                (c_type row = VInt (type_value FILE) \/
                 c_type row = VInt (type_value TABLE_ATTACHED_FILE)) /\
                record_of_row row d) ds).
      { eapply List.Forall_impl; [|exact Hds]. intros d (x & Hx & Hr).
        apply select_migrations_in in Hx as [? ?]. eauto. }
      destruct (List.length (select_migrations t rowid _get_batch_size) =? 0)%nat.
      * injection H as <- _. eauto.
      * apply IH in H as (ds2 & Hy2 & Hds2).
        exists (ds ++ ds2). split.
        -- rewrite Hy2, Hy, <- app_assoc. reflexivity.
        -- apply Forall_app. auto.
Qed.

(** C10. Every record that [get_migrations] yields was read from a
    payload row of the committed checkpoint; a column of that row that is
    NULL has no entry in the record (a row never migrated has no
    'to_file_handle_id' key), and the entries version, row_id,
    from_storage_location_id, from_file_handle_id and to_file_handle_id,
    when present, are integers: the [int] of what is stored, text
    included. *)
Theorem get_migrations_records :
  forall fuel syn db d,
    In d (fst (get_migrations fuel syn db)) ->
    exists row,
      In row (committed db) /\
      (c_type row = VInt (type_value FILE) \/
       c_type row = VInt (type_value TABLE_ATTACHED_FILE)) /\
      record_of_row row d.
Proof.
  intros fuel syn db d Hin. unfold get_migrations in Hin.
  destruct (get_migrations_loop fuel syn (committed db) (-1) (mkCursor [] ∅ []))
    as [st r] eqn:H.
  apply get_migrations_loop_spec in H as (ds & Hy & Hds). simpl in Hy.
  assert (Hd : In d ds) by (destruct r; simpl in Hin; now rewrite Hy in Hin).
  rewrite List.Forall_forall in Hds. now apply Hds.
Qed.

(** ** The order of the keys *)

Lemma value_compare_eq : forall a b, value_compare a b = Eq -> a = b.
Proof.
  intros [|x|s] [|y|t] H; simpl in H; try discriminate; try reflexivity.
  - apply Z.compare_eq in H. now subst.
  - apply String_as_OT.cmp_eq in H. now subst.
Qed.

Lemma value_compare_refl : forall a, value_compare a a = Eq.
Proof.
  intros [|x|s]; simpl; try reflexivity.
  - apply Z.compare_refl.
  - now apply String_as_OT.cmp_eq.
Qed.

Lemma value_compare_antisym :
  forall a b, value_compare b a = CompOpp (value_compare a b).
Proof.
  intros [|x|s] [|y|t]; simpl; try reflexivity.
  - apply Z.compare_antisym.
  - apply String_as_OT.cmp_antisym.
Qed.

Lemma value_compare_trans :
  forall a b c, value_compare a b = Lt -> value_compare b c = Lt ->
                value_compare a c = Lt.
Proof.
  intros [|x|s] [|y|t] [|z|u] H1 H2; simpl in *; try discriminate; try reflexivity.
  - exact (Z.lt_trans _ _ _ H1 H2).
  - apply String_as_OT.cmp_lt in H1, H2. apply String_as_OT.cmp_lt.
    eapply String_as_OT.lt_trans; eassumption.
Qed.

Lemma key_compare_fields :
  forall a b, key_compare a b = fields_compare (key_fields a) (key_fields b).
Proof.
  intros a b. unfold key_compare, key_fields. simpl.
  destruct (value_compare (version a) (version b)); reflexivity.
Qed.

Lemma key_fields_inj : forall a b, key_fields a = key_fields b -> a = b.
Proof.
  intros [] [] H. unfold key_fields in H. simpl in H. congruence.
Qed.

Lemma fields_compare_eq :
  forall l1 l2, List.length l1 = List.length l2 ->
                fields_compare l1 l2 = Eq -> l1 = l2.
Proof.
  induction l1 as [|a l1 IH]; intros [|b l2] Hlen H; simpl in *;
    try discriminate; try reflexivity.
  destruct (value_compare a b) eqn:E; simpl in H; try discriminate.
  apply value_compare_eq in E. f_equal; [assumption|]. apply IH; [lia|assumption].
Qed.

Lemma fields_compare_refl : forall l, fields_compare l l = Eq.
Proof.
  induction l as [|a l IH]; simpl; [reflexivity|].
  now rewrite value_compare_refl.
Qed.

Lemma fields_compare_antisym :
  forall l1 l2, List.length l1 = List.length l2 ->
                fields_compare l2 l1 = CompOpp (fields_compare l1 l2).
Proof.
  induction l1 as [|a l1 IH]; intros [|b l2] Hlen; simpl in *;
    try discriminate; try reflexivity.
  rewrite (value_compare_antisym a b).
  destruct (value_compare a b); simpl; try reflexivity. apply IH. lia.
Qed.

Lemma fields_compare_trans :
  forall l1 l2 l3,
    fields_compare l1 l2 = Lt -> fields_compare l2 l3 = Lt ->
    fields_compare l1 l3 = Lt.
Proof.
  induction l1 as [|a l1 IH]; intros [|b l2] [|c l3] H1 H2; simpl in *;
    try discriminate.
  destruct (value_compare a b) eqn:Eab; simpl in H1; try discriminate.
  - apply value_compare_eq in Eab. subst b.
    destruct (value_compare a c) eqn:Eac; simpl in *; try discriminate;
      try reflexivity.
    eapply IH; eassumption.
  - destruct (value_compare b c) eqn:Ebc; simpl in H2; try discriminate.
    + apply value_compare_eq in Ebc. subst c. now rewrite Eab.
    + now rewrite (value_compare_trans a b c Eab Ebc).
Qed.

Lemma key_compare_eq : forall a b, key_compare a b = Eq -> a = b.
Proof.
  intros a b H. rewrite key_compare_fields in H.
  apply key_fields_inj. now apply fields_compare_eq.
Qed.

Lemma key_compare_refl : forall a, key_compare a a = Eq.
Proof. intros a. rewrite key_compare_fields. apply fields_compare_refl. Qed.

Lemma key_compare_antisym :
  forall a b, key_compare b a = CompOpp (key_compare a b).
Proof.
  intros a b. rewrite !key_compare_fields. now apply fields_compare_antisym.
Qed.

Lemma key_lt_trans : forall a b c, key_lt a b -> key_lt b c -> key_lt a c.
Proof.
  unfold key_lt. intros a b c. rewrite !key_compare_fields.
  apply fields_compare_trans.
Qed.

Lemma key_lt_irrefl : forall a, ~ key_lt a a.
Proof. unfold key_lt. intros a. rewrite key_compare_refl. discriminate. Qed.

Lemma key_lt_total : forall a b, key_lt a b \/ a = b \/ key_lt b a.
Proof.
  intros a b. unfold key_lt. rewrite (key_compare_antisym a b).
  destruct (key_compare a b) eqn:E; simpl; auto.
  apply key_compare_eq in E. auto.
Qed.

Lemma key_le_cases : forall a b, key_le a b <-> key_lt a b \/ a = b.
Proof.
  intros a b. unfold key_le, key_lt. split.
  - destruct (key_compare a b) eqn:E; auto.
    + apply key_compare_eq in E. auto.
    + congruence.
  - intros [->| ->]; [discriminate|]. rewrite key_compare_refl. discriminate.
Qed.

Lemma key_le_trans : forall a b c, key_le a b -> key_le b c -> key_le a c.
Proof.
  intros a b c H1 H2. apply key_le_cases in H1, H2. apply key_le_cases.
  destruct H1 as [H1| ->]; destruct H2 as [H2| ->]; auto.
  left. eapply key_lt_trans; eassumption.
Qed.

Lemma key_le_lt_trans : forall a b c, key_le a b -> key_lt b c -> key_lt a c.
Proof.
  intros a b c H1 H2. apply key_le_cases in H1 as [H1| ->]; auto.
  eapply key_lt_trans; eassumption.
Qed.

Lemma key_le_total : forall a b, key_le a b \/ key_le b a.
Proof.
  intros a b. destruct (key_lt_total a b) as [H|[H|H]].
  - left. apply key_le_cases. auto.
  - left. apply key_le_cases. auto.
  - right. apply key_le_cases. auto.
Qed.

Lemma key_le_id :
  forall a b, key_le a b -> value_compare (id a) (id b) <> Gt.
Proof.
  intros a b H E. apply H. unfold key_compare. now rewrite E.
Qed.

Lemma key_lt_id :
  forall a b, value_compare (id a) (id b) = Lt -> key_lt a b.
Proof.
  intros a b H. unfold key_lt, key_compare. now rewrite H.
Qed.

Lemma row_leb_le :
  forall r1 r2, row_leb r1 r2 = true <-> key_le (row_key r1) (row_key r2).
Proof.
  intros r1 r2. unfold row_leb, key_le.
  destruct (key_compare (row_key r1) (row_key r2)); split; congruence.
Qed.

(** ** ORDER BY and LIMIT *)

Lemma insert_sorted_perm :
  forall r l, Permutation (insert_sorted r l) (r :: l).
Proof.
  intros r l. induction l as [|a l IH]; simpl.
  - apply Permutation_refl.
  - destruct (row_leb r a).
    + apply Permutation_refl.
    + eapply perm_trans; [apply perm_skip, IH|apply perm_swap].
Qed.

Lemma sort_rows_perm : forall l, Permutation (sort_rows l) l.
Proof.
  induction l as [|a l IH]; simpl.
  - apply perm_nil.
  - eapply perm_trans; [apply insert_sorted_perm|now apply perm_skip].
Qed.

Lemma insert_sorted_sorted :
  forall r l, StronglySorted rows_le l -> StronglySorted rows_le (insert_sorted r l).
Proof.
  intros r l H. induction H as [|a l Hs IH Ha]; simpl.
  - constructor; constructor.
  - destruct (row_leb r a) eqn:E.
    + apply row_leb_le in E. constructor.
      * now constructor.
      * constructor; [exact E|].
        eapply List.Forall_impl; [|exact Ha].
        intros b Hb. eapply key_le_trans; eassumption.
    + constructor; [exact IH|].
      apply List.Forall_forall. intros b Hb.
      apply (Permutation_in _ (insert_sorted_perm r l)) in Hb.
      destruct Hb as [<-|Hb].
      * destruct (key_le_total (row_key a) (row_key r)) as [H|H]; [exact H|].
        apply row_leb_le in H. congruence.
      * rewrite List.Forall_forall in Ha. now apply Ha.
Qed.

Lemma sort_rows_sorted : forall l, StronglySorted rows_le (sort_rows l).
Proof.
  induction l as [|a l IH]; simpl.
  - constructor.
  - now apply insert_sorted_sorted.
Qed.

Lemma StronglySorted_app_inv :
  forall A (R : A -> A -> Prop) l1 l2,
    StronglySorted R (l1 ++ l2) ->
    StronglySorted R l1 /\ StronglySorted R l2 /\
    (forall a b, In a l1 -> In b l2 -> R a b).
Proof.
  intros A R l1 l2. induction l1 as [|x l1 IH]; simpl; intros H.
  - repeat split; [constructor|exact H|intros a b []].
  - inversion H as [|? ? Hs Hx]; subst.
    destruct (IH Hs) as (H1 & H2 & H3).
    rewrite List.Forall_forall in Hx. repeat split.
    + constructor; [exact H1|]. apply List.Forall_forall.
      intros y Hy. apply Hx. apply in_or_app. now left.
    + exact H2.
    + intros a b [<-|Ha] Hb; [|now apply H3].
      apply Hx. apply in_or_app. now right.
Qed.

Lemma StronglySorted_app :
  forall A (R : A -> A -> Prop) l1 l2,
    StronglySorted R l1 -> StronglySorted R l2 ->
    (forall a b, In a l1 -> In b l2 -> R a b) ->
    StronglySorted R (l1 ++ l2).
Proof.
  intros A R l1 l2 H1 H2 H. induction H1 as [|x l1 Hs IH Hx]; simpl.
  - exact H2.
  - constructor.
    + apply IH. intros a b Ha Hb. apply H; [now right|exact Hb].
    + apply List.Forall_forall. intros y Hy. apply in_app_or in Hy as [Hy|Hy].
      * rewrite List.Forall_forall in Hx. now apply Hx.
      * apply H; [now left|exact Hy].
Qed.

Section Select.

Variables (key_id version' row_id' col_id' : value) (limit : nat) (t : list Row).

Let selected : list Row := select_migratable t key_id version' row_id' col_id' limit.
Let wh : Row -> bool := migrate_where key_id version' row_id' col_id'.

Lemma select_in :
  forall r, In r selected -> In r t /\ wh r = true.
Proof.
  intros r H. unfold selected, select_migratable in H.
  apply In_firstn in H.
  apply (Permutation_in _ (sort_rows_perm _)) in H.
  now apply filter_In in H.
Qed.

Lemma select_sorted : StronglySorted rows_le selected.
Proof.
  unfold selected, select_migratable.
  pose proof (sort_rows_sorted (List.filter wh t)) as H.
  rewrite <- (firstn_skipn limit (sort_rows (List.filter wh t))) in H.
  now apply StronglySorted_app_inv in H.
Qed.

Lemma select_left_out :
  forall r b, In r t -> wh r = true -> ~ In r selected ->
              In b selected -> rows_le b r.
Proof.
  intros r b Hin Hw Hnot Hb. unfold selected, select_migratable in *.
  pose proof (sort_rows_sorted (List.filter wh t)) as H.
  rewrite <- (firstn_skipn limit (sort_rows (List.filter wh t))) in H.
  apply StronglySorted_app_inv in H as (_ & _ & H). apply H; [exact Hb|].
  assert (Hr : In r (sort_rows (List.filter wh t))).
  { apply (Permutation_in _ (Permutation_sym (sort_rows_perm _))).
    apply filter_In. auto. }
  rewrite <- (firstn_skipn limit (sort_rows (List.filter wh t))) in Hr.
  apply in_app_or in Hr as [Hr|Hr]; [contradiction|exact Hr].
Qed.

Lemma select_empty :
  forall r, selected = [] -> (0 < limit)%nat -> In r t -> wh r = false.
Proof.
  intros r He Hl Hin. destruct (wh r) eqn:Hw; [|reflexivity].
  assert (Hr : In r (sort_rows (List.filter wh t))).
  { apply (Permutation_in _ (Permutation_sym (sort_rows_perm _))).
    apply filter_In. auto. }
  unfold selected, select_migratable in He. fold wh in He.
  destruct (sort_rows (List.filter wh t)) as [|a l]; [destruct Hr|].
  destruct limit; [lia|discriminate].
Qed.

Lemma select_nodup :
  List.NoDup (map row_key t) -> List.NoDup (map row_key selected).
Proof.
  intros H. unfold selected, select_migratable.
  assert (Hf : List.NoDup (map row_key (List.filter wh t))).
  { clear selected. induction t as [|a l IH]; simpl; [constructor|].
    inversion H as [|? ? Ha Hl]; subst.
    destruct (wh a); simpl; [|now apply IH].
    constructor; [|now apply IH].
    intros Hin. apply Ha. apply in_map_iff in Hin as (x & Hx & Hin).
    apply in_map_iff. exists x. split; [exact Hx|].
    now apply filter_In in Hin. }
  assert (Hs : List.NoDup (map row_key (sort_rows (List.filter wh t)))).
  { eapply Permutation_NoDup; [|exact Hf].
    apply Permutation_map, Permutation_sym, sort_rows_perm. }
  rewrite <- (firstn_skipn limit (sort_rows (List.filter wh t))) in Hs.
  rewrite map_app in Hs. now apply NoDup_app_remove_r in Hs.
Qed.

End Select.

Lemma sorted_le_nodup_lt :
  forall l, StronglySorted rows_le l -> List.NoDup (map row_key l) ->
            StronglySorted key_lt (map row_key l).
Proof.
  intros l H. induction H as [|a l Hs IH Ha]; simpl; intros Hnd.
  - constructor.
  - inversion Hnd as [|? ? Hnot Hnd']; subst. constructor; [now apply IH|].
    apply List.Forall_forall. intros k Hk.
    apply in_map_iff in Hk as (b & <- & Hb).
    rewrite List.Forall_forall in Ha. specialize (Ha b Hb).
    apply key_le_cases in Ha as [Ha|Ha]; [exact Ha|].
    exfalso. apply Hnot. rewrite Ha. now apply in_map.
Qed.

(** ** The WHERE clause of the scheduler *)

Lemma sql_gt_true :
  forall a b, sql_gt a b = true ->
              a <> VNone /\ b <> VNone /\ value_compare b a = Lt.
Proof.
  intros a b H. unfold sql_gt in H.
  apply andb_prop in H as [H H3]. apply andb_prop in H as [H1 H2].
  repeat split.
  - intros ->. discriminate.
  - intros ->. discriminate.
  - rewrite (value_compare_antisym a b).
    destruct (value_compare a b); try discriminate. reflexivity.
Qed.

Lemma sql_gt_intro :
  forall a b, a <> VNone -> b <> VNone -> value_compare b a = Lt ->
              sql_gt a b = true.
Proof.
  intros a b Ha Hb H. unfold sql_gt.
  rewrite (value_compare_antisym b a), H. simpl.
  destruct a; [congruence| |]; destruct b; try congruence; reflexivity.
Qed.

Lemma none_lt : forall a, a <> VNone -> value_compare VNone a = Lt.
Proof. intros [| |] H; [congruence| |]; reflexivity. Qed.

(** A comparison against a cursor field read with -1 for None: the row's
    field is above the cursor's field in the ORDER BY order. *)
Lemma sql_gt_or_minus_one :
  forall a c, sql_gt a (or_minus_one c) = true -> value_compare c a = Lt.
Proof.
  intros a c H. apply sql_gt_true in H as (Ha & _ & H).
  unfold or_minus_one in H. destruct c; simpl in H; try exact H.
  now apply none_lt.
Qed.

Lemma migrate_where_payload :
  forall kid v ri ci r,
    migrate_where kid v ri ci r = true ->
    c_status r = VInt (status_value INDEXED) /\
    c_id r <> VNone /\
    (c_type r = VInt (type_value FILE) \/
     c_type r = VInt (type_value TABLE_ATTACHED_FILE)).
Proof.
  intros kid v ri ci r H. unfold migrate_where in H.
  apply andb_prop in H as [Hs H]. apply sql_eq_true in Hs as [Hs _].
  split; [exact Hs|].
  apply orb_prop in H as [H|H]; [apply orb_prop in H as [H|H]|].
  - apply andb_prop in H as [Hi Ht]. apply sql_gt_true in Hi as (Hi & _).
    split; [exact Hi|].
    apply orb_prop in Ht as [Ht|Ht]; apply sql_eq_true in Ht as [Ht _]; auto.
  - apply andb_prop in H as [H _]. apply andb_prop in H as [H _].
    apply andb_prop in H as [Hi Ht].
    apply sql_eq_true in Hi as [_ Hi]. apply sql_eq_true in Ht as [Ht _]. auto.
  - apply andb_prop in H as [H _]. apply andb_prop in H as [Hi Ht].
    apply sql_eq_true in Hi as [_ Hi]. apply sql_eq_true in Ht as [Ht _]. auto.
Qed.

(** Under the cursor built from the key [c], a selected row is above [c]
    in the ORDER BY order. *)
Lemma migrate_where_above_cursor :
  forall c r,
    migrate_where (id c) (or_minus_one (version c)) (or_minus_one (row_id c))
                  (or_minus_one (col_id c)) r = true ->
    is_payload c ->
    (type c = VInt (type_value FILE) -> row_id c = VNone /\ col_id c = VNone) ->
    (c_type r = VInt (type_value FILE) -> c_row_id r = VNone /\ c_col_id r = VNone) ->
    ~ (id c = c_id r /\ type c = VInt (type_value TABLE_ATTACHED_FILE)
       /\ c_type r = VInt (type_value FILE)) ->
    key_lt c (row_key r).
Proof.
  intros c r H Hpay Hcf Hrf Hone. unfold migrate_where in H.
  apply andb_prop in H as [_ H].
  unfold key_lt, key_compare, row_key. simpl.
  apply orb_prop in H as [H|H]; [apply orb_prop in H as [H|H]|].
  - apply andb_prop in H as [Hi _]. apply sql_gt_true in Hi as (_ & _ & Hi).
    now rewrite Hi.
  - apply andb_prop in H as [H H0]. apply andb_prop in H as [H _].
    apply andb_prop in H as [Hi Ht].
    apply sql_eq_true in Hi as [Hi _]. apply sql_eq_true in Ht as [Ht _].
    apply sql_gt_or_minus_one in H0.
    rewrite <- Hi, value_compare_refl. simpl.
    destruct Hpay as [Hc|Hc].
    + destruct (Hcf Hc) as [-> ->]. destruct (Hrf Ht) as [-> ->].
      rewrite Hc, Ht. simpl. exact H0.
    + exfalso. apply Hone. auto.
  - apply andb_prop in H as [H Hrc]. apply andb_prop in H as [Hi Ht].
    apply sql_eq_true in Hi as [Hi _]. apply sql_eq_true in Ht as [Ht _].
    rewrite <- Hi, value_compare_refl. simpl. rewrite Ht.
    destruct Hpay as [Hc|Hc]; rewrite Hc; simpl; [reflexivity|].
    apply orb_prop in Hrc as [Hr|Hr].
    + apply sql_gt_or_minus_one in Hr. now rewrite Hr.
    + apply andb_prop in Hr as [Hr Hcl].
      apply sql_gt_or_minus_one in Hcl.
      apply sql_eq_true in Hr as [Hr Hnn].
      unfold or_minus_one in Hr. destruct (row_id c) eqn:Erow; simpl in Hr.
      * rewrite (none_lt _ Hnn). reflexivity.
      * rewrite Hr, value_compare_refl. simpl. now rewrite Hcl.
      * rewrite Hr, value_compare_refl. simpl. now rewrite Hcl.
Qed.

(** ** Call logs *)

Lemma last_cons :
  forall A (l : list A) a d, List.last (a :: l) d = List.last l a.
Proof.
  intros A l. induction l as [|b l IH]; intros a d; [reflexivity|].
  change (List.last (b :: l) d = List.last (b :: l) a). now rewrite !IH.
Qed.

Lemma submitted_app :
  forall a b, submitted (a ++ b) = submitted a ++ submitted b.
Proof. intros. unfold submitted. apply flat_map_app. Qed.

Lemma dispatched_app :
  forall a b, dispatched (a ++ b) = dispatched a ++ dispatched b.
Proof. intros. unfold dispatched. now rewrite submitted_app, map_app. Qed.

Lemma snapshot_calls_app :
  forall a b, snapshot_calls (a ++ b) = snapshot_calls a ++ snapshot_calls b.
Proof. intros. unfold snapshot_calls. apply flat_map_app. Qed.

Lemma quiet_events :
  forall evs, Forall (fun c => is_sched_event c = false) evs ->
    submitted evs = [] /\ snapshot_calls evs = [] /\
    List.filter is_sched_event evs = [].
Proof.
  intros evs H. induction H as [|c evs Hc _ (IH1 & IH2 & IH3)]; simpl.
  - auto.
  - rewrite Hc. destruct c; simpl in *; try discriminate; auto.
Qed.

Lemma submitted_filter :
  forall ev, submitted (List.filter is_sched_event ev) = submitted ev.
Proof.
  induction ev as [|c ev IH]; simpl; [reflexivity|].
  destruct c; simpl; try exact IH. now rewrite IH.
Qed.

Lemma snapshot_calls_filter :
  forall ev, snapshot_calls (List.filter is_sched_event ev) = snapshot_calls ev.
Proof.
  induction ev as [|c ev IH]; simpl; [reflexivity|].
  destruct c; simpl; try exact IH. now rewrite IH.
Qed.

Lemma snapshots_precede_filter :
  forall ev snapped,
    snapshots_precede snapped (List.filter is_sched_event ev) <->
    snapshots_precede snapped ev.
Proof.
  induction ev as [|c ev IH]; intros snapped; simpl; [tauto|].
  destruct c; simpl; try apply IH. now rewrite IH.
Qed.

Lemma expected_events_filter :
  forall ts l p,
    List.filter is_sched_event (expected_events ts p l) = expected_events ts p l.
Proof.
  intros ts. induction l as [|[k fh] l IH]; intros p; simpl; [reflexivity|].
  rewrite List.filter_app. simpl. rewrite IH.
  destruct (py_eqb (type k) _ && _); reflexivity.
Qed.

Lemma expected_events_submitted :
  forall ts l p, submitted (expected_events ts p l) = l.
Proof.
  intros ts. induction l as [|[k fh] l IH]; intros p; simpl; [reflexivity|].
  rewrite submitted_app. simpl. rewrite IH.
  destruct (py_eqb (type k) _ && _); reflexivity.
Qed.

Lemma expected_events_app :
  forall ts l1 l2 p,
    expected_events ts p (l1 ++ l2) =
    expected_events ts p l1 ++
    expected_events ts (id (List.last (map fst l1) (mkKey p VNone VNone VNone VNone))) l2.
Proof.
  intros ts. induction l1 as [|[k fh] l1 IH]; intros l2 p; simpl; [reflexivity|].
  rewrite IH, <- app_assoc. simpl. f_equal. f_equal. f_equal.
  destruct l1 as [|[k' fh'] l1]; [reflexivity|]. simpl.
  f_equal. clear. revert k'. induction l1 as [|[k2 fh2] l1 IH]; intros k'; simpl.
  - reflexivity.
  - apply IH.
Qed.

(** ** Tasks neither submit nor snapshot *)

Lemma quiet_ret : forall A (a : A), quiet (ret a).
Proof.
  intros A a log. exists []. split; [simpl; now rewrite app_nil_r|constructor].
Qed.

Lemma quiet_raise : forall A e, quiet (@raise (list Call) A e).
Proof.
  intros A e log. exists []. split; [simpl; now rewrite app_nil_r|constructor].
Qed.

Lemma quiet_remote :
  forall A c (answer : list Call -> Exn + A),
    is_sched_event c = false -> quiet (remote c answer).
Proof.
  intros A c answer Hc log. exists [c]. split; [reflexivity|].
  constructor; [exact Hc|constructor].
Qed.

Lemma quiet_bind :
  forall A B (m : M (list Call) A) (k : A -> M (list Call) B),
    quiet m -> (forall a, quiet (k a)) -> quiet (bind m k).
Proof.
  intros A B m k Hm Hk log. unfold bind.
  destruct (Hm log) as (evs & E & Hq).
  destruct (m log) as [log1 [e|a]]; simpl in E; subst log1.
  - exists evs. auto.
  - destruct (Hk a (log ++ evs)) as (evs2 & E2 & Hq2).
    exists (evs ++ evs2). split.
    + rewrite E2. now rewrite app_assoc.
    + apply Forall_app. auto.
Qed.

Lemma known_fn_quiet :
  forall fn syn k a b, known_fn fn -> quiet (fn syn k a b).
Proof.
  intros fn syn k a b [-> | [-> | ->]].
  - unfold _create_new_file_version.
    apply quiet_bind; [now apply quiet_remote|intros e].
    apply quiet_bind; [now apply quiet_remote|intros fh].
    apply quiet_bind; [now apply quiet_remote|intros _]. apply quiet_ret.
  - unfold _migrate_file_version.
    apply quiet_bind; [now apply quiet_remote|intros fh].
    apply quiet_bind; [now apply quiet_remote|intros _]. apply quiet_ret.
  - unfold _migrate_table_attached_file.
    apply quiet_bind; [now apply quiet_remote|intros fh].
    apply quiet_bind; [|intros rid].
    + intros log. exists []. unfold PartialRow. simpl.
      split; [now rewrite app_nil_r|constructor].
    + apply quiet_bind; [now apply quiet_remote|intros _]. apply quiet_ret.
Qed.

Lemma closure_quiet :
  forall rt history f syn k a b,
    Forall known_fn history ->
    quiet (closure_migration_fn rt history f syn k a b).
Proof.
  intros rt history f syn k a b H. unfold closure_migration_fn.
  destruct (nth_error history _) as [fn|] eqn:E.
  - apply known_fn_quiet. rewrite List.Forall_forall in H.
    apply H. eapply nth_error_In; eassumption.
  - apply quiet_raise.
Qed.

(** The result of a future carries the key it was submitted with. *)
Lemma future_result_spec :
  forall rt syn history f log,
    Forall known_fn history ->
    exists evs,
      fst (future_result rt syn history f log) = log ++ evs /\
      Forall (fun c => is_sched_event c = false) evs /\
      match snd (future_result rt syn history f log) with
      | inl migration_ex => key migration_ex = f_key f
      | inr (k, _) => k = f_key f
      end.
Proof.
  intros rt syn history f log H. unfold future_result, migration_task.
  destruct (closure_quiet rt history f syn (f_key f) (f_from_file_handle_id f)
              (f_storage_location_id f) H log) as (evs & E & Hq).
  destruct (closure_migration_fn _ _ _ _ _ _ _ log) as [log' [ex|fh]];
    simpl in *; subst log'; exists evs; auto.
Qed.

(** ** How the checkpoint changes during a run *)

Lemma evolves_refl : forall rt ds t, evolves rt ds t t.
Proof.
  intros rt ds t. unfold evolves. induction t; constructor; auto.
  split; auto.
Qed.

Lemma evolves_mono :
  forall rt ds ds' t0 t, incl ds ds' -> evolves rt ds t0 t -> evolves rt ds' t0 t.
Proof.
  intros rt ds ds' t0 t Hi H. unfold evolves in *.
  induction H as [|r0 r t0 t Hr _ IH]; constructor; [|exact IH].
  destruct Hr as [Hk [Hs|[Hs Hd]]]; split; auto.
Qed.

Lemma evolves_in_r :
  forall rt ds t0 t r, evolves rt ds t0 t -> In r t ->
                       exists r0, In r0 t0 /\ row_evolves rt ds r0 r.
Proof.
  intros rt ds t0 t r H. unfold evolves in H.
  induction H as [|r0 r' t0 t Hr _ IH]; intros Hin; [destruct Hin|].
  destruct Hin as [<-|Hin].
  - exists r0. split; [now left|exact Hr].
  - destruct (IH Hin) as (x & Hx & Hrx). exists x. split; [now right|exact Hrx].
Qed.

Lemma evolves_in_l :
  forall rt ds t0 t r0, evolves rt ds t0 t -> In r0 t0 ->
                        exists r, In r t /\ row_evolves rt ds r0 r.
Proof.
  intros rt ds t0 t r0 H. unfold evolves in H.
  induction H as [|r0' r t0 t Hr _ IH]; intros Hin; [destruct Hin|].
  destruct Hin as [<-|Hin].
  - exists r. split; [now left|exact Hr].
  - destruct (IH Hin) as (x & Hx & Hrx). exists x. split; [now right|exact Hrx].
Qed.

Lemma evolves_keys :
  forall rt ds t0 t, evolves rt ds t0 t -> map row_key t = map row_key t0.
Proof.
  intros rt ds t0 t H. unfold evolves in H.
  induction H as [|r0 r t0 t [Hk _] _ IH]; simpl; [reflexivity|].
  now rewrite Hk, IH.
Qed.

Lemma update_row_key :
  forall s fh tb r, row_key (update_row s fh tb r) = row_key r.
Proof. intros. reflexivity. Qed.

Lemma evolves_update :
  forall rt ds t0 t s fh tb k,
    evolves rt ds t0 t ->
    (wait_sound rt -> In k ds) ->
    s <> VInt (status_value INDEXED) ->
    evolves rt ds t0 (execute_update s fh tb k t).
Proof.
  intros rt ds t0 t s fh tb k H Hk Hs. unfold evolves in *.
  induction H as [|r0 r t0 t Hr _ IH]; simpl; constructor; [|exact IH].
  destruct (update_where k r) eqn:E; [|exact Hr].
  destruct Hr as [Hkey _]. split.
  - now rewrite update_row_key.
  - right. split; [exact Hs|].
    intros Hw. apply update_where_row_key in E. rewrite <- Hkey, E. auto.
Qed.

Section Collect.

Variables (rt : Runtime) (syn : Synapse) (history : list MigrationFn)
          (continue_on_error : bool) (ds : list _MigrationKey) (t0 : list Row).

Hypothesis Hhistory : Forall known_fn history.

Lemma each_completed_inv :
  forall completed mc ec w,
    evolves rt ds t0 (rows (conn w)) ->
    (wait_sound rt -> Forall (fun f => In (f_key f) ds) completed) ->
    let w' := fst (each_completed rt syn history continue_on_error completed mc ec w) in
    evolves rt ds t0 (rows (conn w')) /\
    exists evs, calls w' = calls w ++ evs /\
                Forall (fun c => is_sched_event c = false) evs.
Proof.
  induction completed as [|f completed IH]; intros mc ec w Hev Hfs; simpl.
  - split; [exact Hev|]. exists []. split; [now rewrite app_nil_r|constructor].
  - destruct (future_result_spec rt syn history f (calls w) Hhistory)
      as (evs & E & Hq & Hkey).
    destruct (future_result rt syn history f (calls w)) as [log result].
    simpl in E, Hkey. subst log.
    assert (Hf : wait_sound rt -> In (f_key f) ds).
    { intros Hw. specialize (Hfs Hw). now inversion Hfs. }
    assert (Hrest : wait_sound rt -> Forall (fun f => In (f_key f) ds) completed).
    { intros Hw. specialize (Hfs Hw). now inversion Hfs. }
    destruct result as [merr|[k fh]]; subst.
    + match goal with
      | |- context [mkWorld ?c ?l] => set (w1 := mkWorld c l)
      end.
      assert (Hev1 : evolves rt ds t0 (rows (conn w1))).
      { subst w1. simpl. rewrite Hkey. apply evolves_update; auto; discriminate. }
      destruct continue_on_error; simpl.
      * destruct (IH mc (ec + 1) w1 Hev1 Hrest) as (H1 & evs2 & E2 & Hq2).
        split; [exact H1|]. exists (evs ++ evs2). split.
        -- rewrite E2. subst w1. simpl. now rewrite app_assoc.
        -- apply Forall_app. auto.
      * split; [exact Hev1|]. exists evs. auto.
    + match goal with
      | |- context [mkWorld ?c ?l] => set (w1 := mkWorld c l)
      end.
      assert (Hev1 : evolves rt ds t0 (rows (conn w1))).
      { subst w1. simpl. apply evolves_update; auto; discriminate. }
      destruct (IH (mc + 1) ec w1 Hev1 Hrest) as (H1 & evs2 & E2 & Hq2).
      split; [exact H1|]. exists (evs ++ evs2). split.
      * rewrite E2. subst w1. simpl. now rewrite app_assoc.
      * apply Forall_app. auto.
Qed.

Lemma wait_futures_inv :
  forall fs return_when w,
    evolves rt ds t0 (rows (conn w)) ->
    (wait_sound rt -> Forall (fun f => In (f_key f) ds) fs) ->
    let res := _wait_futures rt syn history fs return_when continue_on_error w in
    evolves rt ds t0 (rows (conn (fst res))) /\
    (exists evs, calls (fst res) = calls w ++ evs /\
                 Forall (fun c => is_sched_event c = false) evs) /\
    match snd res with
    | inr (fs', _, _) => wait_sound rt -> Forall (fun f => In (f_key f) ds) fs'
    | inl _ => True
    end.
Proof.
  intros fs return_when w Hev Hfs. unfold _wait_futures.
  destruct (wait rt (calls w) return_when fs) as [completed remaining] eqn:Ew.
  assert (Hc : wait_sound rt -> Forall (fun f => In (f_key f) ds) completed).
  { intros Hw. specialize (Hfs Hw). destruct (Hw (calls w) return_when fs) as [Hi _].
    rewrite Ew in Hi. simpl in Hi. rewrite List.Forall_forall in *. auto. }
  assert (Hr : wait_sound rt -> Forall (fun f => In (f_key f) ds) remaining).
  { intros Hw. specialize (Hfs Hw). destruct (Hw (calls w) return_when fs) as [_ Hi].
    rewrite Ew in Hi. simpl in Hi. rewrite List.Forall_forall in *. auto. }
  pose proof (each_completed_inv completed 0 0 w Hev Hc) as H. unfold bind.
  destruct (each_completed rt syn history continue_on_error completed 0 0 w)
    as [w' [e|counts]]; simpl in *; destruct H as [H1 H2]; auto.
Qed.

End Collect.

(** ** The dispatch loop *)

Section Dispatch.

Variables (rt : Runtime) (syn : Synapse)
          (storage_location_id table_strategy : value).

Lemma dispatch_row_spec :
  forall st row w,
    (c_type row = VInt (type_value FILE) \/
     c_type row = VInt (type_value TABLE_ATTACHED_FILE)) ->
    match dispatch_row syn storage_location_id table_strategy st row w with
    | (w', inr st') =>
        conn w' = conn w /\
        calls w' = calls w ++
          expected_events table_strategy (id (cursor_key st)) [row_submission row] /\
        cursor_key st' = row_key row /\
        (exists f, futures st' = futures st ++ [f] /\ f_key f = row_key row) /\
        (exists fn, migration_fn_history st' = migration_fn_history st ++ [fn] /\
                    known_fn fn)
    | (w', inl e) =>
        conn w' = conn w /\
        exists evs, calls w' = calls w ++ evs /\ submitted evs = []
    end.
Proof.
  intros st row [c log] Hty. unfold dispatch_row, bind, on_calls, submit, ret.
  unfold row_submission. simpl in Hty. simpl.
  destruct Hty as [Hty|Hty]; rewrite Hty.
  - rewrite py_eqb_refl. rewrite (py_eqb_neq (VInt 3) (VInt 4)) by discriminate.
    simpl.
    destruct (is_none (c_version row)); simpl;
      (repeat split; [eexists; split; [reflexivity|reflexivity]
                     |eexists; split; [reflexivity|unfold known_fn; auto]]).
  - rewrite py_eqb_refl. rewrite (py_eqb_neq (VInt 4) (VInt 3)) by discriminate.
    simpl.
    destruct (negb (py_eqb (id (cursor_key st)) (c_id row)) &&
              py_eqb table_strategy (VStr "snapshot")); simpl.
    + unfold remote.
      destruct (syn_create_snapshot_version syn log (c_id row)) as [e|[]]; simpl.
      * split; [reflexivity|]. eexists. split; [reflexivity|reflexivity].
      * repeat split; [now rewrite <- app_assoc
                      |eexists; split; [reflexivity|reflexivity]
                      |eexists; split; [reflexivity|unfold known_fn; auto]].
    + repeat split; [eexists; split; [reflexivity|reflexivity]
                    |eexists; split; [reflexivity|unfold known_fn; auto]].
Qed.

Lemma dispatch_rows_spec :
  forall results st w,
    (forall r, In r results ->
       c_type r = VInt (type_value FILE) \/
       c_type r = VInt (type_value TABLE_ATTACHED_FILE)) ->
    match dispatch_rows syn storage_location_id table_strategy results st w with
    | (w', inr st') =>
        conn w' = conn w /\
        calls w' = calls w ++
          expected_events table_strategy (id (cursor_key st))
            (map row_submission results) /\
        cursor_key st' = List.last (map row_key results) (cursor_key st) /\
        (exists fs, futures st' = futures st ++ fs /\
                    Forall (fun f => In (f_key f) (map row_key results)) fs) /\
        (exists fns, migration_fn_history st' = migration_fn_history st ++ fns /\
                     Forall known_fn fns)
    | (w', inl e) =>
        conn w' = conn w /\
        exists before after evs,
          results = before ++ after /\
          calls w' = calls w ++ evs /\
          submitted evs = map row_submission before
    end.
Proof.
  induction results as [|row results IH]; intros st w Hty; simpl.
  - repeat split; try (now rewrite app_nil_r).
    + exists []. split; [now rewrite app_nil_r|constructor].
    + exists []. split; [now rewrite app_nil_r|constructor].
  - unfold bind.
    pose proof (dispatch_row_spec st row w (Hty row (or_introl eq_refl))) as Hrow.
    destruct (dispatch_row syn storage_location_id table_strategy st row w)
      as [w1 [e|st1]].
    + destruct Hrow as (Hc & evs & Hl & Hs). split; [exact Hc|].
      exists [], (row :: results), evs. auto.
    + destruct Hrow as (Hc & Hl & Hk & (f & Hf & Hfk) & (fn & Hh & Hfn)).
      specialize (IH st1 w1 (fun r H => Hty r (or_intror H))).
      destruct (dispatch_rows syn storage_location_id table_strategy results st1 w1)
        as [w2 [e|st2]].
      * destruct IH as (Hc2 & before & after & evs & -> & Hl2 & Hs2).
        split; [congruence|].
        exists (row :: before), after, (expected_events table_strategy
                  (id (cursor_key st)) [row_submission row] ++ evs).
        repeat split.
        -- rewrite Hl2, Hl. now rewrite app_assoc.
        -- rewrite submitted_app, expected_events_submitted, Hs2. reflexivity.
      * destruct IH as (Hc2 & Hl2 & Hk2 & (fs & Hfs & Hfsk) & (fns & Hh2 & Hfns)).
        repeat split.
        -- congruence.
        -- rewrite Hl2, Hl, Hk, <- app_assoc. f_equal.
           simpl. destruct (_ && _); reflexivity.
        -- rewrite Hk2, Hk. symmetry. apply last_cons.
        -- exists (f :: fs). split.
           ++ rewrite Hfs, Hf, <- app_assoc. reflexivity.
           ++ constructor; [left; exact (eq_sym Hfk)|].
              eapply List.Forall_impl; [|exact Hfsk]. intros; now right.
        -- exists (fn :: fns). split.
           ++ rewrite Hh2, Hh, <- app_assoc. reflexivity.
           ++ now constructor.
Qed.

End Dispatch.

(** ** The invariant of the scheduler *)

Lemma row_key_fields :
  forall r r', row_key r = row_key r' ->
    c_id r = c_id r' /\ c_type r = c_type r' /\ c_version r = c_version r' /\
    c_row_id r = c_row_id r' /\ c_col_id r = c_col_id r'.
Proof. intros r r' H. unfold row_key in H. injection H. auto. Qed.

Lemma last_in :
  forall A (l : list A) d, l <> [] -> In (List.last l d) l.
Proof.
  intros A l d. induction l as [|a l IH]; intros H; [congruence|].
  destruct l as [|b l]; [now left|]. right. apply IH. discriminate.
Qed.

Lemma last_app_cons :
  forall A (l1 l2 : list A) d,
    List.last (l1 ++ l2) d = List.last l2 (List.last l1 d).
Proof.
  intros A l1 l2 d. revert d. induction l1 as [|a l1 IH]; intros d; [reflexivity|].
  rewrite <- app_comm_cons, !last_cons. apply IH.
Qed.

Lemma sorted_last :
  forall l k d, StronglySorted key_lt l -> In k l ->
                k = List.last l d \/ key_lt k (List.last l d).
Proof.
  intros l k d H. revert k d. induction H as [|a l Hs IH Ha]; intros k d Hin.
  - destruct Hin.
  - rewrite last_cons. destruct Hin as [<-|Hin].
    + destruct l as [|b l]; [now left|]. right.
      rewrite List.Forall_forall in Ha. apply Ha. apply last_in. discriminate.
    + destruct (IH k a Hin) as [E|E]; auto.
Qed.

Lemma string_compare_empty : forall s, String.compare s "" <> Lt.
Proof. intros [|c s]; simpl; discriminate. Qed.

Lemma sorted_lt_nodup :
  forall l, StronglySorted key_lt l -> List.NoDup l.
Proof.
  intros l H. induction H as [|a l Hs IH Ha]; constructor; [|exact IH].
  intros Hin. rewrite List.Forall_forall in Ha.
  exact (key_lt_irrefl a (Ha a Hin)).
Qed.

Section SchedulerInvariant.

Variables (rt : Runtime) (syn : Synapse)
          (storage_location_id table_strategy : value)
          (continue_on_error : bool) (w0 : World).

Let t0 : list Row := rows (conn w0).
Let Inv := sched_inv rt table_strategy w0.

Lemma sched_inv_raised :
  forall st w ev, Inv st w ev -> sched_raised w0 w.
Proof.
  intros st w ev H. exists ev. destruct H. auto.
Qed.

Lemma sched_inv_initial : Inv (mkSched initial_key [] [] 0 0) w0 [].
Proof.
  constructor; simpl; try (now constructor).
  - now rewrite app_nil_r.
  - apply evolves_refl.
  - intros Hwf _ r Hin _ Hty Hlt.
    destruct (wf_table_id _ Hwf r Hin Hty) as (s & Hs & _).
    rewrite Hs in Hlt. simpl in Hlt. now apply string_compare_empty in Hlt.
Qed.

(** Calls that neither submit nor snapshot keep the invariant. *)
Lemma sched_inv_quiet :
  forall st w ev st' w' evs,
    Inv st w ev ->
    calls w' = calls w ++ evs ->
    Forall (fun c => is_sched_event c = false) evs ->
    evolves rt (dispatched ev) t0 (rows (conn w')) ->
    cursor_key st' = cursor_key st ->
    migration_fn_history st' = migration_fn_history st ->
    (wait_sound rt -> Forall (fun f => In (f_key f) (dispatched ev)) (futures st')) ->
    Inv st' w' (ev ++ evs).
Proof.
  intros st w ev st' w' evs H Hc Hq Hev Hk Hh Hf.
  destruct (quiet_events evs Hq) as (Hs & _ & Hfl).
  assert (Hd : dispatched (ev ++ evs) = dispatched ev).
  { rewrite dispatched_app. unfold dispatched at 2. rewrite Hs. simpl.
    apply app_nil_r. }
  destruct H. constructor; rewrite ?Hd, ?Hk, ?Hh; auto.
  - rewrite Hc, inv_calls0. now rewrite app_assoc.
  - rewrite List.filter_app, Hfl, app_nil_r, submitted_app, Hs, app_nil_r.
    assumption.
Qed.

Lemma cursor_cases :
  forall st w ev, Inv st w ev ->
    (dispatched ev = [] /\ cursor_key st = initial_key) \/
    (In (cursor_key st) (dispatched ev) /\ initially_indexed t0 (cursor_key st)).
Proof.
  intros st w ev H. destruct H. rewrite inv_cursor0.
  destruct (dispatched ev) as [|k ds] eqn:E; [left; auto|right].
  assert (Hin : In (List.last (k :: ds) initial_key) (k :: ds))
    by (apply last_in; discriminate).
  split; [exact Hin|].
  rewrite List.Forall_forall in inv_indexed0. now apply inv_indexed0.
Qed.

Lemma current_row_origin :
  forall st w ev r, Inv st w ev -> In r (rows (conn w)) ->
    exists r0, In r0 t0 /\ row_key r = row_key r0 /\
      (c_status r = VInt (status_value INDEXED) ->
       c_status r0 = VInt (status_value INDEXED)).
Proof.
  intros st w ev r H Hin. destruct H.
  destruct (evolves_in_r _ _ _ _ _ inv_rows0 Hin) as (r0 & Hr0 & Hk & Hs).
  exists r0. repeat split; auto.
  intros E. destruct Hs as [Hs|[Hs _]]; congruence.
Qed.

Lemma batch_indexed :
  forall st w ev b, Inv st w ev ->
    In b (next_batch (cursor_key st) (rows (conn w))) ->
    initially_indexed t0 (row_key b) /\
    (c_type b = VInt (type_value FILE) \/
     c_type b = VInt (type_value TABLE_ATTACHED_FILE)).
Proof.
  intros st w ev b H Hb. unfold next_batch in Hb.
  apply select_in in Hb as [Hin Hw].
  apply migrate_where_payload in Hw as (Hs & Hi & Hty).
  split; [|exact Hty].
  destruct (current_row_origin st w ev b H Hin) as (r0 & Hr0 & Hk & Hst).
  exists r0. repeat split; auto.
Qed.

Lemma batch_above_cursor (Hwf : well_formed t0) :
  forall st w ev b, Inv st w ev ->
    dispatched ev <> [] ->
    In b (next_batch (cursor_key st) (rows (conn w))) ->
    key_lt (cursor_key st) (row_key b).
Proof.
  intros st w ev b H Hne Hb.
  destruct (cursor_cases st w ev H) as [[E _]|[_ (rc & Hrc & Hkc & _ & Hpay & _)]];
    [contradiction|].
  unfold next_batch in Hb. apply select_in in Hb as [Hin Hw].
  destruct (current_row_origin st w ev b H Hin) as (b0 & Hb0 & Hkb & _).
  apply row_key_fields in Hkb as (Bi & Bt & _ & Br & Bc).
  assert (Ci : c_id rc = id (cursor_key st)) by now rewrite <- Hkc.
  assert (Ct : c_type rc = type (cursor_key st)) by now rewrite <- Hkc.
  assert (Cr : c_row_id rc = row_id (cursor_key st)) by now rewrite <- Hkc.
  assert (Cc : c_col_id rc = col_id (cursor_key st)) by now rewrite <- Hkc.
  apply migrate_where_above_cursor; auto.
  - intros E. rewrite <- Ct in E. rewrite <- Cr, <- Cc.
    exact (wf_file _ Hwf rc Hrc E).
  - intros E. rewrite Bt in E. rewrite Br, Bc.
    exact (wf_file _ Hwf b0 Hb0 E).
  - intros (E1 & E2 & E3).
    apply (wf_one_type _ Hwf b0 rc Hb0 Hrc); congruence.
Qed.

Lemma batch_sorted (Hwf : well_formed t0) :
  forall st w ev, Inv st w ev ->
    StronglySorted key_lt
      (dispatched ev ++ map row_key (next_batch (cursor_key st) (rows (conn w)))).
Proof.
  intros st w ev H. apply StronglySorted_app.
  - exact (inv_sorted _ _ _ _ _ _ H Hwf).
  - unfold next_batch. apply sorted_le_nodup_lt.
    + apply select_sorted.
    + apply select_nodup. destruct H.
      rewrite (evolves_keys _ _ _ _ inv_rows0). exact (wf_unique _ Hwf).
  - intros k kb Hk Hkb. apply in_map_iff in Hkb as (b & <- & Hb).
    assert (Hne : dispatched ev <> []) by (intros E; rewrite E in Hk; destruct Hk).
    pose proof (batch_above_cursor Hwf st w ev b H Hne Hb) as Hlt.
    assert (Hs : StronglySorted key_lt (dispatched ev))
      by exact (inv_sorted _ _ _ _ _ _ H Hwf).
    destruct (sorted_last _ k initial_key Hs Hk) as [E|E].
    + rewrite E. destruct H. now rewrite <- inv_cursor0.
    + eapply key_lt_trans; [exact E|]. destruct H. now rewrite <- inv_cursor0.
Qed.

(** A table row that was INDEXED at the start: a cell of its table has
    been dispatched, or the row is still selected by the cursor. *)
Lemma table_row_pending (Hwf : well_formed t0) :
  forall st w ev, Inv st w ev -> wait_sound rt ->
    forall r, In r t0 ->
      c_status r = VInt (status_value INDEXED) ->
      c_type r = VInt (type_value TABLE_ATTACHED_FILE) ->
      (exists k, In k (dispatched ev) /\ id k = c_id r /\
                 type k = VInt (type_value TABLE_ATTACHED_FILE)) \/
      (exists r', In r' (rows (conn w)) /\ row_key r' = row_key r /\
         migrate_where (id (cursor_key st))
           (or_minus_one (version (cursor_key st)))
           (or_minus_one (row_id (cursor_key st)))
           (or_minus_one (col_id (cursor_key st))) r' = true).
Proof.
  intros st w ev H Hws r Hr Hst Hty.
  destruct (wf_table_id _ Hwf r Hr Hty) as (s & Hs & Hne).
  destruct (evolves_in_l _ _ _ _ r (inv_rows _ _ _ _ _ _ H) Hr)
    as (r' & Hr' & Hk' & Hs').
  destruct Hs' as [Hsame|[_ Hin]].
  2:{ left. exists (row_key r). split; [now apply Hin|auto]. }
  destruct (value_compare (c_id r) (id (cursor_key st))) eqn:Ecmp.
  - apply value_compare_eq in Ecmp.
    destruct (cursor_cases st w ev H)
      as [[_ E]|[Hc (rc & Hrc & Hkc & _ & Hpay & _)]].
    + rewrite E in Ecmp. simpl in Ecmp. congruence.
    + destruct Hpay as [Hp|Hp].
      * exfalso. apply (wf_one_type _ Hwf rc r Hrc Hr).
        -- rewrite <- Hkc in Ecmp. simpl in Ecmp. congruence.
        -- rewrite <- Hkc in Hp. exact Hp.
        -- exact Hty.
      * left. exists (cursor_key st). auto.
  - left. exact (inv_complete _ _ _ _ _ _ H Hwf Hws r Hr Hst Hty Ecmp).
  - right. exists r'. split; [exact Hr'|]. split; [exact Hk'|].
    apply row_key_fields in Hk' as (Ki & Kt & _).
    assert (Hidc : id (cursor_key st) <> VNone).
    { destruct (cursor_cases st w ev H) as [[_ E]|[_ (rc & _ & _ & _ & _ & Hn)]].
      - rewrite E. discriminate.
      - exact Hn. }
    unfold migrate_where.
    rewrite Hsame, Hst, sql_eq_refl by discriminate.
    rewrite Ki, Kt, Hty.
    rewrite sql_gt_intro.
    + rewrite (sql_eq_refl (VInt (type_value TABLE_ATTACHED_FILE))) by discriminate.
      rewrite orb_true_r. reflexivity.
    + rewrite Hs. discriminate.
    + exact Hidc.
    + rewrite (value_compare_antisym (c_id r) (id (cursor_key st))), Ecmp.
      reflexivity.
Qed.

Lemma batch_complete (Hwf : well_formed t0) :
  forall st w ev, Inv st w ev -> wait_sound rt ->
    forall r, In r t0 ->
      c_status r = VInt (status_value INDEXED) ->
      c_type r = VInt (type_value TABLE_ATTACHED_FILE) ->
      value_compare (c_id r)
        (id (List.last (map row_key (next_batch (cursor_key st) (rows (conn w))))
                       (cursor_key st))) = Lt ->
      exists k,
        In k (dispatched ev ++
              map row_key (next_batch (cursor_key st) (rows (conn w)))) /\
        id k = c_id r /\ type k = VInt (type_value TABLE_ATTACHED_FILE).
Proof.
  intros st w ev H Hws r Hr Hst Hty Hlt.
  set (B := next_batch (cursor_key st) (rows (conn w))) in *.
  destruct B as [|b B'] eqn:EB.
  { simpl in Hlt.
    destruct (inv_complete _ _ _ _ _ _ H Hwf Hws r Hr Hst Hty Hlt)
      as (k & Hk & Hi & Ht).
    exists k. split; [apply in_or_app; now left|auto]. }
  destruct (table_row_pending Hwf st w ev H Hws r Hr Hst Hty)
    as [(k & Hk & Hi & Ht)|(r' & Hr' & Hk' & Hw)].
  { exists k. split; [apply in_or_app; now left|auto]. }
  apply row_key_fields in Hk' as (Ki & Kt & _).
  destruct (in_dec row_eq_dec r' (b :: B')) as [Hin|Hnot].
  - exists (row_key r'). split.
    + apply in_or_app. right. now apply in_map.
    + split; [exact Ki|]. simpl. rewrite Kt. exact Hty.
  - exfalso.
    assert (Hl : In (List.last (map row_key (b :: B')) (cursor_key st))
                    (map row_key (b :: B'))) by (apply last_in; discriminate).
    apply in_map_iff in Hl as (bl & Hbl & Hinl).
    rewrite <- Hbl in Hlt.
    assert (Hle : rows_le bl r').
    { unfold B, next_batch in *.
      eapply select_left_out; [exact Hr'|exact Hw| |].
      - rewrite EB. exact Hnot.
      - rewrite EB. exact Hinl. }
    apply key_le_id in Hle. apply Hle.
    unfold row_key. simpl. rewrite Ki.
    rewrite (value_compare_antisym (c_id r) (c_id bl)).
    unfold row_key in Hlt. simpl in Hlt. now rewrite Hlt.
Qed.

Lemma dispatched_expected :
  forall p results,
    dispatched (expected_events table_strategy p (map row_submission results))
    = map row_key results.
Proof.
  intros p results. unfold dispatched.
  rewrite expected_events_submitted, map_map. reflexivity.
Qed.

(** Dispatching the batch selected from the cursor keeps the invariant. *)
Lemma sched_inv_batch :
  forall st w ev st' w', Inv st w ev ->
    conn w' = conn w ->
    calls w' = calls w ++
      expected_events table_strategy (id (cursor_key st))
        (map row_submission (next_batch (cursor_key st) (rows (conn w)))) ->
    cursor_key st' =
      List.last (map row_key (next_batch (cursor_key st) (rows (conn w))))
                (cursor_key st) ->
    (exists fs, futures st' = futures st ++ fs /\
       Forall (fun f => In (f_key f)
                 (map row_key (next_batch (cursor_key st) (rows (conn w))))) fs) ->
    (exists fns, migration_fn_history st' = migration_fn_history st ++ fns /\
                 Forall known_fn fns) ->
    Inv st' w'
      (ev ++ expected_events table_strategy (id (cursor_key st))
               (map row_submission (next_batch (cursor_key st) (rows (conn w))))).
Proof.
  intros st w ev st' w' H Hconn Hcalls Hcur (fs & Hfs & Hfsk) (fns & Hfns & Hk).
  set (B := next_batch (cursor_key st) (rows (conn w))) in *.
  assert (Hd : dispatched (ev ++ expected_events table_strategy (id (cursor_key st))
                                  (map row_submission B))
               = dispatched ev ++ map row_key B)
    by now rewrite dispatched_app, dispatched_expected.
  constructor; rewrite ?Hd.
  - rewrite Hcalls, (inv_calls _ _ _ _ _ _ H). now rewrite app_assoc.
  - rewrite List.filter_app, expected_events_filter, (inv_events _ _ _ _ _ _ H).
    rewrite submitted_app, expected_events_submitted, expected_events_app.
    f_equal. f_equal. rewrite (inv_cursor _ _ _ _ _ _ H). fold (dispatched ev).
    destruct (dispatched ev) as [|k ds]; [reflexivity|].
    now rewrite !last_cons.
  - intros Hwf. now apply batch_sorted.
  - apply Forall_app. split; [exact (inv_indexed _ _ _ _ _ _ H)|].
    apply List.Forall_forall. intros k Hin.
    apply in_map_iff in Hin as (b & <- & Hb).
    now apply (batch_indexed st w ev b H).
  - rewrite Hconn. eapply evolves_mono; [|exact (inv_rows _ _ _ _ _ _ H)].
    intros k Hin. apply in_or_app. now left.
  - rewrite Hcur, (inv_cursor _ _ _ _ _ _ H). symmetry. apply last_app_cons.
  - intros Hws. rewrite Hfs. apply Forall_app. split.
    + eapply List.Forall_impl; [|exact (inv_futures _ _ _ _ _ _ H Hws)].
      intros f Hf. apply in_or_app. now left.
    + eapply List.Forall_impl; [|exact Hfsk].
      intros f Hf. apply in_or_app. now right.
  - rewrite Hfns. apply Forall_app. split; [exact (inv_history _ _ _ _ _ _ H)|exact Hk].
  - intros Hwf Hws r Hr Hst Hty Hlt. rewrite Hcur in Hlt.
    now apply (batch_complete Hwf st w ev H Hws r).
Qed.

Lemma batch_size_positive : (0 < _get_batch_size)%nat.
Proof. unfold _get_batch_size. lia. Qed.

(** When the query from the cursor returns no row, no table is left. *)
Lemma loop_exit :
  forall st w ev, Inv st w ev ->
    next_batch (cursor_key st) (rows (conn w)) = [] ->
    tables_visited rt t0 ev.
Proof.
  intros st w ev H Hb Hwf Hws r Hr Hst Hty.
  destruct (table_row_pending Hwf st w ev H Hws r Hr Hst Hty)
    as [Hk|(r' & Hr' & _ & Hw)]; [exact Hk|].
  unfold next_batch in Hb.
  rewrite (select_empty _ _ _ _ _ _ r' Hb batch_size_positive Hr') in Hw.
  discriminate.
Qed.

Lemma tables_visited_quiet :
  forall ev evs, tables_visited rt t0 ev ->
    Forall (fun c => is_sched_event c = false) evs ->
    tables_visited rt t0 (ev ++ evs).
Proof.
  intros ev evs H Hq. destruct (quiet_events evs Hq) as (Hs & _).
  unfold tables_visited. rewrite dispatched_app. unfold dispatched at 2.
  rewrite Hs. simpl. rewrite app_nil_r. exact H.
Qed.

Lemma sched_raised_quiet :
  forall st w ev w' evs, Inv st w ev ->
    calls w' = calls w ++ evs ->
    Forall (fun c => is_sched_event c = false) evs ->
    sched_raised w0 w'.
Proof.
  intros st w ev w' evs H Hc Hq. destruct (quiet_events evs Hq) as (Hs & _).
  assert (Hd : dispatched (ev ++ evs) = dispatched ev).
  { rewrite dispatched_app. unfold dispatched at 2. rewrite Hs. simpl.
    apply app_nil_r. }
  exists (ev ++ evs). rewrite Hd. destruct H.
  split; [|split; assumption].
  rewrite Hc, inv_calls0. now rewrite app_assoc.
Qed.

(** The wait at the head of an iteration. *)
Lemma wait_step_inv :
  forall st w ev return_when, Inv st w ev ->
    match _wait_futures rt syn (migration_fn_history st) (futures st)
            return_when continue_on_error w with
    | (w1, inr (fs, _, _)) =>
        exists evs,
          Forall (fun c => is_sched_event c = false) evs /\
          forall mt et,
            Inv (mkSched (cursor_key st) fs (migration_fn_history st) mt et)
                w1 (ev ++ evs) /\
            Inv (mkSched (cursor_key st) (futures st) (migration_fn_history st) mt et)
                w1 (ev ++ evs)
    | (w1, inl _) => sched_raised w0 w1
    end.
Proof.
  intros st w ev return_when H.
  pose proof (wait_futures_inv rt syn (migration_fn_history st) continue_on_error
                (dispatched ev) t0 (inv_history _ _ _ _ _ _ H)
                (futures st) return_when w (inv_rows _ _ _ _ _ _ H)
                (inv_futures _ _ _ _ _ _ H)) as Hres.
  simpl in Hres.
  destruct (_wait_futures rt syn (migration_fn_history st) (futures st)
              return_when continue_on_error w) as [w1 [e|[[fs mc] ec]]];
    simpl in Hres; destruct Hres as (Hev & (evs & Hc & Hq) & Hfs).
  - exact (sched_raised_quiet st w ev w1 evs H Hc Hq).
  - exists evs. split; [exact Hq|]. intros mt et. split.
    + apply (sched_inv_quiet st w ev _ w1 evs H Hc Hq Hev); auto.
    + apply (sched_inv_quiet st w ev _ w1 evs H Hc Hq Hev); auto.
      exact (inv_futures _ _ _ _ _ _ H).
Qed.

Lemma wait_if_saturated_inv :
  forall st w ev, Inv st w ev ->
    match wait_if_saturated rt syn continue_on_error st w with
    | (w1, inr st1) => exists ev1, Inv st1 w1 ev1
    | (w1, inl _) => sched_raised w0 w1
    end.
Proof.
  intros st w ev H. unfold wait_if_saturated.
  destruct (Z.of_nat (List.length (futures st)) >=? max_concurrent_file_copies rt).
  - unfold bind. pose proof (wait_step_inv st w ev FIRST_COMPLETED H) as Hw.
    destruct (_wait_futures rt syn (migration_fn_history st) (futures st)
                FIRST_COMPLETED continue_on_error w) as [w1 [e|[[fs mc] ec]]].
    + exact Hw.
    + destruct Hw as (evs & _ & Hw). exists (ev ++ evs). apply Hw.
  - exists ev. exact H.
Qed.

(** A dispatch loop that raised after some rows of the batch. *)
Lemma batch_raised :
  forall st w ev w' before after evs, Inv st w ev ->
    next_batch (cursor_key st) (rows (conn w)) = before ++ after ->
    calls w' = calls w ++ evs ->
    submitted evs = map row_submission before ->
    sched_raised w0 w'.
Proof.
  intros st w ev w' before after evs H Hb Hc Hs.
  assert (Hd : dispatched (ev ++ evs) = dispatched ev ++ map row_key before).
  { rewrite dispatched_app. unfold dispatched at 2. rewrite Hs, map_map.
    reflexivity. }
  exists (ev ++ evs). rewrite Hd. repeat split.
  - rewrite Hc, (inv_calls _ _ _ _ _ _ H). now rewrite app_assoc.
  - intros Hwf. pose proof (batch_sorted Hwf st w ev H) as Hsorted.
    rewrite Hb, map_app, app_assoc in Hsorted.
    now apply StronglySorted_app_inv in Hsorted.
  - apply Forall_app. split; [exact (inv_indexed _ _ _ _ _ _ H)|].
    apply List.Forall_forall. intros k Hin.
    apply in_map_iff in Hin as (b & <- & Hin).
    apply (batch_indexed st w ev b H). rewrite Hb. apply in_or_app. now left.
Qed.

Lemma migrate_loop_inv :
  forall fuel st w ev, Inv st w ev ->
    match migrate_loop fuel rt syn storage_location_id table_strategy
            continue_on_error st w with
    | (w', inr st') => exists ev', Inv st' w' ev' /\ tables_visited rt t0 ev'
    | (w', inl _) => sched_raised w0 w'
    end.
Proof.
  induction fuel as [|fuel IH]; intros st w ev H.
  - simpl. exact (sched_inv_raised st w ev H).
  - cbn [migrate_loop]. unfold bind at 1.
    pose proof (wait_if_saturated_inv st w ev H) as Hwait.
    destruct (wait_if_saturated rt syn continue_on_error st w) as [w1 [e|st1]];
      [exact Hwait|].
    destruct Hwait as (ev1 & H1).
    unfold bind at 1. unfold query at 1.
    set (results := next_batch (cursor_key st1) (rows (conn w1))).
    unfold bind at 1.
    pose proof (dispatch_rows_spec syn storage_location_id table_strategy
                  results st1 w1
                  (fun r Hr => proj2 (batch_indexed st1 w1 ev1 r H1 Hr))) as Hd.
    destruct (dispatch_rows syn storage_location_id table_strategy results st1 w1)
      as [w2 [e|st2]].
    + destruct Hd as (_ & before & after & evs & Hb & Hc & Hs).
      exact (batch_raised st1 w1 ev1 w2 before after evs H1 Hb Hc Hs).
    + destruct Hd as (Hconn & Hc & Hcur & Hfs & Hfns).
      pose proof (sched_inv_batch st1 w1 ev1 st2 w2 H1 Hconn Hc Hcur Hfs Hfns) as H2.
      fold results in H2.
      destruct (List.length results =? 0)%nat eqn:El.
      * apply Nat.eqb_eq in El. apply length_zero_iff_nil in El.
        eexists. split; [exact H2|].
        rewrite El. simpl. rewrite app_nil_r.
        apply (loop_exit st1 w1 ev1 H1). exact El.
      * exact (IH st2 w2 _ H2).
Qed.

(** The scheduler as a whole: the loop from the initial cursor, then the
    wait for the futures that are left. *)
Lemma run_scheduler_inv :
  forall fuel,
    match run_scheduler fuel rt syn storage_location_id table_strategy
            continue_on_error w0 with
    | (w', inr st') => exists ev', Inv st' w' ev' /\ tables_visited rt t0 ev'
    | (w', inl _) => sched_raised w0 w'
    end.
Proof.
  intros fuel. unfold run_scheduler, bind.
  pose proof (migrate_loop_inv fuel _ w0 [] sched_inv_initial) as Hl.
  destruct (migrate_loop fuel rt syn storage_location_id table_strategy
              continue_on_error (mkSched initial_key [] [] 0 0) w0)
    as [w1 [e|st1]]; [exact Hl|].
  destruct Hl as (ev1 & H1 & Hv).
  destruct (futures st1) as [|f fs] eqn:Ef.
  - exists ev1. auto.
  - unfold bind. pose proof (wait_step_inv st1 w1 ev1 ALL_COMPLETED H1) as Hw.
    rewrite Ef in Hw.
    destruct (_wait_futures rt syn (migration_fn_history st1) (f :: fs)
                ALL_COMPLETED continue_on_error w1) as [w2 [e|[[fs2 mc] ec]]].
    + exact Hw.
    + destruct Hw as (evs & Hq & Hw). exists (ev1 ++ evs). split.
      * exact (proj2 (Hw _ _)).
      * now apply tables_visited_quiet.
Qed.

(** The dispatched keys are keys of distinct rows of the checkpoint the
    scheduler started with. *)
Lemma dispatched_bound :
  forall st w ev, well_formed t0 -> Inv st w ev ->
    (List.length (dispatched ev) <= List.length t0)%nat.
Proof.
  intros st w ev Hwf H.
  rewrite <- (length_map row_key t0).
  apply List.NoDup_incl_length.
  - apply sorted_lt_nodup. exact (inv_sorted _ _ _ _ _ _ H Hwf).
  - intros k Hk. pose proof (inv_indexed _ _ _ _ _ _ H) as Hi.
    rewrite List.Forall_forall in Hi.
    destruct (Hi k Hk) as (r & Hr & <- & _). now apply in_map.
Qed.

(** Waiting for a future dispatches nothing. *)
Lemma wait_if_saturated_dispatched :
  forall st w ev, Inv st w ev ->
    match wait_if_saturated rt syn continue_on_error st w with
    | (w1, inr st1) => exists ev1, Inv st1 w1 ev1 /\ dispatched ev1 = dispatched ev
    | (w1, inl _) => True
    end.
Proof.
  intros st w ev H. unfold wait_if_saturated.
  destruct (Z.of_nat (List.length (futures st)) >=? max_concurrent_file_copies rt).
  - unfold bind. pose proof (wait_step_inv st w ev FIRST_COMPLETED H) as Hw.
    destruct (_wait_futures rt syn (migration_fn_history st) (futures st)
                FIRST_COMPLETED continue_on_error w) as [w1 [e|[[fs mc] ec]]];
      [exact I|].
    destruct Hw as (evs & Hq & Hw). exists (ev ++ evs). split; [apply Hw|].
    destruct (quiet_events evs Hq) as (Hs & _).
    rewrite dispatched_app. unfold dispatched at 2. rewrite Hs. apply app_nil_r.
  - exists ev. auto.
Qed.

(** Every iteration but the last dispatches a row, and no row is
    dispatched twice: more iterations than the checkpoint has rows are
    never needed, and the outcome of the loop does not depend on the bound
    once it exceeds the number of rows left. *)
Lemma migrate_loop_fuel :
  forall fuel fuel' st w ev, well_formed t0 -> Inv st w ev ->
    (List.length t0 < fuel + List.length (dispatched ev))%nat ->
    (List.length t0 < fuel' + List.length (dispatched ev))%nat ->
    migrate_loop fuel rt syn storage_location_id table_strategy
      continue_on_error st w
    = migrate_loop fuel' rt syn storage_location_id table_strategy
        continue_on_error st w.
Proof.
  induction fuel as [|fuel IH]; intros fuel' st w ev Hwf H Hf Hf';
    pose proof (dispatched_bound st w ev Hwf H) as Hbound; [lia|].
  destruct fuel' as [|fuel']; [lia|].
  cbn [migrate_loop]. unfold bind at 1 4.
  pose proof (wait_if_saturated_dispatched st w ev H) as Hwait.
  destruct (wait_if_saturated rt syn continue_on_error st w) as [w1 [e|st1]];
    [reflexivity|].
  destruct Hwait as (ev1 & H1 & Hd1).
  unfold bind at 1 3. unfold query at 1 2.
  set (results := next_batch (cursor_key st1) (rows (conn w1))).
  unfold bind at 1 2.
  pose proof (dispatch_rows_spec syn storage_location_id table_strategy
                results st1 w1
                (fun r Hr => proj2 (batch_indexed st1 w1 ev1 r H1 Hr))) as Hd.
  destruct (dispatch_rows syn storage_location_id table_strategy results st1 w1)
    as [w2 [e|st2]]; [reflexivity|].
  destruct Hd as (Hconn & Hc & Hcur & Hfs & Hfns).
  pose proof (sched_inv_batch st1 w1 ev1 st2 w2 H1 Hconn Hc Hcur Hfs Hfns) as H2.
  fold results in H2.
  destruct (List.length results =? 0)%nat eqn:El; [reflexivity|].
  apply Nat.eqb_neq in El.
  apply (IH fuel' st2 w2 _ Hwf H2);
    rewrite dispatched_app, dispatched_expected, length_app, length_map, Hd1; lia.
Qed.

(** The scheduler needs no more iterations than the checkpoint has rows,
    plus the one that finds none left. *)
Lemma run_scheduler_fuel :
  forall fuel fuel', well_formed t0 ->
    (List.length t0 < fuel)%nat -> (List.length t0 < fuel')%nat ->
    run_scheduler fuel rt syn storage_location_id table_strategy
      continue_on_error w0
    = run_scheduler fuel' rt syn storage_location_id table_strategy
        continue_on_error w0.
Proof.
  intros fuel fuel' Hwf Hf Hf'. unfold run_scheduler. unfold bind at 1 3.
  rewrite (migrate_loop_fuel fuel fuel' _ w0 [] Hwf sched_inv_initial);
    [reflexivity|simpl; lia|simpl; lia].
Qed.

End SchedulerInvariant.

(** ** Snapshot calls in the events of a dispatch loop *)

Lemma value_compare_lt_le :
  forall a b c, value_compare a b = Lt -> value_compare b c <> Gt ->
                value_compare a c = Lt.
Proof.
  intros a b c H1 H2. destruct (value_compare b c) eqn:E.
  - apply value_compare_eq in E. now subst.
  - eapply value_compare_trans; eassumption.
  - congruence.
Qed.

Lemma value_compare_le_antisym :
  forall a b, value_compare a b <> Gt -> value_compare b a <> Gt -> a = b.
Proof.
  intros a b H1 H2. rewrite (value_compare_antisym a b) in H2.
  destruct (value_compare a b) eqn:E; simpl in H2; try congruence.
  now apply value_compare_eq.
Qed.

Lemma key_lt_id_le :
  forall a b, key_lt a b -> value_compare (id a) (id b) <> Gt.
Proof.
  intros a b H. apply key_le_id. apply key_le_cases. now left.
Qed.

Lemma py_eqb_true : forall a b, py_eqb a b = true -> a = b.
Proof. intros a b H. unfold py_eqb in H. now apply bool_decide_eq_true in H. Qed.

Lemma count_snapshots_app :
  forall T a b, count_snapshots T (a ++ b) = (count_snapshots T a + count_snapshots T b)%nat.
Proof.
  intros. unfold count_snapshots. rewrite snapshot_calls_app. apply count_occ_app.
Qed.

Lemma count_snapshots_filter :
  forall T ev, count_snapshots T (List.filter is_sched_event ev) = count_snapshots T ev.
Proof. intros. unfold count_snapshots. now rewrite snapshot_calls_filter. Qed.

Section Snapshots.

Variables (table_strategy : value) (T : value).

(** Without the 'snapshot' strategy no snapshot is taken. *)
Lemma no_snapshot_without_strategy :
  forall l p, py_eqb table_strategy (VStr "snapshot") = false ->
              snapshot_calls (expected_events table_strategy p l) = [].
Proof.
  intros l p H. revert p. induction l as [|[k fh] l IH]; intros p; simpl;
    [reflexivity|].
  rewrite H, !andb_false_r. simpl. apply IH.
Qed.

(** No snapshot of a table none of whose cells is dispatched. *)
Lemma no_snapshot_of_absent_table :
  forall l p,
    (forall k, In k (map fst l) ->
       ~ (id k = T /\ type k = VInt (type_value TABLE_ATTACHED_FILE))) ->
    count_snapshots T (expected_events table_strategy p l) = 0%nat.
Proof.
  induction l as [|[k fh] l IH]; intros p H; simpl; [reflexivity|].
  rewrite count_snapshots_app.
  change (Submit k fh :: expected_events table_strategy (id k) l)
    with ([Submit k fh] ++ expected_events table_strategy (id k) l).
  rewrite count_snapshots_app, IH by (intros k' Hk'; apply H; now right).
  destruct (py_eqb (type k) _ && _) eqn:E; [|reflexivity].
  apply andb_prop in E as [E _]. apply py_eqb_true in E.
  unfold count_snapshots. simpl.
  destruct (value_eq_dec (id k) T) as [Ei|Ei]; [|reflexivity].
  exfalso. apply (H k); [now left|auto].
Qed.

(** Once the cursor is on the table, its later cells take no snapshot. *)
Lemma no_snapshot_after_first :
  forall l p,
    StronglySorted key_lt (map fst l) ->
    (forall k, In k (map fst l) -> value_compare p (id k) <> Gt) ->
    p = T ->
    count_snapshots T (expected_events table_strategy p l) = 0%nat.
Proof.
  induction l as [|[k fh] l IH]; intros p Hs Hp E; simpl; [reflexivity|].
  simpl in Hs. apply StronglySorted_inv in Hs as [Hs' Hk].
  rewrite List.Forall_forall in Hk.
  rewrite count_snapshots_app.
  change (Submit k fh :: expected_events table_strategy (id k) l)
    with ([Submit k fh] ++ expected_events table_strategy (id k) l).
  rewrite count_snapshots_app.
  assert (Hrest : count_snapshots T (expected_events table_strategy (id k) l) = 0%nat).
  { destruct (value_eq_dec (id k) T) as [Ei|Ei].
    - apply IH; [exact Hs'| |exact Ei].
      intros k' Hk'. apply key_lt_id_le. now apply Hk.
    - apply no_snapshot_of_absent_table. intros k' Hk' [Ek' _].
      assert (Hlt : value_compare T (id k) = Lt).
      { specialize (Hp k (or_introl eq_refl)).
        destruct (value_compare T (id k)) eqn:Ec; try congruence.
        apply value_compare_eq in Ec. congruence. }
      pose proof (value_compare_lt_le _ _ _ Hlt (key_lt_id_le _ _ (Hk k' Hk'))) as Hc.
      rewrite Ek', value_compare_refl in Hc. discriminate. }
  rewrite Hrest.
  destruct (py_eqb (type k) _ && _) eqn:Ec; [|reflexivity].
  apply andb_prop in Ec as [_ Ec]. apply andb_prop in Ec as [Ec _].
  unfold count_snapshots. simpl.
  destruct (value_eq_dec (id k) T) as [Ei|Ei]; [|reflexivity].
  rewrite Ei, E, py_eqb_refl in Ec. discriminate.
Qed.

(** Exactly one snapshot of a table one of whose cells is dispatched. *)
Lemma one_snapshot_of_table :
  forall l p,
    py_eqb table_strategy (VStr "snapshot") = true ->
    StronglySorted key_lt (map fst l) ->
    p <> T ->
    (exists k, In k (map fst l) /\ id k = T) ->
    (forall k, In k (map fst l) -> id k = T ->
               type k = VInt (type_value TABLE_ATTACHED_FILE)) ->
    count_snapshots T (expected_events table_strategy p l) = 1%nat.
Proof.
  induction l as [|[k fh] l IH]; intros p Hts Hs Hp (k0 & Hk0 & Ek0) Hty; simpl;
    [destruct Hk0|].
  simpl in Hs. apply StronglySorted_inv in Hs as [Hs' Hk].
  rewrite List.Forall_forall in Hk.
  rewrite count_snapshots_app.
  change (Submit k fh :: expected_events table_strategy (id k) l)
    with ([Submit k fh] ++ expected_events table_strategy (id k) l).
  rewrite count_snapshots_app.
  destruct (value_eq_dec (id k) T) as [Ei|Ei].
  - rewrite (Hty k (or_introl eq_refl) Ei), py_eqb_refl, Hts.
    rewrite py_eqb_neq by congruence. simpl.
    rewrite no_snapshot_after_first; auto.
    + unfold count_snapshots. simpl.
      destruct (value_eq_dec (id k) T); [reflexivity|contradiction].
    + intros k' Hk'. apply key_lt_id_le. now apply Hk.
  - rewrite IH; auto.
    + destruct (py_eqb (type k) _ && _); [|reflexivity].
      unfold count_snapshots. simpl.
      destruct (value_eq_dec (id k) T); [contradiction|reflexivity].
    + exists k0. split; [|exact Ek0].
      destruct Hk0 as [E|Hk0]; [simpl in E; congruence|exact Hk0].
    + intros k' Hk'. apply Hty. now right.
Qed.

(** Every submit of a table cell comes after a snapshot of its table. *)
Lemma snapshots_precede_expected :
  forall l p snapped,
    py_eqb table_strategy (VStr "snapshot") = true ->
    Forall is_payload (map fst l) ->
    (forall k k', In k (map fst l) -> In k' (map fst l) -> id k = id k' ->
       type k = VInt (type_value FILE) ->
       type k' <> VInt (type_value TABLE_ATTACHED_FILE)) ->
    (forall k, In k (map fst l) ->
       type k = VInt (type_value TABLE_ATTACHED_FILE) -> id k = p ->
       In p snapped) ->
    snapshots_precede snapped (expected_events table_strategy p l).
Proof.
  induction l as [|[k fh] l IH]; intros p snapped Hts Hpay Hone Hp; simpl;
    [exact I|].
  simpl in Hpay. apply Forall_cons_iff in Hpay as [Hk Hpay'].
  assert (Hnext : forall snapped',
            (type k = VInt (type_value TABLE_ATTACHED_FILE) -> In (id k) snapped') ->
            snapshots_precede snapped' (expected_events table_strategy (id k) l)).
  { intros snapped' Hin. apply IH; auto.
    - intros k1 k2 H1 H2. apply Hone; now right.
    - intros k' Hk' Hty' Ei. destruct Hk as [Hk|Hk]; [|now apply Hin].
      exfalso. apply (Hone k k'); simpl; auto. }
  destruct (py_eqb (type k) _ && _) eqn:E; simpl.
  - split; [intros _; now left|]. apply Hnext. intros _. now left.
  - assert (Hin : type k = VInt (type_value TABLE_ATTACHED_FILE) -> In (id k) snapped).
    { intros Hty. rewrite Hty, py_eqb_refl, Hts in E. simpl in E.
      rewrite andb_true_r in E. apply negb_false_iff in E.
      apply py_eqb_true in E. subst p. apply (Hp k); auto. now left. }
    split; [exact Hin|]. now apply Hnext.
Qed.

End Snapshots.

(** ** What a run of the scheduler dispatches *)

Lemma next_batch_indexed :
  forall k t r, In r (next_batch k t) ->
    c_status r = VInt (status_value INDEXED).
Proof.
  intros k t r H. unfold next_batch in H. apply select_in in H as [_ H].
  now apply migrate_where_payload in H.
Qed.

(** The events of a run, whether it returned or raised. *)
Lemma run_scheduler_dispatched :
  forall fuel rt syn storage_location_id table_strategy continue_on_error w,
    sched_raised w
      (fst (run_scheduler fuel rt syn storage_location_id table_strategy
              continue_on_error w)).
Proof.
  intros. pose proof (run_scheduler_inv rt syn storage_location_id table_strategy
                        continue_on_error w fuel) as H.
  destruct (run_scheduler fuel rt syn storage_location_id table_strategy
              continue_on_error w) as [w' [e|st]]; simpl.
  - exact H.
  - destruct H as (ev & H & _).
    exact (sched_inv_raised rt table_strategy w st w' ev H).
Qed.

(** C1 (as amended). A run of the scheduler dispatches only rows whose
    status was INDEXED when it started: the query of every iteration
    selects [status = INDEXED], so a row that is ERRORED (or MIGRATED, or
    ALREADY_MIGRATED) in the checkpoint is never selected again by a
    re-run against the same file. *)
Theorem scheduler_dispatches_indexed_only :
  forall fuel rt syn storage_location_id table_strategy continue_on_error w,
    (forall k t r, In r (next_batch k t) ->
       c_status r = VInt (status_value INDEXED)) /\
    exists ev,
      calls (fst (run_scheduler fuel rt syn storage_location_id table_strategy
                    continue_on_error w)) = calls w ++ ev /\
      Forall (fun k => exists r, In r (rows (conn w)) /\ row_key r = k /\
                         c_status r = VInt (status_value INDEXED))
             (dispatched ev).
Proof.
  intros. split; [apply next_batch_indexed|].
  destruct (run_scheduler_dispatched fuel rt syn storage_location_id table_strategy
              continue_on_error w) as (ev & Hc & _ & Hi).
  exists ev. split; [exact Hc|].
  eapply List.Forall_impl; [|exact Hi].
  intros k (r & Hr & Hk & Hs & _). eauto.
Qed.

Lemma sorted_contiguous :
  forall l before k1 middle k2 after,
    StronglySorted key_lt l ->
    l = before ++ k1 :: middle ++ k2 :: after ->
    id k1 = id k2 ->
    forall k, In k middle -> id k = id k1.
Proof.
  intros l before k1 middle k2 after Hs -> Hid k Hk.
  apply StronglySorted_app_inv in Hs as (_ & Hs & _).
  apply StronglySorted_inv in Hs as [Hs H1].
  rewrite List.Forall_forall in H1.
  apply StronglySorted_app_inv in Hs as (_ & _ & H2).
  assert (L1 : key_lt k1 k) by (apply H1; apply in_or_app; now left).
  assert (L2 : key_lt k k2) by (apply H2; [exact Hk|now left]).
  apply key_lt_id_le in L1, L2. rewrite <- Hid in L2.
  symmetry. now apply value_compare_le_antisym.
Qed.

(** C2. In one run the dispatched keys are strictly ascending in the
    order of (id, type, row_id, col_id, version), in which None is below
    every value; that order is a strict total order on keys; hence the
    dispatched rows of one entity id are contiguous. The checkpoint is
    taken as the indexer leaves it. *)
Theorem dispatch_strictly_ascending :
  forall fuel rt syn storage_location_id table_strategy continue_on_error w,
    well_formed (rows (conn w)) ->
    exists ev,
      calls (fst (run_scheduler fuel rt syn storage_location_id table_strategy
                    continue_on_error w)) = calls w ++ ev /\
      StronglySorted key_lt (dispatched ev) /\
      (forall a, a <> VNone -> value_compare VNone a = Lt) /\
      (forall a b, key_lt a b \/ a = b \/ key_lt b a) /\
      (forall a, ~ key_lt a a) /\
      (forall a b c, key_lt a b -> key_lt b c -> key_lt a c) /\
      (forall before k1 middle k2 after,
         dispatched ev = before ++ k1 :: middle ++ k2 :: after ->
         id k1 = id k2 -> forall k, In k middle -> id k = id k1).
Proof.
  intros fuel rt syn storage_location_id table_strategy continue_on_error w Hwf.
  destruct (run_scheduler_dispatched fuel rt syn storage_location_id table_strategy
              continue_on_error w) as (ev & Hc & Hs & _).
  exists ev. split; [exact Hc|]. split; [exact (Hs Hwf)|].
  split; [exact none_lt|]. split; [exact key_lt_total|].
  split; [exact key_lt_irrefl|]. split; [exact key_lt_trans|].
  intros before k1 middle k2 after E. eapply sorted_contiguous; eauto.
Qed.


(** ** The status the indexer writes *)

Lemma extends_indexed_refl : forall t, extends_indexed t t.
Proof. intros t. exists []. split; [now rewrite app_nil_r|constructor]. Qed.

Lemma extends_indexed_trans :
  forall t1 t2 t3, extends_indexed t1 t2 -> extends_indexed t2 t3 ->
                   extends_indexed t1 t3.
Proof.
  intros t1 t2 t3 (a & -> & Ha) (b & -> & Hb). exists (a ++ b). split.
  - now rewrite app_assoc.
  - apply Forall_app. auto.
Qed.

Lemma executemany_insert_indexed :
  forall cols seq t, Forall (params_indexed cols) seq ->
    extends_indexed t (fst (executemany_insert cols seq t)).
Proof.
  intros cols seq. induction seq as [|params seq IH]; intros t H; simpl.
  - apply extends_indexed_refl.
  - apply Forall_cons_iff in H as [Hp Hseq]. unfold execute_insert.
    destruct (bind_row cols params) as [e|r] eqn:Eb; simpl;
      [apply extends_indexed_refl|].
    unfold insert_row.
    destruct (negb (not_null_ok r)); simpl; [apply extends_indexed_refl|].
    destruct (existsb (pk_conflict r) t); simpl; [apply extends_indexed_refl|].
    eapply extends_indexed_trans; [|apply IH; exact Hseq].
    exists [r]. split; [reflexivity|]. constructor; [now apply Hp|constructor].
Qed.

Lemma executemany_indexed :
  forall cols seq w, Forall (params_indexed cols) seq ->
    extends_indexed (rows (conn w)) (rows (conn (fst (executemany cols seq w)))).
Proof.
  intros cols seq w H. unfold executemany, on_rows.
  pose proof (executemany_insert_indexed cols seq (rows (conn w)) H) as He.
  destruct (executemany_insert cols seq (rows (conn w))) as [t' [e|]]; exact He.
Qed.

Lemma on_calls_conn :
  forall A (m : M (list Call) A) w, conn (fst (on_calls m w)) = conn w.
Proof.
  intros A m w. unfold on_calls. destruct (m (calls w)). reflexivity.
Qed.

Lemma file_params_indexed :
  forall a b c d e f,
    params_indexed file_insert_columns
      [a; b; c; d; e; f; VInt (status_value INDEXED)].
Proof. intros a b c d e f r H. injection H as <-. reflexivity. Qed.

Lemma table_params_indexed :
  forall a b c d e f g h,
    params_indexed table_insert_columns
      [a; b; c; d; e; f; g; h; VInt (status_value INDEXED)].
Proof. intros a b c d e f g h r H. injection H as <-. reflexivity. Qed.

Lemma latest_params_indexed :
  forall a b c d e f g h,
    params_indexed file_insert_columns [a; b; c; d; e; f; g; h].
Proof. intros a b c d e f g h r H. discriminate H. Qed.

Lemma all_versions_indexed :
  forall syn entity_id parent_id versions w,
    match mapM (fun version =>
              entity <- on_calls (get syn entity_id version) ;;
              ret [entity_id; VInt (type_value FILE); version; parent_id;
                   storageLocationId entity; dataFileHandleId entity;
                   VInt (status_value INDEXED)]) versions w with
    | (w', inr l) => conn w' = conn w /\
                     Forall (params_indexed file_insert_columns) l
    | (w', inl _) => conn w' = conn w
    end.
Proof.
  intros syn entity_id parent_id versions.
  induction versions as [|v versions IH]; intros w; simpl.
  - split; [reflexivity|constructor].
  - unfold bind at 1. unfold bind at 1.
    pose proof (on_calls_conn _ (get syn entity_id v) w) as Hc.
    destruct (on_calls (get syn entity_id v) w) as [w1 [e|entity]]; simpl in *.
    + exact Hc.
    + specialize (IH w1). unfold bind at 1.
      destruct (mapM _ versions w1) as [w2 [e|l]]; simpl in *.
      * congruence.
      * destruct IH as [IH1 IH2]. split; [congruence|].
        constructor; [apply file_params_indexed|exact IH2].
Qed.

Lemma index_file_entity_indexed :
  forall syn entity parent_id file_version_strategy w,
    extends_indexed (rows (conn w))
      (rows (conn (fst (_index_file_entity syn entity parent_id
                          file_version_strategy w)))).
Proof.
  intros syn entity parent_id fvs w. unfold _index_file_entity.
  set (insert_values := if py_eqb fvs (VStr "new") then _ else _).
  assert (H : match insert_values w with
              | (w', inr l) => conn w' = conn w /\
                               Forall (params_indexed file_insert_columns) l
              | (w', inl _) => conn w' = conn w
              end).
  { subst insert_values.
    destruct (py_eqb fvs (VStr "new")); [|destruct (py_eqb fvs (VStr "all"));
      [|destruct (py_eqb fvs (VStr "latest"))]].
    - unfold bind.
      pose proof (on_calls_conn _ (get syn (id_of entity) VNone) w) as Hc.
      destruct (on_calls (get syn (id_of entity) VNone) w) as [w1 [e|en]];
        simpl in *; [exact Hc|]. split; [exact Hc|].
      constructor; [apply file_params_indexed|constructor].
    - unfold bind at 1.
      pose proof (on_calls_conn _ (_get_version_numbers syn (id_of entity)) w) as Hc.
      destruct (on_calls (_get_version_numbers syn (id_of entity)) w)
        as [w1 [e|versions]]; simpl in *; [exact Hc|].
      pose proof (all_versions_indexed syn (id_of entity) parent_id versions w1) as Hv.
      destruct (mapM _ versions w1) as [w2 [e|l]].
      + congruence.
      + destruct Hv as [H1 H2]. split; [congruence|exact H2].
    - unfold bind.
      pose proof (on_calls_conn _ (get syn (id_of entity) VNone) w) as Hc.
      destruct (on_calls (get syn (id_of entity) VNone) w) as [w1 [e|en]];
        simpl in *; [exact Hc|]. split; [exact Hc|].
      constructor; [apply latest_params_indexed|constructor].
    - simpl. split; [reflexivity|constructor]. }
  unfold bind at 1.
  destruct (insert_values w) as [w1 [e|l]].
  - simpl. rewrite H. apply extends_indexed_refl.
  - destruct H as [Hc Hl]. unfold bind. destruct l as [|params l].
    + simpl. rewrite Hc. apply extends_indexed_refl.
    + pose proof (executemany_indexed file_insert_columns (params :: l) w1 Hl) as He.
      rewrite Hc in He.
      destruct (executemany file_insert_columns (params :: l) w1) as [w2 [e|[]]];
        exact He.
Qed.

Lemma index_cells_indexed :
  forall entity_id parent_id row_id row_version items row_batch total w,
    Forall (params_indexed table_insert_columns) row_batch ->
    match index_cells entity_id parent_id row_id row_version items
            row_batch total w with
    | (w', inr st) =>
        extends_indexed (rows (conn w)) (rows (conn w')) /\
        Forall (params_indexed table_insert_columns) (fst st)
    | (w', inl _) => extends_indexed (rows (conn w)) (rows (conn w'))
    end.
Proof.
  intros entity_id parent_id row_id row_version items.
  induction items as [|[col_id file_handle] items IH]; intros row_batch total w Hb;
    cbn [index_cells].
  - split; [apply extends_indexed_refl|exact Hb].
  - set (row_batch' := row_batch ++ [_]).
    assert (Hb' : Forall (params_indexed table_insert_columns) row_batch').
    { apply Forall_app. split; [exact Hb|].
      constructor; [apply table_params_indexed|constructor]. }
    destruct (List.length row_batch' mod _get_batch_size =? 0)%nat.
    + unfold bind.
      pose proof (executemany_indexed table_insert_columns row_batch' w Hb') as He.
      destruct (executemany table_insert_columns row_batch' w) as [w1 [e|[]]];
        simpl in He; [exact He|].
      specialize (IH [] (total + Z.of_nat (List.length row_batch')) w1
                     (List.Forall_nil _)).
      destruct (index_cells entity_id parent_id row_id row_version items [] _ w1)
        as [w2 [e|st]].
      * eapply extends_indexed_trans; eassumption.
      * destruct IH as [IH1 IH2]. split; [|exact IH2].
        eapply extends_indexed_trans; eassumption.
    + exact (IH row_batch' total w Hb').
Qed.

Lemma index_table_rows_indexed :
  forall syn entity_id parent_id columns results row_batch total w,
    Forall (params_indexed table_insert_columns) row_batch ->
    match index_table_rows syn entity_id parent_id columns results
            row_batch total w with
    | (w', inr st) =>
        extends_indexed (rows (conn w)) (rows (conn w')) /\
        Forall (params_indexed table_insert_columns) (fst st)
    | (w', inl _) => extends_indexed (rows (conn w)) (rows (conn w'))
    end.
Proof.
  intros syn entity_id parent_id columns results.
  induction results as [|row results IH]; intros row_batch total w Hb; simpl.
  - split; [apply extends_indexed_refl|exact Hb].
  - destruct row as [|row_id [|row_version file_handle_ids]];
      try (simpl; apply extends_indexed_refl).
    unfold bind at 1.
    pose proof (on_calls_conn _ (row_file_handles syn entity_id columns
                                   file_handle_ids []) w) as Hc.
    destruct (on_calls (row_file_handles syn entity_id columns file_handle_ids []) w)
      as [w1 [e|file_handles]]; simpl in Hc.
    + rewrite Hc. apply extends_indexed_refl.
    + unfold bind at 1.
      pose proof (index_cells_indexed entity_id parent_id row_id row_version
                    file_handles row_batch total w1 Hb) as Hcells.
      rewrite Hc in Hcells.
      destruct (index_cells entity_id parent_id row_id row_version file_handles
                  row_batch total w1) as [w2 [e|st]]; [exact Hcells|].
      destruct Hcells as [H1 H2]. specialize (IH (fst st) (snd st) w2 H2).
      destruct (index_table_rows syn entity_id parent_id columns results
                  (fst st) (snd st) w2) as [w3 [e|st3]].
      * eapply extends_indexed_trans; eassumption.
      * destruct IH as [IH1 IH2]. split; [|exact IH2].
        eapply extends_indexed_trans; eassumption.
Qed.

Lemma index_table_entity_indexed :
  forall syn entity parent_id create_table_snapshot w,
    extends_indexed (rows (conn w))
      (rows (conn (fst (_index_table_entity syn entity parent_id
                          create_table_snapshot w)))).
Proof.
  intros syn entity parent_id cts w. unfold _index_table_entity.
  unfold bind at 1.
  match goal with
  | |- context [on_calls ?m w] =>
      pose proof (on_calls_conn _ m w) as Hc;
      destruct (on_calls m w) as [w1 [e|columns]]; simpl in Hc
  end.
  { simpl. rewrite Hc. apply extends_indexed_refl. }
  unfold bind at 1.
  match goal with
  | |- context [on_calls ?m w1] =>
      pose proof (on_calls_conn _ m w1) as Hc1;
      destruct (on_calls m w1) as [w2 [e|results]]; simpl in Hc1
  end.
  { simpl. rewrite Hc1, Hc. apply extends_indexed_refl. }
  unfold bind at 1.
  match goal with
  | |- context [index_table_rows ?a ?b ?c ?d ?e [] 0 w2] =>
      pose proof (index_table_rows_indexed a b c d e [] 0 w2 (List.Forall_nil _)) as Hr;
      destruct (index_table_rows a b c d e [] 0 w2) as [w3 [e'|st]]
  end.
  { simpl. rewrite Hc1, Hc in Hr. exact Hr. }
  destruct Hr as [H1 H2]. rewrite Hc1, Hc in H1.
  destruct (fst st) as [|params row_batch] eqn:Eb.
  - simpl. exact H1.
  - unfold bind.
    pose proof (executemany_indexed table_insert_columns (params :: row_batch) w3 H2)
      as He.
    destruct (executemany table_insert_columns (params :: row_batch) w3)
      as [w4 [e'|[]]]; simpl in *; eapply extends_indexed_trans; eassumption.
Qed.

Lemma migrate_where_ignores_storage_location :
  forall key_id version' row_id' col_id' r storage_location,
    migrate_where key_id version' row_id' col_id'
      (set_col Col_from_storage_location_id storage_location r)
    = migrate_where key_id version' row_id' col_id' r.
Proof. reflexivity. Qed.

(** C8 (as amended). The indexer never compares a storage location with
    the target and never writes ALREADY_MIGRATED: every row that indexing
    a file entity or a table entity adds to the checkpoint has status
    INDEXED, whatever its from_storage_location_id, and the query of the
    scheduler does not read that column, so such a row is dispatched and
    copied like any other. *)
Theorem indexer_writes_indexed_status :
  (forall syn entity parent_id file_version_strategy w,
     extends_indexed (rows (conn w))
       (rows (conn (fst (_index_file_entity syn entity parent_id
                           file_version_strategy w))))) /\
  (forall syn entity parent_id table_strategy w,
     extends_indexed (rows (conn w))
       (rows (conn (fst (_index_table_entity syn entity parent_id
                           table_strategy w))))) /\
  (forall key_id version' row_id' col_id' r storage_location,
     migrate_where key_id version' row_id' col_id'
       (set_col Col_from_storage_location_id storage_location r)
     = migrate_where key_id version' row_id' col_id' r).
Proof.
  split; [exact index_file_entity_indexed|].
  split; [exact index_table_entity_indexed|].
  exact migrate_where_ignores_storage_location.
Qed.

(* ===================================================================== *)
(** ** The properties on the small deployment                             *)
(* ===================================================================== *)

(** Case analysis on the membership of a row in a concrete checkpoint. *)
Ltac in_cases H :=
  vm_compute in H; repeat (destruct H as [<- | H]); try contradiction.

(** The example checkpoint is as the indexer leaves a checkpoint. *)
Lemma example_checkpoint_well_formed : well_formed example_checkpoint.
Proof.
  constructor.
  - unfold example_checkpoint. simpl.
    repeat (constructor; [simpl; intuition discriminate|]). constructor.
  - intros r Hin. in_cases Hin; simpl; intros; (auto || discriminate).
  - intros r r' Hin Hin'. in_cases Hin; in_cases Hin'; simpl; intros; discriminate.
  - intros r Hin.
    in_cases Hin; simpl; intros; try discriminate; eexists; (split; [reflexivity|discriminate]).
Qed.

(** The example pool returns futures it was given. *)
Lemma example_wait_sound : wait_sound prompt_rt.
Proof.
  intros log return_when fs. destruct return_when; simpl.
  - split; intros x Hx; destruct fs as [|f fs]; simpl in *; tauto.
  - split; intros x Hx; [exact Hx|destruct Hx].
Qed.

Lemma returned_sched :
  forall r : Exn + Sched,
    match r with inr _ => true | inl _ => false end = true ->
    exists st, r = inr st.
Proof.
  intros [e|st] Hr; [discriminate Hr|].
  exists st. reflexivity.
Qed.

(** The run over the example checkpoint returns, with five migrations
    counted. *)
Lemma example_run_returns :
  exists st,
    snd (run_scheduler 10 prompt_rt example_syn (VInt 9) (VStr "snapshot") true
           (open_db example_checkpoint)) = inr st /\
    migrated_total st = 5.
Proof.
  assert (Hr : match snd (run_scheduler 10 prompt_rt example_syn (VInt 9)
                            (VStr "snapshot") true (open_db example_checkpoint))
               with inr _ => true | inl _ => false end = true)
    by (vm_compute; reflexivity).
  destruct (returned_sched
              (snd (run_scheduler 10 prompt_rt example_syn (VInt 9)
                      (VStr "snapshot") true (open_db example_checkpoint))) Hr)
    as [st E].
  exists st. split; [exact E|].
  assert (H5 : match snd (run_scheduler 10 prompt_rt example_syn (VInt 9)
                            (VStr "snapshot") true (open_db example_checkpoint))
               with inr s => migrated_total s | inl _ => 0 end = 5)
    by (vm_compute; reflexivity).
  rewrite E in H5. exact H5.
Qed.

(** C2 on the example checkpoint: the five keys are dispatched in strictly
    ascending order. *)
Lemma dispatch_strictly_ascending_example :
  StronglySorted key_lt (dispatched (calls (fst example_run))).
Proof.
  destruct (dispatch_strictly_ascending 10 prompt_rt example_syn (VInt 9) (VStr "snapshot")
              true (open_db example_checkpoint) example_checkpoint_well_formed)
    as (ev & Hc & Hs & _).
  unfold example_run. rewrite Hc. exact Hs.
Defined.



(** C1 as stated fails: [migrate] run again on a checkpoint whose only row
    is ERRORED finds the entity indexed, selects no row, submits nothing
    and leaves the row ERRORED. *)
Lemma errored_row_not_retried :
  next_batch initial_key errored_checkpoint = [] /\
  dispatched (calls (fst errored_rerun)) = [] /\
  rows (conn (fst errored_rerun)) = errored_checkpoint /\
  snd errored_rerun = inr (mkMigrationResult 0 0 0).
Proof. vm_compute. repeat split. Qed.



(** C7 on a task whose copy fails: the row is ERRORED with the traceback,
    in the committed rows too, and the HTTP error of the copy is what is
    raised. *)
Lemma wait_futures_raises_cause_example :
  _wait_futures prompt_rt example_syn [_migrate_file_version]
    [mkFuture (row_key (file_row "syn1" (VInt 1) "666" INDEXED)) (VStr "666") (VInt 9) 0]
    ALL_COMPLETED false (open_db failing_checkpoint)
  = (mkWorld
       (mkConn [mkRow (VStr "syn1") (VInt 3) (VInt 1) VNone VNone VNone (VInt 4)
                      (VStr "Traceback (most recent call last)") (VInt 7) (VStr "666") VNone]
               [mkRow (VStr "syn1") (VInt 3) (VInt 1) VNone VNone VNone (VInt 4)
                      (VStr "Traceback (most recent call last)") (VInt 7) (VStr "666") VNone])
       [MultipartCopy (mkAssociation (VStr "666") (VStr "syn1") "FileEntity") (VInt 9)],
     inl (SynapseHTTPError "503 Service Unavailable")).
Proof.
  edestruct (wait_futures_raises_cause prompt_rt example_syn [_migrate_file_version]
               (open_db failing_checkpoint)
               [mkFuture (row_key (file_row "syn1" (VInt 1) "666" INDEXED)) (VStr "666") (VInt 9) 0]
               ALL_COMPLETED []
               (mkFuture (row_key (file_row "syn1" (VInt 1) "666" INDEXED)) (VStr "666") (VInt 9) 0)
               [] [])
    as (t & Ht & Hw & _).
  - reflexivity.
  - reflexivity.
  - vm_compute. reflexivity.
  - rewrite Hw, Ht. reflexivity.
Defined.

(** C8 as stated fails: a file that already lives in the target storage
    location 7 is indexed as INDEXED (the dry run), and a full run copies
    its file handle to the storage location 7 and marks the row MIGRATED;
    ALREADY_MIGRATED is not written. *)
Lemma same_location_row_is_copied :
  map c_status (rows (conn (fst same_location_dry_run))) = [VInt (status_value INDEXED)] /\
  map c_from_storage_location_id (rows (conn (fst same_location_dry_run))) = [VInt 7] /\
  In (MultipartCopy (mkAssociation (VStr "100") (VStr "syn1") "FileEntity") (VInt 7))
     (calls (fst same_location_run)) /\
  map c_status (rows (conn (fst same_location_run))) = [VInt (status_value MIGRATED)] /\
  snd same_location_run = inr (mkMigrationResult 1 1 0).
Proof. vm_compute. intuition. Qed.

(** C9. The task of a FILE row with version 1 that starts after the
    dispatch loop has bound [migration_fn] for the table cell that follows
    runs [_migrate_table_attached_file] on the file's key: it copies under
    the association type TableEntity, then PartialRow refuses the row id
    None of the file's key with a TypeError. No PUT to
    /entity/syn1/version/1/filehandle is made and nothing is stored for
    syn1; the row of the file, whose handle was copied, is marked ERRORED
    with no target file handle, and one migration and one error are
    counted. With prompt workers the same checkpoint gives the copy and
    the PUT, and both rows are MIGRATED. *)
Theorem late_bound_migration_fn :
  calls (fst late_run)
  = [Submit (mkKey (VStr "syn1") (VInt 3) (VInt 1) VNone VNone) (VStr "100");
     CreateSnapshotVersion (VStr "syn2");
     Submit (mkKey (VStr "syn2") (VInt 4) (VInt 3) (VInt 1) (VInt 10)) (VStr "200");
     MultipartCopy (mkAssociation (VStr "100") (VStr "syn1") "TableEntity") (VInt 9);
     MultipartCopy (mkAssociation (VStr "200") (VStr "syn2") "TableEntity") (VInt 9);
     StoreCall (StorePartialRowset (VStr "syn2") (VInt 1) "10" (VStr "904"))] /\
  _migrate_table_attached_file example_syn
    (mkKey (VStr "syn1") (VInt 3) (VInt 1) VNone VNone) (VStr "100") (VInt 9) []
  = ([MultipartCopy (mkAssociation (VStr "100") (VStr "syn1") "TableEntity") (VInt 9)],
     inl (TypeError "int() argument must be a string or a number")) /\
  map c_status (rows (conn (fst late_run)))
  = [VInt (status_value ERRORED); VInt (status_value MIGRATED)] /\
  map c_to_file_handle_id (rows (conn (fst late_run))) = [VNone; VStr "904"] /\
  match snd late_run with
  | inr st => migrated_total st = 1 /\ error_total st = 1
  | inl _ => False
  end /\
  calls (fst prompt_run)
  = [Submit (mkKey (VStr "syn1") (VInt 3) (VInt 1) VNone VNone) (VStr "100");
     CreateSnapshotVersion (VStr "syn2");
     Submit (mkKey (VStr "syn2") (VInt 4) (VInt 3) (VInt 1) (VInt 10)) (VStr "200");
     MultipartCopy (mkAssociation (VStr "100") (VStr "syn1") "FileEntity") (VInt 9);
     RestPUT "/entity/syn1/version/1/filehandle"
             [("oldFileHandleId", VStr "100"); ("newFileHandleId", VStr "903")];
     MultipartCopy (mkAssociation (VStr "200") (VStr "syn2") "TableEntity") (VInt 9);
     StoreCall (StorePartialRowset (VStr "syn2") (VInt 1) "10" (VStr "905"))] /\
  map c_status (rows (conn (fst prompt_run)))
  = [VInt (status_value MIGRATED); VInt (status_value MIGRATED)].
Proof. vm_compute. repeat split. Qed.

(** C10 on the example checkpoint: the first record has no
    'to_file_handle_id' entry, and its 'from_file_handle_id', stored as
    the text '100', is the integer 100. *)
Lemma get_migrations_records_example :
  exists d row,
    In d (fst (get_migrations 10 example_syn (conn (open_db example_checkpoint)))) /\
    d !! "to_file_handle_id" = None /\
    d !! "from_file_handle_id" = Some (VInt 100) /\
    In row example_checkpoint /\ record_of_row row d.
Proof.
  pose (d := hd ∅ (fst (get_migrations 10 example_syn (conn (open_db example_checkpoint))))).
  assert (Hin : In d (fst (get_migrations 10 example_syn (conn (open_db example_checkpoint)))))
    by (vm_compute; left; reflexivity).
  destruct (get_migrations_records 10 example_syn (conn (open_db example_checkpoint)) d Hin)
    as (row & Hrow & _ & Hrec).
  exists d, row. split; [exact Hin|]. split; [vm_compute; reflexivity|].
  split; [vm_compute; reflexivity|]. split; [exact Hrow|exact Hrec].
Defined.

(* ===================================================================== *)
(** * Further properties                                                  *)
(* ===================================================================== *)

(** ** Validation and the check of the destination *)

Lemma py_in_In : forall v l, py_in v l = true <-> In v l.
Proof.
  intros v l. unfold py_in. rewrite existsb_exists. split.
  - intros (x & Hx & He). unfold py_eqb in He. apply bool_decide_eq_true in He.
    now subst.
  - intros H. exists v. split; [exact H|]. now apply py_eqb_refl.
Qed.

(** X1. [migrate] validates its strategies before anything else: when
    the validation fails it raises a ValueError, having made no remote
    call and left the checkpoint as it was. Both strategies None is such
    a failure, and so is a file_version_strategy that is none of 'new',
    'all', 'latest' and None. *)
Theorem migrate_validates_first :
  (forall fuel rt syn entity storage_location_id dry_run file_version_strategy
          table_strategy continue_on_error w e,
     check_strategies file_version_strategy table_strategy = inl e ->
     migrate fuel rt syn entity storage_location_id dry_run file_version_strategy
             table_strategy continue_on_error w = (w, inl e) /\
     exists msg, e = ValueError msg) /\
  (exists msg, check_strategies VNone VNone = inl (ValueError msg)) /\
  (forall file_version_strategy table_strategy,
     ~ In file_version_strategy [VStr "new"; VStr "all"; VStr "latest"; VNone] ->
     exists msg,
       check_strategies file_version_strategy table_strategy = inl (ValueError msg)).
Proof.
  split; [|split].
  - intros fuel rt syn entity storage_location_id dry_run fvs ts coe w e H.
    split.
    + unfold migrate, check, bind. rewrite H. reflexivity.
    + unfold check_strategies in H.
      destruct (is_none fvs && is_none ts); [injection H as <-; eauto|].
      destruct (negb (py_in fvs _)); [injection H as <-; eauto|].
      destruct (negb (py_in ts _)); [injection H as <-; eauto|discriminate].
  - eexists. reflexivity.
  - intros fvs ts Hn. unfold check_strategies.
    destruct (is_none fvs && is_none ts); [eauto|].
    destruct (py_in fvs [VStr "new"; VStr "all"; VStr "latest"; VNone]) eqn:E.
    + apply py_in_In in E. contradiction.
    + cbn [negb]. eauto.
Qed.

Lemma index_entity_step :
  forall fuel syn entity parent_id file_version_strategy table_strategy continue_on_error,
    _index_entity (S fuel) syn entity parent_id file_version_strategy table_strategy
                  continue_on_error
    = try_except
        (indexed <- _check_indexed (id_of entity) ;;
         total <- (if negb indexed then
                     match concrete_type_of entity with
                     | FILE_ENTITY =>
                         _index_file_entity syn entity parent_id file_version_strategy
                     | TABLE_ENTITY =>
                         _index_table_entity syn entity parent_id table_strategy
                     | FOLDER_ENTITY | PROJECT_ENTITY =>
                         _index_container
                           (fun child p => _index_entity fuel syn child p
                                             file_version_strategy table_strategy
                                             continue_on_error)
                           syn entity parent_id file_version_strategy table_strategy
                     | OTHER_ENTITY _ =>
                         raise (OtherError "UnboundLocalError: count")
                     end
                   else ret 0) ;;
         conn_commit ;;;
         ret total)
        (fun ex => if continue_on_error then ret 0 else raise ex).
Proof. reflexivity. Qed.

(** X2. After the validation [migrate] asks for the destination storage
    location, once, before it opens the checkpoint: when that request
    fails, [migrate] raises with the checkpoint untouched; a
    SynapseHTTPError is turned into the ValueError that names the storage
    location, any other exception is raised as it is. *)
Theorem migrate_verifies_storage_location :
  forall fuel rt syn entity storage_location_id dry_run file_version_strategy
         table_strategy continue_on_error w e,
    check_strategies file_version_strategy table_strategy = inr tt ->
    syn_storage_location syn (calls w) storage_location_id = inl e ->
    migrate fuel rt syn entity storage_location_id dry_run file_version_strategy
            table_strategy continue_on_error w
    = (mkWorld (conn w)
         (calls w ++ [RestGET (String.append "/storageLocation/"
                                             (py_str storage_location_id))]),
       inl (match e with
            | SynapseHTTPError _ =>
                ValueError (String.concat ""
                  ["Error verifying storage location ownership of ";
                   py_str storage_location_id;
                   ". You must be creator of the destination storage location"])
            | _ => e
            end)).
Proof.
  intros fuel rt syn entity sl dry_run fvs ts coe w e Hv He.
  unfold migrate, check. unfold bind at 1. rewrite Hv.
  unfold bind at 1. unfold on_calls, _verify_storage_location_ownership, remote.
  rewrite He. destruct e; reflexivity.
Qed.

Lemma check_indexed_found :
  forall entity_id t r s,
    In r t -> c_id r = entity_id -> entity_id <> VNone ->
    c_status r = VInt s -> 1 <= s ->
    existsb (check_indexed_where entity_id) t = true.
Proof.
  intros entity_id t r s Hin Hid Hn Hs Hle.
  apply existsb_exists. exists r. split; [exact Hin|].
  unfold check_indexed_where, sql_eq, sql_ge. rewrite Hid, Hs, py_eqb_refl.
  destruct entity_id; [congruence| |]; simpl;
    destruct (Z.compare_spec s 1); try reflexivity; lia.
Qed.

(** X3. Resumption: an entity that has a row in the checkpoint under its
    id, whatever the row's status, is not indexed again. [_index_entity]
    makes no call, writes no row, commits and returns 0. *)
Theorem index_entity_skips_indexed :
  forall fuel syn entity parent_id file_version_strategy table_strategy
         continue_on_error w r s,
    In r (rows (conn w)) -> c_id r = id_of entity -> id_of entity <> VNone ->
    c_status r = VInt s -> 1 <= s ->
    _index_entity (S fuel) syn entity parent_id file_version_strategy table_strategy
                  continue_on_error w
    = (mkWorld (commit (conn w)) (calls w), inr 0).
Proof.
  intros fuel syn entity parent_id fvs ts coe w r s Hin Hid Hn Hs Hle.
  rewrite index_entity_step. unfold try_except, bind, _check_indexed, query.
  rewrite (check_indexed_found (id_of entity) (rows (conn w)) r s Hin Hid Hn Hs Hle).
  reflexivity.
Qed.

(** ** Relations that indexing keeps *)

Lemma on_calls_bind :
  forall A B (m : M (list Call) A) (k : A -> M (list Call) B) w,
    on_calls (bind m k) w = bind (on_calls m) (fun a => on_calls (k a)) w.
Proof.
  intros A B m k w. unfold on_calls, bind.
  destruct (m (calls w)) as [log [e|a]]; reflexivity.
Qed.

Lemma reads_ret : forall A (a : A), reads (ret a).
Proof. intros A a log. exists []. split; [now rewrite app_nil_r|constructor]. Qed.

Lemma reads_raise : forall A e, reads (@raise _ A e).
Proof. intros A e log. exists []. split; [now rewrite app_nil_r|constructor]. Qed.

Lemma reads_remote :
  forall A c (answer : list Call -> Exn + A), is_read c = true -> reads (remote c answer).
Proof.
  intros A c answer Hc log. exists [c]. split; [reflexivity|].
  constructor; [exact Hc|constructor].
Qed.

Lemma reads_bind :
  forall A B (m : M (list Call) A) (k : A -> M (list Call) B),
    reads m -> (forall a, reads (k a)) -> reads (bind m k).
Proof.
  intros A B m k Hm Hk log. unfold bind.
  destruct (Hm log) as (evs & He & Hr).
  destruct (m log) as [log1 [e|a]]; simpl in He; subst log1.
  - exists evs. auto.
  - destruct (Hk a (log ++ evs)) as (evs' & He' & Hr').
    exists (evs ++ evs'). split.
    + rewrite He'. now rewrite app_assoc.
    + apply Forall_app. auto.
Qed.

Lemma reads_row_file_handles :
  forall syn table_id file_handle_ids file_handle_columns file_handles,
    reads (row_file_handles syn table_id file_handle_columns file_handle_ids file_handles).
Proof.
  intros syn table_id file_handle_ids.
  induction file_handle_ids as [|i ids IH]; intros cols fhs;
    destruct cols as [|c cols]; cbn [row_file_handles];
    try apply reads_ret; try apply reads_raise.
  - apply reads_bind; [now apply reads_remote|]. intros fh. apply IH.
Qed.

Section Preserves.

Variable P : World -> World -> Prop.
Hypothesis P_refl : forall w, P w w.
Hypothesis P_trans : forall a b c, P a b -> P b c -> P a c.
Hypothesis P_on_calls : forall A (m : M (list Call) A), reads m -> preserves P (on_calls m).
Hypothesis P_executemany : forall cols seq, preserves P (executemany cols seq).
Hypothesis P_execute : forall cols params, preserves P (execute cols params).
Hypothesis P_commit : preserves P conn_commit.

Lemma preserves_ret : forall A (a : A), preserves P (ret a).
Proof. intros A a w. apply P_refl. Qed.

Lemma preserves_raise : forall A e, preserves P (@raise _ A e).
Proof. intros A e w. apply P_refl. Qed.

Lemma preserves_query : forall A (f : list Row -> A), preserves P (query f).
Proof. intros A f w. apply P_refl. Qed.

Lemma preserves_bind :
  forall A B (m : M World A) (k : A -> M World B),
    preserves P m -> (forall a, preserves P (k a)) -> preserves P (bind m k).
Proof.
  intros A B m k Hm Hk w. unfold bind. specialize (Hm w).
  destruct (m w) as [w1 [e|a]]; simpl in *; [exact Hm|].
  eapply P_trans; [exact Hm|apply Hk].
Qed.

Lemma preserves_try_except :
  forall A (m : M World A) (h : Exn -> M World A),
    preserves P m -> (forall e, preserves P (h e)) -> preserves P (try_except m h).
Proof.
  intros A m h Hm Hh w. unfold try_except. specialize (Hm w).
  destruct (m w) as [w1 [e|a]]; simpl in *; [|exact Hm].
  eapply P_trans; [exact Hm|apply Hh].
Qed.

Lemma preserves_mapM :
  forall A B (f : A -> M World B) l,
    (forall a, preserves P (f a)) -> preserves P (mapM f l).
Proof.
  intros A B f l Hf. induction l as [|a l IH]; simpl.
  - apply preserves_ret.
  - apply preserves_bind; [apply Hf|]. intros b.
    apply preserves_bind; [exact IH|]. intros bs. apply preserves_ret.
Qed.

Lemma preserves_each_child :
  forall index_child children total,
    (forall child, preserves P (index_child child)) ->
    preserves P (each_child index_child children total).
Proof.
  intros index_child children. induction children as [|c cs IH]; intros total Hc; simpl.
  - apply preserves_ret.
  - apply preserves_bind; [apply Hc|]. intros count. now apply IH.
Qed.

Lemma preserves_get :
  forall syn entity_id version, preserves P (on_calls (get syn entity_id version)).
Proof. intros. apply P_on_calls. now apply reads_remote. Qed.

Lemma preserves_index_file_entity :
  forall syn entity parent_id file_version_strategy,
    preserves P (_index_file_entity syn entity parent_id file_version_strategy).
Proof.
  intros syn entity parent_id fvs. unfold _index_file_entity.
  apply preserves_bind.
  - destruct (py_eqb fvs (VStr "new")); [|destruct (py_eqb fvs (VStr "all"));
      [|destruct (py_eqb fvs (VStr "latest"))]].
    + apply preserves_bind; [apply preserves_get|]. intros e. apply preserves_ret.
    + apply preserves_bind.
      * apply P_on_calls. now apply reads_remote.
      * intros versions. apply preserves_mapM. intros v.
        apply preserves_bind; [apply preserves_get|]. intros e. apply preserves_ret.
    + apply preserves_bind; [apply preserves_get|]. intros e. apply preserves_ret.
    + apply preserves_ret.
  - intros insert_values. apply preserves_bind; [|intros; apply preserves_ret].
    destruct insert_values; [apply preserves_ret|apply P_executemany].
Qed.

Lemma preserves_index_cells :
  forall entity_id parent_id row_id row_version items row_batch total,
    preserves P (index_cells entity_id parent_id row_id row_version items row_batch total).
Proof.
  intros entity_id parent_id row_id row_version items.
  induction items as [|[col_id fh] items IH]; intros row_batch total.
  - apply preserves_ret.
  - cbn [index_cells].
    destruct (_ =? 0)%nat.
    + apply preserves_bind; [apply P_executemany|]. intros _. apply IH.
    + apply IH.
Qed.

Lemma preserves_index_table_rows :
  forall syn entity_id parent_id file_handle_columns results row_batch total,
    preserves P (index_table_rows syn entity_id parent_id file_handle_columns results
                                  row_batch total).
Proof.
  intros syn entity_id parent_id cols results.
  induction results as [|row results IH]; intros row_batch total; simpl.
  - apply preserves_ret.
  - destruct row as [|row_id [|row_version ids]]; try apply preserves_raise.
    apply preserves_bind.
    + apply P_on_calls. apply reads_row_file_handles.
    + intros fhs. apply preserves_bind; [apply preserves_index_cells|].
      intros st. apply IH.
Qed.

Lemma preserves_index_table_entity :
  forall syn entity parent_id create_table_snapshot,
    preserves P (_index_table_entity syn entity parent_id create_table_snapshot).
Proof.
  intros syn entity parent_id cts. unfold _index_table_entity.
  apply preserves_bind; [apply P_on_calls; now apply reads_remote|]. intros columns.
  apply preserves_bind; [apply P_on_calls; now apply reads_remote|]. intros results.
  apply preserves_bind; [apply preserves_index_table_rows|]. intros st.
  destruct (fst st); [apply preserves_ret|].
  apply preserves_bind; [apply P_executemany|]. intros _. apply preserves_ret.
Qed.

Lemma preserves_index_container :
  forall index_child syn container_entity parent_id file_version_strategy table_strategy,
    (forall child p, preserves P (index_child child p)) ->
    preserves P (_index_container index_child syn container_entity parent_id
                                  file_version_strategy table_strategy).
Proof.
  intros index_child syn e parent_id fvs ts Hc. unfold _index_container.
  apply preserves_bind; [apply P_on_calls; now apply reads_remote|]. intros children.
  apply preserves_bind; [apply preserves_each_child; intros; apply Hc|]. intros total.
  apply preserves_bind; [apply P_execute|]. intros _. apply preserves_ret.
Qed.

Lemma preserves_index_entity :
  forall fuel syn entity parent_id file_version_strategy table_strategy continue_on_error,
    preserves P (_index_entity fuel syn entity parent_id file_version_strategy
                               table_strategy continue_on_error).
Proof.
  induction fuel as [|fuel IH]; intros syn entity parent_id fvs ts coe.
  - apply preserves_raise.
  - rewrite index_entity_step. apply preserves_try_except.
    + apply preserves_bind; [apply preserves_query|]. intros indexed.
      apply preserves_bind.
      * destruct (negb indexed); [|apply preserves_ret].
        destruct (concrete_type_of entity).
        -- apply preserves_index_file_entity.
        -- apply preserves_index_table_entity.
        -- apply preserves_index_container. intros. apply IH.
        -- apply preserves_index_container. intros. apply IH.
        -- apply preserves_raise.
      * intros total. apply preserves_bind; [apply P_commit|]. intros _.
        apply preserves_ret.
    + intros e. destruct coe; [apply preserves_ret|apply preserves_raise].
Qed.

End Preserves.

(** *** Only reading calls *)

Lemma only_reads_refl : forall w, only_reads w w.
Proof. intros w. exists []. split; [now rewrite app_nil_r|constructor]. Qed.

Lemma only_reads_trans :
  forall a b c, only_reads a b -> only_reads b c -> only_reads a c.
Proof.
  intros a b c (e1 & H1 & R1) (e2 & H2 & R2). exists (e1 ++ e2). split.
  - rewrite H2, H1. now rewrite app_assoc.
  - apply Forall_app. auto.
Qed.

Lemma only_reads_on_calls :
  forall A (m : M (list Call) A), reads m -> preserves only_reads (on_calls m).
Proof.
  intros A m Hm w. unfold on_calls. destruct (Hm (calls w)) as (evs & He & Hr).
  destruct (m (calls w)) as [log r]. simpl in *. exists evs. auto.
Qed.

Lemma only_reads_same_calls :
  forall w w1 w2, only_reads w w1 -> calls w2 = calls w1 -> only_reads w w2.
Proof. intros w w1 w2 (evs & He & Hr) Hc. exists evs. rewrite Hc. auto. Qed.

Lemma only_reads_on_rows :
  forall A (f : list Row -> list Row * (Exn + A)), preserves only_reads (on_rows f).
Proof.
  intros A f w. unfold on_rows. destruct (f (rows (conn w))) as [t r].
  eapply only_reads_same_calls; [apply only_reads_refl|reflexivity].
Qed.

Lemma only_reads_index_entity :
  forall fuel syn entity parent_id file_version_strategy table_strategy continue_on_error,
    preserves only_reads
      (_index_entity fuel syn entity parent_id file_version_strategy table_strategy
                     continue_on_error).
Proof.
  apply (preserves_index_entity only_reads only_reads_refl only_reads_trans
           only_reads_on_calls).
  - intros. apply only_reads_on_rows.
  - intros. apply only_reads_on_rows.
  - intros w. eapply only_reads_same_calls; [apply only_reads_refl|reflexivity].
Qed.

Lemma reads_verify_storage_location_ownership :
  forall syn storage_location_id,
    reads (_verify_storage_location_ownership syn storage_location_id).
Proof.
  intros syn sl log. unfold _verify_storage_location_ownership, remote.
  exists [RestGET (String.append "/storageLocation/" (py_str sl))].
  split; [|repeat constructor].
  destruct (syn_storage_location syn log sl) as [[]|]; reflexivity.
Qed.

(** X4. A dry run changes nothing on the service: every call that
    [migrate] makes with dry_run = True is a read (get, getChildren, the
    paginated GET, restGET, tableQuery, _getFileHandleDownload); it
    submits no task and takes no snapshot. *)
Theorem dry_run_only_reads :
  forall fuel rt syn entity storage_location_id file_version_strategy table_strategy
         continue_on_error w,
    exists evs,
      calls (fst (migrate fuel rt syn entity storage_location_id true
                    file_version_strategy table_strategy continue_on_error w))
      = calls w ++ evs /\
      Forall (fun c => is_read c = true) evs /\
      submitted evs = [] /\ snapshot_calls evs = [].
Proof.
  intros fuel rt syn entity sl fvs ts coe w.
  assert (H : only_reads w (fst (migrate fuel rt syn entity sl true fvs ts coe w))).
  { revert w. change (preserves only_reads (migrate fuel rt syn entity sl true fvs ts coe)).
    unfold migrate.
    apply (preserves_bind only_reads only_reads_trans).
    { intros w. apply only_reads_refl. }
    intros _. apply (preserves_bind only_reads only_reads_trans).
    { apply only_reads_on_calls, reads_verify_storage_location_ownership. }
    intros _. apply (preserves_bind only_reads only_reads_trans).
    { intros w. apply only_reads_refl. }
    intros _ w. unfold with_connection.
    match goal with |- context [?m w] =>
      assert (Hm : preserves only_reads m); [|specialize (Hm w); destruct (m w) as [w' [e|r]]]
    end.
    - apply (preserves_bind only_reads only_reads_trans);
        [intros w1; eapply only_reads_same_calls;
           [apply only_reads_refl|reflexivity]|]. intros _.
      apply (preserves_bind only_reads only_reads_trans);
        [apply only_reads_on_calls; now apply reads_remote|]. intros e.
      apply (preserves_bind only_reads only_reads_trans);
        [intros w1; apply only_reads_refl|]. intros indexed.
      apply (preserves_bind only_reads only_reads_trans).
      + destruct (negb indexed); [apply only_reads_index_entity|].
        intros w1. apply only_reads_refl.
      + intros total w1. apply only_reads_refl.
    - eapply only_reads_same_calls; [exact Hm|reflexivity].
    - eapply only_reads_same_calls; [exact Hm|reflexivity]. }
  destruct H as (evs & He & Hr). exists evs. split; [exact He|]. split; [exact Hr|].
  clear He. induction Hr as [|c evs Hc _ [IH1 IH2]]; [auto|].
  destruct c; try discriminate; simpl; auto.
Qed.

(** *** Only appended rows *)

Lemma only_appends_refl : forall w, only_appends w w.
Proof. intros w. exists [], []. split; [now rewrite !app_nil_r|now left]. Qed.

Lemma only_appends_trans :
  forall a b c, only_appends a b -> only_appends b c -> only_appends a c.
Proof.
  intros w w1 w2 (a & b & Hr & Hc) (a' & b' & Hr' & Hc').
  destruct Hc' as [Hc'|Hc'].
  - destruct Hc as [Hc|Hc].
    + exists [], (a ++ b ++ a' ++ b'). split.
      * rewrite Hr', Hr. simpl. now rewrite <- !app_assoc.
      * left. congruence.
    + exists a, (b ++ a' ++ b'). split.
      * rewrite Hr', Hr. now rewrite <- !app_assoc.
      * right. congruence.
  - exists (a ++ b ++ a'), b'. split.
    + rewrite Hr', Hr. now rewrite <- !app_assoc.
    + right. rewrite Hc', Hr. now rewrite <- !app_assoc.
Qed.

Lemma only_appends_same_conn :
  forall w w', conn w' = conn w -> only_appends w w'.
Proof.
  intros w w' H. exists [], []. rewrite H. split; [now rewrite !app_nil_r|now left].
Qed.

Lemma only_appends_on_calls :
  forall A (m : M (list Call) A), reads m -> preserves only_appends (on_calls m).
Proof. intros A m _ w. apply only_appends_same_conn, on_calls_conn. Qed.

Lemma only_appends_executemany :
  forall cols seq, preserves only_appends (executemany cols seq).
Proof.
  intros cols seq w. unfold executemany, on_rows.
  destruct (executemany_insert_extends cols seq (rows (conn w))) as (added & Ha).
  destruct (executemany_insert cols seq (rows (conn w))) as [t' [e|]];
    simpl in *; exists [], added; (split; [exact Ha|now left]).
Qed.

Lemma only_appends_execute :
  forall cols params, preserves only_appends (execute cols params).
Proof.
  intros cols params w. unfold execute, on_rows, execute_insert.
  destruct (bind_row cols params) as [e|r]; simpl.
  - apply only_appends_same_conn. now destruct w as [[] ?].
  - unfold insert_row.
    destruct (negb (not_null_ok r)); simpl;
      [apply only_appends_same_conn; now destruct w as [[] ?]|].
    destruct (existsb (pk_conflict r) (rows (conn w))); simpl;
      [apply only_appends_same_conn; now destruct w as [[] ?]|].
    exists [], [r]. split; [reflexivity|now left].
Qed.

Lemma only_appends_commit : preserves only_appends conn_commit.
Proof.
  intros w. exists [], []. simpl. split; [now rewrite app_nil_r|].
  right. now rewrite app_nil_r.
Qed.

Lemma only_appends_index_entity :
  forall fuel syn entity parent_id file_version_strategy table_strategy continue_on_error,
    preserves only_appends
      (_index_entity fuel syn entity parent_id file_version_strategy table_strategy
                     continue_on_error).
Proof.
  exact (preserves_index_entity only_appends only_appends_refl only_appends_trans
           only_appends_on_calls only_appends_executemany only_appends_execute
           only_appends_commit).
Qed.

(** X5. A dry run only appends to the checkpoint: on a connection with
    nothing pending, the rows that were there are still there, unchanged
    and in place, when [migrate] with dry_run = True returns or raises,
    and what it leaves is committed. *)
Theorem dry_run_only_appends :
  forall fuel rt syn entity storage_location_id file_version_strategy table_strategy
         continue_on_error w,
    committed (conn w) = rows (conn w) ->
    exists added,
      rows (conn (fst (migrate fuel rt syn entity storage_location_id true
                         file_version_strategy table_strategy continue_on_error w)))
      = rows (conn w) ++ added /\
      committed (conn (fst (migrate fuel rt syn entity storage_location_id true
                              file_version_strategy table_strategy continue_on_error w)))
      = rows (conn w) ++ added.
Proof.
  intros fuel rt syn entity sl fvs ts coe w Hw.
  destruct (migrate fuel rt syn entity sl true fvs ts coe w) as [wf res] eqn:E.
  cbn [fst]. unfold migrate, check in E. unfold bind at 1 in E.
  destruct (check_strategies fvs ts) as [e|[]].
  { injection E as <- _. exists []. rewrite app_nil_r. auto. }
  unfold bind at 1 in E.
  pose proof (on_calls_conn _ (_verify_storage_location_ownership syn sl) w) as Hv.
  destruct (on_calls (_verify_storage_location_ownership syn sl) w) as [w1 [e|[]]];
    simpl in Hv.
  { injection E as <- _. exists []. rewrite Hv, app_nil_r. auto. }
  unfold bind at 1 in E.
  destruct (_get_executor rt) as [e|limit]; cbn [fst snd] in E.
  { injection E as <- _. exists []. rewrite Hv, app_nil_r. auto. }
  unfold with_connection in E.
  match type of E with context [?m w1] =>
    assert (Hm : preserves only_appends m);
      [|specialize (Hm w1); destruct (m w1) as [w' [e|r]]; cbn [fst] in Hm]
  end.
  - apply (preserves_bind only_appends only_appends_trans);
      [apply only_appends_commit|]. intros _.
    apply (preserves_bind only_appends only_appends_trans);
      [apply only_appends_on_calls; now apply reads_remote|]. intros e.
    apply (preserves_bind only_appends only_appends_trans);
      [intros w2; apply only_appends_refl|]. intros indexed.
    apply (preserves_bind only_appends only_appends_trans).
    + destruct (negb indexed); [apply only_appends_index_entity|].
      intros w2. apply only_appends_refl.
    + intros total w2. apply only_appends_refl.
  - injection E as <- _. destruct Hm as (a & b & Hr & Hc). rewrite Hv in Hr, Hc. simpl.
    destruct Hc as [Hc|Hc].
    + exists []. rewrite Hc, Hw. now rewrite app_nil_r.
    + exists a. now rewrite Hc.
  - injection E as <- _. destruct Hm as (a & b & Hr & Hc). rewrite Hv in Hr. simpl.
    exists (a ++ b). now rewrite Hr.
Qed.

(** X6. What the exception handler of [_index_entity] does. With
    continue_on_error = True a call that was entered for an entity that
    has an id never raises: an exception of the service or of sqlite
    under this entity, the RecursionError of a deeper call included, is
    swallowed and the call returns. With continue_on_error = False a
    normal return means the work was committed. *)
Theorem index_entity_outcomes :
  (forall fuel syn entity parent_id file_version_strategy table_strategy w,
     id_of entity <> VNone ->
     exists w' total,
       _index_entity (S fuel) syn entity parent_id file_version_strategy
                     table_strategy true w = (w', inr total)) /\
  (forall fuel syn entity parent_id file_version_strategy table_strategy w w' total,
     _index_entity fuel syn entity parent_id file_version_strategy table_strategy
                   false w = (w', inr total) ->
     committed (conn w') = rows (conn w')).
Proof.
  split.
  - intros fuel syn entity parent_id fvs ts w _.
    rewrite index_entity_step. unfold try_except.
    match goal with |- context [bind ?m ?k w] =>
      destruct (bind m k w) as [w1 [e1|n]]
    end.
    + exists w1, 0. reflexivity.
    + exists w1, n. reflexivity.
  - intros [|fuel] syn entity parent_id fvs ts w w' total H; [discriminate|].
    rewrite index_entity_step in H. unfold try_except in H.
    match type of H with context [bind ?m ?k w] =>
      destruct (bind m k w) as [w1 [e1|n]] eqn:Hb
    end.
    + discriminate.
    + injection H as <- _. unfold bind in Hb.
      destruct (_check_indexed (id_of entity) w) as [w2 [e|indexed]]; [discriminate|].
      match type of Hb with context [?m w2] => destruct (m w2) as [w3 [e|t]] end;
        [discriminate|].
      simpl in Hb. injection Hb as <- _. reflexivity.
Qed.

(** ** What the indexer counts *)

Lemma executemany_insert_ok :
  forall cols seq t t',
    executemany_insert cols seq t = (t', None) ->
    exists added, t' = t ++ added /\
      Forall2 (fun params r => bind_row cols params = inr r) seq added.
Proof.
  intros cols seq. induction seq as [|params seq IH]; intros t t' H; simpl in H.
  - injection H as <-. exists []. split; [now rewrite app_nil_r|constructor].
  - unfold execute_insert in H.
    destruct (bind_row cols params) as [e|r] eqn:Eb; [discriminate|].
    unfold insert_row in H.
    destruct (negb (not_null_ok r)); [discriminate|].
    destruct (existsb (pk_conflict r) t); [discriminate|].
    destruct (IH _ _ H) as (added & -> & Hf).
    exists (r :: added). split; [now rewrite <- app_assoc|].
    constructor; assumption.
Qed.

Lemma executemany_ok :
  forall cols seq w w',
    executemany cols seq w = (w', inr tt) ->
    exists added, rows (conn w') = rows (conn w) ++ added /\
      Forall2 (fun params r => bind_row cols params = inr r) seq added.
Proof.
  intros cols seq w w' H. unfold executemany, on_rows in H.
  destruct (executemany_insert cols seq (rows (conn w))) as [t' [e|]] eqn:E;
    [discriminate|].
  injection H as <-. simpl. now apply executemany_insert_ok.
Qed.

Lemma payload_count_app :
  forall a b, payload_count (a ++ b) = payload_count a + payload_count b.
Proof.
  intros a b. unfold payload_count. rewrite List.filter_app, length_app. lia.
Qed.

Lemma payload_count_all :
  forall added, Forall (fun r => is_payload_row r = true) added ->
                payload_count added = Z.of_nat (List.length added).
Proof.
  intros added H. unfold payload_count. induction H as [|r l Hr _ IH]; simpl.
  - reflexivity.
  - rewrite Hr. simpl. lia.
Qed.

Lemma bound_rows_payload :
  forall cols (ty : _MigrationType) seq added,
    (ty = FILE \/ ty = TABLE_ATTACHED_FILE) ->
    Forall (fun params => forall r, bind_row cols params = inr r ->
                                    c_type r = VInt (type_value ty)) seq ->
    Forall2 (fun params r => bind_row cols params = inr r) seq added ->
    Forall (fun r => is_payload_row r = true) added /\
    List.length added = List.length seq.
Proof.
  intros cols ty seq added Hty Hs H. induction H as [|p r seq added Hb _ IH].
  - split; constructor.
  - apply Forall_cons_iff in Hs as [Hp Hs]. destruct (IH Hs) as [IH1 IH2].
    split; [|simpl; congruence]. constructor; [|exact IH1].
    unfold is_payload_row. rewrite (Hp r Hb).
    destruct Hty as [-> | ->]; reflexivity.
Qed.

Lemma bound_rows_all :
  forall cols (Q : Row -> Prop) seq added,
    Forall (fun params => forall r, bind_row cols params = inr r -> Q r) seq ->
    Forall2 (fun params r => bind_row cols params = inr r) seq added ->
    Forall Q added /\ List.length added = List.length seq.
Proof.
  intros cols Q seq added Hs H. induction H as [|p r seq added Hb _ IH].
  - split; constructor.
  - apply Forall_cons_iff in Hs as [Hp Hs]. destruct (IH Hs) as [IH1 IH2].
    split; [|simpl; congruence]. constructor; [now apply Hp|exact IH1].
Qed.

Lemma indexed_cell_payload :
  forall entity_id parent_id added,
    Forall (indexed_cell entity_id parent_id) added ->
    Forall (fun r => is_payload_row r = true) added.
Proof.
  intros entity_id parent_id added H. eapply List.Forall_impl; [|exact H].
  intros r (_ & Hty & _). unfold is_payload_row. rewrite Hty. reflexivity.
Qed.

Lemma file_params_typed :
  forall a c d e f g r,
    bind_row file_insert_columns [a; VInt (type_value FILE); c; d; e; f; g] = inr r ->
    c_type r = VInt (type_value FILE).
Proof. intros a c d e f g r H. injection H as <-. reflexivity. Qed.

Lemma table_params_cell :
  forall entity_id parent_id d e f g h r,
    bind_row table_insert_columns
      [entity_id; VInt (type_value TABLE_ATTACHED_FILE); parent_id; d; e; f; g; h;
       VInt (status_value INDEXED)] = inr r ->
    indexed_cell entity_id parent_id r.
Proof.
  intros entity_id parent_id d e f g h r H. injection H as <-.
  repeat split.
Qed.

Lemma all_versions_typed :
  forall syn entity_id parent_id versions w w' l,
    mapM (fun version =>
            entity <- on_calls (get syn entity_id version) ;;
            ret [entity_id; VInt (type_value FILE); version; parent_id;
                 storageLocationId entity; dataFileHandleId entity;
                 VInt (status_value INDEXED)]) versions w = (w', inr l) ->
    conn w' = conn w /\
    Forall (fun params => forall r, bind_row file_insert_columns params = inr r ->
                                    c_type r = VInt (type_value FILE)) l.
Proof.
  intros syn entity_id parent_id versions.
  induction versions as [|v versions IH]; intros w w' l H; simpl in H.
  - injection H as <- <-. split; [reflexivity|constructor].
  - unfold bind at 1 in H. unfold bind at 1 in H.
    pose proof (on_calls_conn _ (get syn entity_id v) w) as Hc.
    destruct (on_calls (get syn entity_id v) w) as [w1 [e|entity]]; [discriminate|].
    simpl in Hc, H. unfold bind at 1 in H.
    destruct (mapM _ versions w1) as [w2 [e|l']] eqn:Em; [discriminate|].
    injection H as <- <-. destruct (IH _ _ _ Em) as [IH1 IH2].
    split; [congruence|]. constructor; [|exact IH2].
    intros r. apply file_params_typed.
Qed.

Lemma index_file_entity_counts :
  forall syn entity parent_id file_version_strategy w,
    counts_payload w (_index_file_entity syn entity parent_id file_version_strategy w).
Proof.
  intros syn entity parent_id fvs w. unfold _index_file_entity.
  set (insert_values := if py_eqb fvs (VStr "new") then _ else _).
  assert (H : match insert_values w with
              | (w', inr l) =>
                  conn w' = conn w /\
                  Forall (fun params => forall r,
                            bind_row file_insert_columns params = inr r ->
                            c_type r = VInt (type_value FILE)) l
              | (w', inl _) => True
              end).
  { subst insert_values.
    destruct (py_eqb fvs (VStr "new")); [|destruct (py_eqb fvs (VStr "all"));
      [|destruct (py_eqb fvs (VStr "latest"))]].
    - unfold bind.
      pose proof (on_calls_conn _ (get syn (id_of entity) VNone) w) as Hc.
      destruct (on_calls (get syn (id_of entity) VNone) w) as [w1 [e|en]];
        simpl in *; [exact I|]. split; [exact Hc|].
      constructor; [intros r; apply file_params_typed|constructor].
    - unfold bind at 1.
      pose proof (on_calls_conn _ (_get_version_numbers syn (id_of entity)) w) as Hc.
      destruct (on_calls (_get_version_numbers syn (id_of entity)) w)
        as [w1 [e|versions]]; simpl in *; [exact I|].
      destruct (mapM _ versions w1) as [w2 [e|l]] eqn:Em; [exact I|].
      destruct (all_versions_typed _ _ _ _ _ _ _ Em) as [H1 H2].
      split; [congruence|exact H2].
    - unfold bind.
      pose proof (on_calls_conn _ (get syn (id_of entity) VNone) w) as Hc.
      destruct (on_calls (get syn (id_of entity) VNone) w) as [w1 [e|en]];
        simpl in *; [exact I|]. split; [exact Hc|].
      constructor; [|constructor]. intros r Hb. discriminate Hb.
    - simpl. split; [reflexivity|constructor]. }
  unfold bind at 1.
  destruct (insert_values w) as [w1 [e|l]]; [exact I|].
  destruct H as [Hc Hl]. unfold bind at 1. destruct l as [|params l].
  - simpl. exists []. rewrite Hc, app_nil_r. auto.
  - destruct (executemany file_insert_columns (params :: l) w1) as [w2 [e|[]]] eqn:Ex;
      [exact I|].
    apply executemany_ok in Ex as (added & Hr & Hf).
    destruct (bound_rows_payload _ FILE _ _ (or_introl eq_refl) Hl Hf) as [Hp Hlen].
    simpl. exists added. rewrite Hr, Hc. split; [reflexivity|].
    rewrite (payload_count_all _ Hp), Hlen. reflexivity.
Qed.

Lemma index_cells_counts :
  forall entity_id parent_id row_id row_version items row_batch total w w' row_batch' total',
    Forall (fun params => forall r, bind_row table_insert_columns params = inr r ->
                                    indexed_cell entity_id parent_id r)
           row_batch ->
    index_cells entity_id parent_id row_id row_version items row_batch total w
    = (w', inr (row_batch', total')) ->
    Forall (fun params => forall r, bind_row table_insert_columns params = inr r ->
                                    indexed_cell entity_id parent_id r)
           row_batch' /\
    exists added,
      rows (conn w') = rows (conn w) ++ added /\
      Forall (indexed_cell entity_id parent_id) added /\
      total' = total + Z.of_nat (List.length added).
Proof.
  intros entity_id parent_id row_id row_version items.
  induction items as [|[col_id fh] items IH];
    intros row_batch total w w' rb' t' Hrb H.
  - simpl in H. injection H as <- <- <-. split; [exact Hrb|].
    exists []. rewrite app_nil_r. repeat split; [constructor|simpl; lia].
  - cbn [index_cells] in H.
    match type of H with context [row_batch ++ [?p]] =>
      assert (Hrb1 : Forall (fun params => forall r,
                       bind_row table_insert_columns params = inr r ->
                       indexed_cell entity_id parent_id r)
                     (row_batch ++ [p]))
    end.
    { apply Forall_app. split; [exact Hrb|].
      constructor; [|constructor]. intros r. apply table_params_cell. }
    destruct (_ =? 0)%nat.
    + unfold bind at 1 in H.
      destruct (executemany table_insert_columns _ w) as [w1 [e|[]]] eqn:Ex;
        [discriminate|].
      apply executemany_ok in Ex as (added1 & Hr1 & Hf1).
      destruct (bound_rows_all _ _ _ _ Hrb1 Hf1)
        as [Hp1 Hlen1].
      destruct (IH _ _ _ _ _ _ (List.Forall_nil _) H) as (Hrb' & added2 & Hr2 & Hp2 & Ht).
      split; [exact Hrb'|]. exists (added1 ++ added2). repeat split.
      * rewrite Hr2, Hr1. now rewrite app_assoc.
      * apply Forall_app. auto.
      * rewrite Ht. rewrite !length_app in *. simpl in *. lia.
    + exact (IH _ _ _ _ _ _ Hrb1 H).
Qed.

Lemma index_table_rows_counts :
  forall syn entity_id parent_id file_handle_columns results row_batch total w w'
         row_batch' total',
    Forall (fun params => forall r, bind_row table_insert_columns params = inr r ->
                                    indexed_cell entity_id parent_id r)
           row_batch ->
    index_table_rows syn entity_id parent_id file_handle_columns results row_batch total w
    = (w', inr (row_batch', total')) ->
    Forall (fun params => forall r, bind_row table_insert_columns params = inr r ->
                                    indexed_cell entity_id parent_id r)
           row_batch' /\
    exists added,
      rows (conn w') = rows (conn w) ++ added /\
      Forall (indexed_cell entity_id parent_id) added /\
      total' = total + Z.of_nat (List.length added).
Proof.
  intros syn entity_id parent_id cols results.
  induction results as [|row results IH]; intros row_batch total w w' rb' t' Hrb H;
    simpl in H.
  - injection H as <- <- <-. split; [exact Hrb|].
    exists []. rewrite app_nil_r. repeat split; [constructor|simpl; lia].
  - destruct row as [|row_id [|row_version ids]]; try discriminate.
    unfold bind at 1 in H.
    pose proof (on_calls_conn _ (row_file_handles syn entity_id cols ids []) w) as Hc.
    destruct (on_calls (row_file_handles syn entity_id cols ids []) w)
      as [w1 [e|fhs]]; [discriminate|]. simpl in Hc.
    unfold bind at 1 in H.
    destruct (index_cells entity_id parent_id row_id row_version fhs row_batch total w1)
      as [w2 [e|[rb2 t2]]] eqn:Ec; [discriminate|].
    destruct (index_cells_counts _ _ _ _ _ _ _ _ _ _ _ Hrb Ec)
      as (Hrb2 & added1 & Hr1 & Hp1 & Ht1).
    simpl in H.
    destruct (IH _ _ _ _ _ _ Hrb2 H) as (Hrb' & added2 & Hr2 & Hp2 & Ht2).
    split; [exact Hrb'|]. exists (added1 ++ added2). repeat split.
    + rewrite Hr2, Hr1, Hc. now rewrite app_assoc.
    + apply Forall_app. auto.
    + rewrite Ht2, Ht1, length_app. lia.
Qed.

Lemma index_table_entity_rows :
  forall syn entity parent_id create_table_snapshot w,
    match _index_table_entity syn entity parent_id create_table_snapshot w with
    | (w', inr n) =>
        exists added,
          rows (conn w') = rows (conn w) ++ added /\
          n = Z.of_nat (List.length added) /\
          Forall (indexed_cell (id_of entity) parent_id) added
    | (_, inl _) => True
    end.
Proof.
  intros syn entity parent_id cts w. unfold _index_table_entity.
  unfold bind at 1.
  match goal with |- context [on_calls ?m w] =>
    pose proof (on_calls_conn _ m w) as Hc1;
    destruct (on_calls m w) as [w1 [e|columns]]; [exact I|]
  end.
  simpl in Hc1. unfold bind at 1.
  match goal with |- context [on_calls ?m w1] =>
    pose proof (on_calls_conn _ m w1) as Hc2;
    destruct (on_calls m w1) as [w2 [e|results]]; [exact I|]
  end.
  simpl in Hc2. unfold bind at 1.
  match goal with |- context [index_table_rows ?a ?b ?c ?d ?e [] 0 w2] =>
    destruct (index_table_rows a b c d e [] 0 w2) as [w3 [e'|[rb t]]] eqn:Er; [exact I|]
  end.
  destruct (index_table_rows_counts _ _ _ _ _ _ _ _ _ _ _ (List.Forall_nil _) Er)
    as (Hrb & added & Hr & Hp & Ht).
  simpl. destruct rb as [|p rb].
  - simpl. exists added. split; [congruence|]. split; [lia|exact Hp].
  - unfold bind at 1.
    destruct (executemany table_insert_columns (p :: rb) w3) as [w4 [e'|[]]] eqn:Ex;
      [exact I|].
    apply executemany_ok in Ex as (added' & Hr' & Hf').
    destruct (bound_rows_all _ _ _ _ Hrb Hf') as [Hp' Hlen'].
    simpl. exists (added ++ added'). split.
    + rewrite Hr', Hr, Hc2, Hc1. now rewrite app_assoc.
    + split; [|apply Forall_app; auto].
      rewrite Ht, length_app, Hlen'. simpl List.length. lia.
Qed.

Lemma index_table_entity_counts :
  forall syn entity parent_id create_table_snapshot w,
    counts_payload w (_index_table_entity syn entity parent_id create_table_snapshot w).
Proof.
  intros syn entity parent_id cts w.
  pose proof (index_table_entity_rows syn entity parent_id cts w) as H.
  destruct (_index_table_entity syn entity parent_id cts w) as [w' [e|n]]; [exact I|].
  destruct H as (added & Hr & Hn & Hp). exists added. split; [exact Hr|].
  rewrite (payload_count_all _ (indexed_cell_payload _ _ _ Hp)). exact Hn.
Qed.

(** X7. What [_index_table_entity] returns is the number of rows it
    wrote: when it returns n, it has appended n rows to the checkpoint,
    each a TABLE_ATTACHED_FILE row of that table under the given parent,
    with status INDEXED and no target file handle. *)
Theorem index_table_entity_returns_rows_written :
  forall syn entity parent_id create_table_snapshot w w' n,
    _index_table_entity syn entity parent_id create_table_snapshot w = (w', inr n) ->
    exists added,
      rows (conn w') = rows (conn w) ++ added /\
      n = Z.of_nat (List.length added) /\
      Forall (indexed_cell (id_of entity) parent_id) added.
Proof.
  intros syn entity parent_id cts w w' n H.
  pose proof (index_table_entity_rows syn entity parent_id cts w) as Hr.
  rewrite H in Hr. exact Hr.
Qed.

Lemma each_child_counts :
  forall (index_child : Entity -> M World Z),
    (forall child w, counts_payload w (index_child child w)) ->
    forall children total w w' n,
      each_child index_child children total w = (w', inr n) ->
      exists added, rows (conn w') = rows (conn w) ++ added /\
                    n = total + payload_count added.
Proof.
  intros index_child Hc children.
  induction children as [|c cs IH]; intros total w w' n H; simpl in H.
  - injection H as <- <-. exists []. rewrite app_nil_r. split; [reflexivity|].
    unfold payload_count. simpl. lia.
  - unfold bind at 1 in H. specialize (Hc c w).
    destruct (index_child c w) as [w1 [e|count]]; [discriminate|].
    destruct Hc as (added1 & Hr1 & Hn1).
    destruct (IH _ _ _ _ H) as (added2 & Hr2 & Hn2).
    exists (added1 ++ added2). split.
    + rewrite Hr2, Hr1. now rewrite app_assoc.
    + rewrite payload_count_app. lia.
Qed.

Lemma index_container_counts :
  forall (index_child : Entity -> value -> M World Z) syn container_entity parent_id
         file_version_strategy table_strategy,
    (forall child p w, counts_payload w (index_child child p w)) ->
    forall w,
      counts_payload w (_index_container index_child syn container_entity parent_id
                                         file_version_strategy table_strategy w).
Proof.
  intros index_child syn e parent_id fvs ts Hc w. unfold _index_container.
  unfold bind at 1.
  match goal with |- context [on_calls ?m w] =>
    pose proof (on_calls_conn _ m w) as Hc1;
    destruct (on_calls m w) as [w1 [ex|children]]; [exact I|]
  end.
  simpl in Hc1. unfold bind at 1.
  destruct (each_child (fun child => index_child child (id_of e)) children 0 w1)
    as [w2 [ex|total]] eqn:Ee; [exact I|].
  apply (each_child_counts _ (fun child => Hc child (id_of e))) in Ee
    as (added & Hr & Hn).
  unfold bind at 1. unfold execute, on_rows, execute_insert.
  match goal with |- context [bind_row ?cols ?params] =>
    destruct (bind_row cols params) as [ex|r] eqn:Eb; [exact I|]
  end.
  unfold insert_row.
  destruct (negb (not_null_ok r)); [exact I|].
  destruct (existsb (pk_conflict r) (rows (conn w2))); [exact I|].
  simpl. exists (added ++ [r]). split.
  - rewrite Hr, Hc1. now rewrite app_assoc.
  - rewrite payload_count_app, Hn.
    assert (Hp : payload_count [r] = 0).
    { injection Eb as <-. unfold payload_count, is_payload_row. simpl.
      destruct (bool_decide (PROJECT_ENTITY = concrete_type_of e)); reflexivity. }
    rewrite Hp. lia.
Qed.

Lemma index_entity_counts :
  forall fuel syn entity parent_id file_version_strategy table_strategy w,
    counts_payload w
      (_index_entity fuel syn entity parent_id file_version_strategy table_strategy
                     false w).
Proof.
  induction fuel as [|fuel IH]; intros syn entity parent_id fvs ts w.
  - exact I.
  - rewrite index_entity_step. unfold try_except.
    match goal with |- context [bind ?m ?k w] =>
      destruct (bind m k w) as [w1 [e|n]] eqn:Hb
    end.
    + exact I.
    + unfold bind at 1 in Hb. unfold _check_indexed, query in Hb.
      destruct (negb (existsb (check_indexed_where (id_of entity)) (rows (conn w)))).
      * unfold bind at 1 in Hb.
        match type of Hb with context [match ?m w with _ => _ end] =>
          assert (Hm : counts_payload w (m w));
            [|destruct (m w) as [w2 [e|total]]; [discriminate|]]
        end.
        { destruct (concrete_type_of entity).
          - apply index_file_entity_counts.
          - apply index_table_entity_counts.
          - apply index_container_counts. intros. apply IH.
          - apply index_container_counts. intros. apply IH.
          - exact I. }
        simpl in Hb. injection Hb as <- <-. exact Hm.
      * simpl in Hb. injection Hb as <- <-. exists []. simpl.
        rewrite app_nil_r. split; reflexivity.
Qed.

(** X8. The indexed_total of a dry run: when [migrate] with
    dry_run = True and continue_on_error = False returns, it has appended
    rows to the checkpoint, and indexed_total is the number of FILE and
    TABLE_ATTACHED_FILE rows among them (the rows of folders and projects
    are not counted); migrated_total and error_total are 0. *)
Theorem dry_run_indexed_total :
  forall fuel rt syn entity storage_location_id file_version_strategy table_strategy
         w w' result,
    migrate fuel rt syn entity storage_location_id true file_version_strategy
            table_strategy false w = (w', inr result) ->
    exists added,
      rows (conn w') = rows (conn w) ++ added /\
      indexed_total result = payload_count added /\
      result_migrated_total result = 0 /\ result_error_total result = 0.
Proof.
  intros fuel rt syn entity sl fvs ts w w' result H.
  unfold migrate, check in H. unfold bind at 1 in H.
  destruct (check_strategies fvs ts) as [e|[]]; [discriminate|].
  unfold bind at 1 in H.
  pose proof (on_calls_conn _ (_verify_storage_location_ownership syn sl) w) as Hv.
  destruct (on_calls (_verify_storage_location_ownership syn sl) w) as [w1 [e|[]]];
    [discriminate|]. simpl in Hv.
  unfold bind at 1 in H.
  destruct (_get_executor rt) as [e|limit]; cbn [fst snd] in H; [discriminate|].
  unfold with_connection in H. unfold bind at 1 in H.
  cbn [conn_commit] in H. unfold conn_commit in H. unfold bind at 1 in H.
  match type of H with context [on_calls (get syn entity VNone) ?w2] =>
    pose proof (on_calls_conn _ (get syn entity VNone) w2) as Hg;
    destruct (on_calls (get syn entity VNone) w2) as [w3 [e|en]]; [discriminate|]
  end.
  simpl in Hg. unfold bind at 1 in H. unfold _check_indexed, query in H.
  unfold bind at 1 in H.
  destruct (negb (existsb (check_indexed_where (id_of en)) (rows (conn w3)))).
  - pose proof (index_entity_counts fuel syn en VNone fvs ts w3) as Hi.
    destruct (_index_entity fuel syn en VNone fvs ts false w3) as [w4 [e|n]];
      [discriminate|].
    destruct Hi as (added & Hr & Hn). simpl in H. injection H as <- <-.
    exists added. simpl. rewrite Hr, Hg, Hv. auto.
  - simpl in H. injection H as <- <-. exists []. simpl.
    rewrite Hg, Hv, app_nil_r. auto.
Qed.

(** ** Indexing once *)

Lemma index_entity_skip :
  forall fuel syn entity parent_id file_version_strategy table_strategy
         continue_on_error w,
    existsb (check_indexed_where (id_of entity)) (rows (conn w)) = true ->
    _index_entity (S fuel) syn entity parent_id file_version_strategy table_strategy
                  continue_on_error w
    = (mkWorld (commit (conn w)) (calls w), inr 0).
Proof.
  intros fuel syn entity parent_id fvs ts coe w H.
  rewrite index_entity_step. unfold try_except, bind, _check_indexed, query.
  rewrite H. reflexivity.
Qed.

(** X9. A folder or project is walked once: when [_index_entity] with
    continue_on_error = False returns for a container, the container has
    its row, and indexing it again over that checkpoint makes no call,
    writes nothing and returns 0, whatever the strategies. *)
Theorem container_indexed_once :
  forall fuel syn entity parent_id file_version_strategy table_strategy w w1 n,
    concrete_type_of entity = FOLDER_ENTITY \/
    concrete_type_of entity = PROJECT_ENTITY ->
    _index_entity (S fuel) syn entity parent_id file_version_strategy table_strategy
                  false w = (w1, inr n) ->
    forall fuel' syn' parent_id' file_version_strategy' table_strategy' continue_on_error',
      _index_entity (S fuel') syn' entity parent_id' file_version_strategy'
                    table_strategy' continue_on_error' w1
      = (mkWorld (commit (conn w1)) (calls w1), inr 0).
Proof.
  intros fuel syn entity parent_id fvs ts w w1 n Hty H fuel' syn' p' fvs' ts' coe'.
  apply index_entity_skip.
  rewrite index_entity_step in H. unfold try_except in H.
  match type of H with context [bind ?m ?k w] =>
    destruct (bind m k w) as [w2 [e|n2]] eqn:Hb
  end.
  { discriminate. }
  injection H as <- <-.
  unfold bind at 1 in Hb. unfold _check_indexed, query in Hb.
  destruct (existsb (check_indexed_where (id_of entity)) (rows (conn w))) eqn:Ei.
  - simpl in Hb. injection Hb as <- <-. exact Ei.
  - cbn [negb] in Hb. unfold bind at 1 in Hb.
    assert (Hc : exists w3 total,
               _index_container
                 (fun child p => _index_entity fuel syn child p fvs ts false)
                 syn entity parent_id fvs ts w = (w3, inr total) /\
               w2 = mkWorld (commit (conn w3)) (calls w3)).
    { destruct Hty as [Hty|Hty]; rewrite Hty in Hb;
        destruct (_index_container _ syn entity parent_id fvs ts w)
          as [w3 [e|total]]; try discriminate;
        simpl in Hb; injection Hb as <- _; eauto. }
    destruct Hc as (w3 & total & Hc & ->). simpl.
    unfold _index_container in Hc. unfold bind at 1 in Hc.
    match type of Hc with context [on_calls ?m w] =>
      destruct (on_calls m w) as [w4 [e|children]]; [discriminate|]
    end.
    unfold bind at 1 in Hc.
    match type of Hc with context [each_child ?f children 0 w4] =>
      destruct (each_child f children 0 w4) as [w5 [e|t5]]; [discriminate|]
    end.
    unfold bind at 1 in Hc. unfold execute, on_rows, execute_insert in Hc.
    match type of Hc with context [bind_row ?cols ?params] =>
      destruct (bind_row cols params) as [e|r] eqn:Eb; [discriminate|]
    end.
    unfold insert_row in Hc.
    destruct (negb (not_null_ok r)) eqn:En; [discriminate|].
    destruct (existsb (pk_conflict r) (rows (conn w5))); [discriminate|].
    simpl in Hc. injection Hc as <- _. simpl.
    rewrite existsb_app. apply orb_true_iff. right. simpl.
    injection Eb as <-. simpl in En |- *.
    unfold check_indexed_where, sql_eq, sql_ge. simpl.
    rewrite py_eqb_refl.
    destruct (id_of entity); [discriminate|reflexivity|reflexivity].
Qed.

(** X10. With file_version_strategy = 'new', [_index_file_entity] fetches
    the entity once and appends exactly one FILE row with version NULL,
    the entity's storage location and file handle, and status INDEXED;
    it returns 1. The insert cannot hit the primary key, whose row_id and
    col_id are NULL, so this holds whatever rows the checkpoint has. The
    values are taken to be such that sqlite stores them as bound: the
    entity id and the file handle id are not integers (a [text] column
    would store their decimal text), and the parent id and the storage
    location id, if integers, fit 64 bits (the insert would raise
    OverflowError and write nothing). *)
Theorem index_file_entity_new :
  forall syn entity parent_id w e,
    syn_get syn (calls w) (id_of entity) VNone = inr e ->
    id_of entity <> VNone ->
    kept_as_text (id_of entity) ->
    kept_untyped parent_id ->
    kept_untyped (storageLocationId e) ->
    kept_as_text (dataFileHandleId e) ->
    _index_file_entity syn entity parent_id (VStr "new") w
    = (mkWorld
         (mkConn (rows (conn w) ++
                  [mkRow (id_of entity) (VInt (type_value FILE)) VNone VNone VNone
                         parent_id (VInt (status_value INDEXED)) VNone
                         (storageLocationId e) (dataFileHandleId e) VNone])
                 (committed (conn w)))
         (calls w ++ [Get (id_of entity) VNone]),
       inr 1).
Proof.
  intros syn entity parent_id w e Hget Hid _ _ _ _.
  unfold _index_file_entity. rewrite py_eqb_refl.
  unfold bind, on_calls, get, remote. rewrite Hget. simpl.
  unfold executemany, on_rows. simpl. unfold execute_insert. simpl.
  rewrite insert_null_key_never_conflicts.
  - reflexivity.
  - simpl. destruct (id_of entity); [congruence|reflexivity|reflexivity].
  - reflexivity.
Qed.

Lemma all_versions_params :
  forall syn entity_id parent_id versions w w' l,
    mapM (fun version =>
            entity <- on_calls (get syn entity_id version) ;;
            ret [entity_id; VInt (type_value FILE); version; parent_id;
                 storageLocationId entity; dataFileHandleId entity;
                 VInt (status_value INDEXED)]) versions w = (w', inr l) ->
    conn w' = conn w /\
    Forall2 (fun version params => exists entity,
               params = [entity_id; VInt (type_value FILE); version; parent_id;
                         storageLocationId entity; dataFileHandleId entity;
                         VInt (status_value INDEXED)]) versions l.
Proof.
  intros syn entity_id parent_id versions.
  induction versions as [|v versions IH]; intros w w' l H; simpl in H.
  - injection H as <- <-. split; [reflexivity|constructor].
  - unfold bind at 1 in H. unfold bind at 1 in H.
    pose proof (on_calls_conn _ (get syn entity_id v) w) as Hc.
    destruct (on_calls (get syn entity_id v) w) as [w1 [e|entity]]; [discriminate|].
    simpl in Hc, H. unfold bind at 1 in H.
    destruct (mapM _ versions w1) as [w2 [e|l']] eqn:Em; [discriminate|].
    injection H as <- <-. destruct (IH _ _ _ Em) as [IH1 IH2].
    split; [congruence|]. constructor; [eauto|exact IH2].
Qed.

(** X11. With file_version_strategy = 'all', when [_index_file_entity]
    returns n, the service listed n versions and one FILE row was
    appended for each, in the order listed, with status INDEXED and no
    row id, column id or target file handle; an entity with no version
    gets no row. *)
Theorem index_file_entity_all :
  forall syn entity parent_id w w' n,
    _index_file_entity syn entity parent_id (VStr "all") w = (w', inr n) ->
    exists versions added,
      syn_versions syn (calls w) (id_of entity) = inr versions /\
      n = Z.of_nat (List.length versions) /\
      rows (conn w') = rows (conn w) ++ added /\
      map c_version added = versions /\
      Forall (fun r => c_id r = id_of entity /\
                       c_type r = VInt (type_value FILE) /\
                       c_row_id r = VNone /\ c_col_id r = VNone /\
                       c_parent_id r = parent_id /\
                       c_status r = VInt (status_value INDEXED) /\
                       c_to_file_handle_id r = VNone) added.
Proof.
  intros syn entity parent_id w w' n H. unfold _index_file_entity in H.
  assert (E1 : py_eqb (VStr "all") (VStr "new") = false) by reflexivity.
  rewrite E1, py_eqb_refl in H. unfold bind at 1 in H. unfold bind at 1 in H.
  unfold on_calls at 1, _get_version_numbers, remote in H.
  destruct (syn_versions syn (calls w) (id_of entity)) as [e|versions];
    [discriminate|].
  match type of H with context [mapM ?f versions ?w1] =>
    destruct (mapM f versions w1) as [w2 [e|l]] eqn:Em; [discriminate|]
  end.
  apply all_versions_params in Em as [Hc Hl]. simpl in Hc.
  exists versions.
  assert (Hlen : List.length l = List.length versions).
  { symmetry. eapply Forall2_length. exact Hl. }
  unfold bind at 1 in H. destruct l as [|params l].
  - simpl in H. injection H as <- <-. exists [].
    inversion Hl; subst. simpl. rewrite Hc, app_nil_r. repeat split. constructor.
  - destruct (executemany file_insert_columns (params :: l) w2) as [w3 [e|[]]] eqn:Ex;
      [discriminate|].
    apply executemany_ok in Ex as (added & Hr & Hf).
    simpl in H. injection H as <- <-. exists added.
    split; [reflexivity|]. split; [now rewrite <- Hlen|].
    split; [now rewrite Hr, Hc|].
    clear Hr Hlen. revert Hl Hf. generalize (params :: l) as ps.
    intros ps Hl. revert added. induction Hl as [|v p vs ps (en & ->) _ IH];
      intros added Hf; inversion Hf as [|? r ? added' Hb Hf']; subst.
    + split; constructor.
    + destruct (IH _ Hf') as [I1 I2]. injection Hb as <-.
      split; [simpl; now f_equal|]. constructor; [|exact I2]. repeat split.
Qed.

(** ** Other edges of the indexer and of the scheduler *)

(** X12. An entity that is neither a file, a table, a folder nor a
    project has no case in [_index_entity]: unless it is already in the
    checkpoint, indexing it touches nothing, and raises
    UnboundLocalError with continue_on_error = False, or returns 0 with
    continue_on_error = True. *)
Theorem index_entity_unsupported_type :
  forall fuel syn entity parent_id file_version_strategy table_strategy
         continue_on_error w name,
    concrete_type_of entity = OTHER_ENTITY name ->
    existsb (check_indexed_where (id_of entity)) (rows (conn w)) = false ->
    _index_entity (S fuel) syn entity parent_id file_version_strategy table_strategy
                  continue_on_error w
    = (w, if continue_on_error then inr 0
          else inl (OtherError "UnboundLocalError: count")).
Proof.
  intros fuel syn entity parent_id fvs ts coe w name Hty Hi.
  rewrite index_entity_step. unfold try_except, bind, _check_indexed, query.
  rewrite Hi, Hty. simpl. destruct coe; reflexivity.
Qed.

(** X13. When the copy fails, nothing is updated: with a storage service
    whose copies all fail, the task of each of the three migration
    functions makes no store and no PUT, and raises the _MigrationError
    of its own key; for the two functions that copy first the cause is
    the error of the copy. *)
Theorem failed_copy_updates_nothing :
  forall syn e fn key from_file_handle_id storage_location_id log,
    copies_fail syn e -> known_fn fn ->
    exists evs cause,
      migration_task fn syn key from_file_handle_id storage_location_id log
      = (log ++ evs, inl (mkMigrationError key cause)) /\
      Forall (fun c => is_update c = false) evs /\
      (fn <> _create_new_file_version -> cause = e).
Proof.
  intros syn e fn k fh sl log Hfail [-> | [-> | ->]]; unfold migration_task.
  - unfold _create_new_file_version, bind, get, multipart_copy, remote.
    destruct (syn_get syn log (id k) VNone) as [ex|entity].
    + exists [Get (id k) VNone], ex. repeat split; [repeat constructor|congruence].
    + rewrite Hfail.
      exists [Get (id k) VNone;
              MultipartCopy (mkAssociation fh (id k) "FileEntity") sl], e.
      rewrite <- app_assoc. repeat split; repeat constructor.
  - unfold _migrate_file_version, bind, multipart_copy, remote. rewrite Hfail.
    exists [MultipartCopy (mkAssociation fh (id k) "FileEntity") sl], e.
    repeat split; repeat constructor.
  - unfold _migrate_table_attached_file, bind, multipart_copy, remote. rewrite Hfail.
    exists [MultipartCopy (mkAssociation fh (id k) "TableEntity") sl], e.
    repeat split; repeat constructor.
Qed.


Lemma key_field_matches_iff :
  forall field col, key_field_matches field col = true <-> col = field.
Proof.
  intros field col. unfold key_field_matches, sql_eq, py_eqb.
  destruct field, col; simpl; try case_bool_decide; split; intros Hx;
    try discriminate; try reflexivity; try congruence.
Qed.

Lemma sql_eq_iff :
  forall a b, sql_eq a b = true <-> a = b /\ b <> VNone.
Proof.
  intros a b. unfold sql_eq, py_eqb.
  destruct a, b; simpl; try case_bool_decide; split; intros Hx;
    try discriminate; try (destruct Hx; congruence); try (split; congruence).
Qed.

Lemma update_where_iff :
  forall k r,
    update_where k r = true <->
    row_key r = k /\ id k <> VNone /\ type k <> VNone.
Proof.
  intros [i ty v ri ci] r. unfold update_where, row_key. simpl.
  rewrite !andb_true_iff, !sql_eq_iff, !key_field_matches_iff.
  split.
  - intros (((([-> Hi] & [-> Hty]) & ->) & ->) & ->). auto.
  - intros (H & Hi & Hty). injection H as <- <- <- <- <-. auto 10.
Qed.


(** ** Collecting results, continued *)

Lemma each_completed_counts :
  forall rt syn history coe completed mc ec w,
    match each_completed rt syn history coe completed mc ec w with
    | (w', inr (mc', ec')) =>
        mc' + ec' = mc + ec + Z.of_nat (List.length completed) /\
        mc <= mc' /\ ec <= ec' /\ (coe = false -> ec' = ec)
    | (w', inl _) => coe = false
    end.
Proof.
  intros rt syn history coe completed.
  induction completed as [|f completed IH]; intros mc ec w.
  - simpl. repeat split; lia.
  - cbn [each_completed].
    destruct (future_result rt syn history f (calls w)) as [log [merr|[k fh]]].
    + cbn -[each_completed execute_update].
      destruct coe; cbn -[each_completed execute_update]; [|reflexivity].
      match goal with |- context [each_completed _ _ _ _ _ ?a ?b ?c] =>
        specialize (IH a b c); destruct (each_completed rt syn history true completed a b c)
          as [w' [e|[mc' ec']]]
      end; [exact IH|].
      destruct IH as (H1 & H2 & H3 & _).
      split; [lia|]. split; [lia|]. split; [lia|discriminate].
    + cbn -[each_completed execute_update].
      match goal with |- context [each_completed _ _ _ _ _ ?a ?b ?c] =>
        specialize (IH a b c); destruct (each_completed rt syn history coe completed a b c)
          as [w' [e|[mc' ec']]]
      end; [exact IH|].
      destruct IH as (H1 & H2 & H3 & H4).
      split; [lia|]. split; [lia|]. split; [lia|exact H4].
Qed.


(** ** The counters of the scheduler *)

Lemma wait_futures_counts :
  forall rt syn history fs return_when coe w,
    match _wait_futures rt syn history fs return_when coe w with
    | (w1, inr (fs', mc, ec)) =>
        fs' = snd (wait rt (calls w) return_when fs) /\
        mc + ec = Z.of_nat (List.length (fst (wait rt (calls w) return_when fs))) /\
        0 <= mc /\ 0 <= ec /\ (coe = false -> ec = 0)
    | (w1, inl _) => True
    end.
Proof.
  intros rt syn history fs return_when coe w. unfold _wait_futures.
  destruct (wait rt (calls w) return_when fs) as [completed remaining].
  unfold bind.
  pose proof (each_completed_counts rt syn history coe completed 0 0 w) as H.
  destruct (each_completed rt syn history coe completed 0 0 w) as [w' [e|[mc ec]]];
    [exact I|].
  simpl. destruct H as (H1 & H2 & H3 & H4). repeat split; try lia. exact H4.
Qed.

Lemma dispatch_rows_totals :
  forall syn storage_location_id table_strategy results st w w' st',
    dispatch_rows syn storage_location_id table_strategy results st w = (w', inr st') ->
    List.length (futures st') = (List.length (futures st) + List.length results)%nat /\
    migrated_total st' = migrated_total st /\ error_total st' = error_total st.
Proof.
  intros syn sl ts results. induction results as [|row results IH];
    intros st w w' st' H; simpl in H.
  - injection H as <- <-. repeat split. simpl. lia.
  - unfold bind at 1 in H.
    destruct (dispatch_row syn sl ts st row w) as [w1 [e|st1]] eqn:Er; [discriminate|].
    assert (H1 : List.length (futures st1) = S (List.length (futures st)) /\
                 migrated_total st1 = migrated_total st /\
                 error_total st1 = error_total st).
    { unfold dispatch_row in Er. unfold bind at 1 in Er.
      match type of Er with context [match ?m w with _ => _ end] =>
        destruct (m w) as [w2 [e|fn]]; [discriminate|]
      end.
      unfold bind at 1 in Er.
      destruct (on_calls (submit (row_key row) (c_from_file_handle_id row)) w2)
        as [w3 [e|[]]]; [discriminate|].
      simpl in Er. injection Er as <- <-. simpl. rewrite length_app. simpl.
      repeat split. lia. }
    destruct (IH _ _ _ _ H) as (I1 & I2 & I3). destruct H1 as (J1 & J2 & J3).
    repeat split; [simpl; lia|congruence|congruence].
Qed.

Section Accounting.

Variables (rt : Runtime) (syn : Synapse)
          (storage_location_id table_strategy : value)
          (continue_on_error : bool) (w0 : World).

Hypothesis Hsplit : wait_splits rt.

Lemma wait_if_saturated_accounted :
  forall st w ev,
    sched_inv rt table_strategy w0 st w ev -> accounted continue_on_error st ev ->
    match wait_if_saturated rt syn continue_on_error st w with
    | (w1, inr st1) =>
        exists ev1, sched_inv rt table_strategy w0 st1 w1 ev1 /\
                    accounted continue_on_error st1 ev1
    | (w1, inl _) => True
    end.
Proof.
  intros st w ev H Ha. unfold wait_if_saturated.
  destruct (Z.of_nat (List.length (futures st)) >=? max_concurrent_file_copies rt);
    [|exists ev; auto].
  unfold bind.
  pose proof (wait_step_inv rt syn table_strategy continue_on_error w0 st w ev
                FIRST_COMPLETED H) as Hw.
  pose proof (wait_futures_counts rt syn (migration_fn_history st) (futures st)
                FIRST_COMPLETED continue_on_error w) as Hc.
  destruct (_wait_futures rt syn (migration_fn_history st) (futures st)
              FIRST_COMPLETED continue_on_error w) as [w1 [e|[[fs mc] ec]]];
    [exact I|].
  destruct Hw as (evs & Hq & Hw). destruct Hc as (-> & Hsum & Hmc & Hec & Hcoe).
  exists (ev ++ evs). split; [apply Hw|].
  destruct (quiet_events evs Hq) as (Hs & _).
  assert (Hd : dispatched (ev ++ evs) = dispatched ev).
  { rewrite dispatched_app. unfold dispatched at 2. rewrite Hs. apply app_nil_r. }
  destruct Ha as (A1 & A2 & A3 & A4). unfold accounted. simpl. rewrite Hd.
  pose proof (Hsplit (calls w) FIRST_COMPLETED (futures st)) as Hl.
  repeat split; try lia. intros Hf. rewrite (A4 Hf), (Hcoe Hf). reflexivity.
Qed.

Lemma migrate_loop_accounted :
  forall fuel st w ev,
    sched_inv rt table_strategy w0 st w ev -> accounted continue_on_error st ev ->
    match migrate_loop fuel rt syn storage_location_id table_strategy
            continue_on_error st w with
    | (w', inr st') =>
        exists ev', sched_inv rt table_strategy w0 st' w' ev' /\
                    accounted continue_on_error st' ev'
    | (w', inl _) => True
    end.
Proof.
  induction fuel as [|fuel IH]; intros st w ev H Ha; [exact I|].
  cbn [migrate_loop]. unfold bind at 1.
  pose proof (wait_if_saturated_accounted st w ev H Ha) as Hwait.
  destruct (wait_if_saturated rt syn continue_on_error st w) as [w1 [e|st1]];
    [exact I|].
  destruct Hwait as (ev1 & H1 & Ha1).
  unfold bind at 1. unfold query at 1.
  set (results := next_batch (cursor_key st1) (rows (conn w1))).
  unfold bind at 1.
  pose proof (dispatch_rows_spec syn storage_location_id table_strategy
                results st1 w1
                (fun r Hr => proj2 (batch_indexed rt table_strategy w0 st1 w1 ev1 r H1 Hr)))
    as Hd.
  destruct (dispatch_rows syn storage_location_id table_strategy results st1 w1)
    as [w2 [e|st2]] eqn:Ed; [exact I|].
  destruct Hd as (Hconn & Hc & Hcur & Hfs & Hfns).
  pose proof (sched_inv_batch rt table_strategy w0 st1 w1 ev1 st2 w2 H1 Hconn Hc Hcur
                Hfs Hfns) as H2.
  fold results in H2.
  destruct (dispatch_rows_totals _ _ _ _ _ _ _ _ Ed) as (T1 & T2 & T3).
  assert (Ha2 : accounted continue_on_error st2
                  (ev1 ++ expected_events table_strategy (id (cursor_key st1))
                            (map row_submission results))).
  { destruct Ha1 as (A1 & A2 & A3 & A4). unfold accounted.
    rewrite dispatched_app, dispatched_expected, length_app, length_map, T1, T2, T3.
    repeat split; try lia. exact A4. }
  destruct (List.length results =? 0)%nat.
  - eexists. split; [exact H2|exact Ha2].
  - exact (IH st2 w2 _ H2 Ha2).
Qed.

End Accounting.

(** X17. Every submitted task is counted once: when the scheduler
    returns, migrated_total + error_total is the number of keys it
    submitted, and with continue_on_error = False error_total is 0.
    [wait] is taken to split the futures it is given and, with
    ALL_COMPLETED, to leave none behind. *)
Theorem every_task_is_counted :
  forall fuel rt syn storage_location_id table_strategy continue_on_error w st,
    wait_splits rt -> wait_all_completes rt ->
    snd (run_scheduler fuel rt syn storage_location_id table_strategy
           continue_on_error w) = inr st ->
    exists ev,
      calls (fst (run_scheduler fuel rt syn storage_location_id table_strategy
                    continue_on_error w)) = calls w ++ ev /\
      migrated_total st + error_total st = Z.of_nat (List.length (dispatched ev)) /\
      0 <= migrated_total st /\ 0 <= error_total st /\
      (continue_on_error = false -> error_total st = 0).
Proof.
  intros fuel rt syn sl ts coe w st Hsplit Hall Hrun.
  unfold run_scheduler in *. unfold bind at 1 in Hrun. unfold bind at 1.
  pose proof (migrate_loop_accounted rt syn sl ts coe w Hsplit fuel
                (mkSched initial_key [] [] 0 0) w []
                (sched_inv_initial rt ts w)) as Hl.
  destruct (migrate_loop fuel rt syn sl ts coe (mkSched initial_key [] [] 0 0) w)
    as [w1 [e|st1]]; [discriminate|].
  destruct Hl as (ev1 & H1 & A1 & A2 & A3 & A4).
  { unfold accounted. simpl. repeat split; lia. }
  destruct (futures st1) as [|f fs] eqn:Ef.
  - simpl in Hrun. injection Hrun as <-. exists ev1. simpl.
    split; [exact (inv_calls _ _ _ _ _ _ H1)|]. simpl in A1.
    repeat split; try lia. exact A4.
  - unfold bind in Hrun |- *.
    pose proof (wait_step_inv rt syn ts coe w st1 w1 ev1 ALL_COMPLETED H1) as Hw.
    pose proof (wait_futures_counts rt syn (migration_fn_history st1) (futures st1)
                  ALL_COMPLETED coe w1) as Hc.
    rewrite Ef in Hw, Hc.
    destruct (_wait_futures rt syn (migration_fn_history st1) (f :: fs)
                ALL_COMPLETED coe w1) as [w2 [e|[[fs2 mc] ec]]]; [discriminate|].
    simpl in Hrun. injection Hrun as <-.
    destruct Hw as (evs & Hq & Hw). destruct Hc as (Hfs2 & Hsum & Hmc & Hec & Hcoe).
    exists (ev1 ++ evs). simpl.
    split; [exact (inv_calls _ _ _ _ _ _ (proj1 (Hw 0 0)))|].
    destruct (quiet_events evs Hq) as (Hs & _).
    assert (Hd : dispatched (ev1 ++ evs) = dispatched ev1).
    { rewrite dispatched_app. unfold dispatched at 2. rewrite Hs. apply app_nil_r. }
    rewrite Hd.
    pose proof (Hsplit (calls w1) ALL_COMPLETED (f :: fs)) as Hl.
    rewrite (Hall (calls w1) (f :: fs)) in Hl. simpl in Hl, A1.
    repeat split; try lia. intros Hf. rewrite (A4 Hf), (Hcoe Hf). reflexivity.
Qed.

(** ** The number of outstanding futures *)

Lemma int_of_half_small :
  forall a, Z.abs a < 2 ^ 53 -> int_of_half a = Z.quot a 2.
Proof.
  intros a Ha. unfold int_of_half.
  destruct (Z.log2 (Z.abs a) + 1 <=? 53) eqn:E; [reflexivity|].
  apply Z.leb_gt in E.
  assert (Hpos : 0 < Z.abs a).
  { destruct (Z.eq_dec (Z.abs a) 0) as [e|n]; [|lia].
    rewrite e in E. simpl in E. lia. }
  pose proof (Z.log2_spec (Z.abs a) Hpos) as [Hl _].
  assert (2 ^ 53 <= 2 ^ Z.log2 (Z.abs a)) by (apply Z.pow_le_mono_r; lia).
  lia.
Qed.

Lemma int_of_half_below :
  forall a, 2 <= a -> 1 <= int_of_half a < a.
Proof.
  intros a Ha. unfold int_of_half.
  rewrite (Z.abs_eq a) by lia. rewrite (Z.sgn_pos a) by lia.
  destruct (Z.log2 a + 1 <=? 53) eqn:E.
  - rewrite Z.quot_div_nonneg by lia.
    pose proof (Z.div_mod a 2 ltac:(lia)). pose proof (Z.mod_pos_bound a 2 ltac:(lia)).
    lia.
  - apply Z.leb_gt in E.
    set (s := Z.log2 a + 1 - 53). assert (Hs : 1 <= s) by (unfold s; lia).
    pose proof (Z.log2_spec a ltac:(lia)) as [Hl _].
    rewrite Z.shiftr_div_pow2 by lia.
    assert (Hp : 2 ^ s = 2 * 2 ^ (s - 1)).
    { rewrite <- Z.pow_succ_r by lia. f_equal. lia. }
    assert (Hp1 : 0 < 2 ^ (s - 1)) by (apply Z.pow_pos_nonneg; lia).
    assert (Hq : 2 ^ 52 <= a / 2 ^ s).
    { apply Z.div_le_lower_bound; [lia|].
      rewrite <- Z.pow_add_r by lia.
      replace (s + 52) with (Z.log2 a) by (unfold s; lia). exact Hl. }
    pose proof (Z.div_mod a (2 ^ s) ltac:(lia)) as Hdm.
    pose proof (Z.mod_pos_bound a (2 ^ s) ltac:(lia)) as Hmb.
    match goal with |- context [if ?c then _ else _] => destruct c end;
      rewrite Z.shiftl_mul_pow2 by lia; nia.
Qed.

Lemma max_concurrent_file_copies_bounds :
  forall rt,
    1 <= max_concurrent_file_copies rt /\
    (2 <= DEFAULT_NUM_THREADS rt ->
     max_concurrent_file_copies rt < DEFAULT_NUM_THREADS rt) /\
    (2 <= DEFAULT_NUM_THREADS rt < 2 ^ 53 ->
     2 * max_concurrent_file_copies rt <= DEFAULT_NUM_THREADS rt).
Proof.
  intros rt. unfold max_concurrent_file_copies. split; [lia|]. split.
  - intros H. pose proof (int_of_half_below _ H). lia.
  - intros H. rewrite int_of_half_small by lia.
    rewrite Z.quot_div_nonneg by lia.
    pose proof (Z.div_mod (DEFAULT_NUM_THREADS rt) 2 ltac:(lia)).
    pose proof (Z.mod_pos_bound (DEFAULT_NUM_THREADS rt) 2 ltac:(lia)).
    lia.
Qed.

Lemma next_batch_length :
  forall k t, (List.length (next_batch k t) <= _get_batch_size)%nat.
Proof.
  intros k t. unfold next_batch, select_migratable. apply firstn_le_length.
Qed.

Lemma wait_if_saturated_bound :
  forall rt syn continue_on_error st w w1 st1,
    wait_splits rt -> wait_first_completes rt ->
    Z.of_nat (List.length (futures st)) <= max_concurrent_file_copies rt ->
    wait_if_saturated rt syn continue_on_error st w = (w1, inr st1) ->
    Z.of_nat (List.length (futures st1)) < max_concurrent_file_copies rt.
Proof.
  intros rt syn coe st w w1 st1 Hsplit Hfirst Hb H. unfold wait_if_saturated in H.
  destruct (Z.of_nat (List.length (futures st)) >=? max_concurrent_file_copies rt) eqn:E.
  - unfold bind in H.
    pose proof (wait_futures_counts rt syn (migration_fn_history st) (futures st)
                  FIRST_COMPLETED coe w) as Hc.
    destruct (_wait_futures rt syn (migration_fn_history st) (futures st)
                FIRST_COMPLETED coe w) as [w2 [e|[[fs mc] ec]]]; [discriminate|].
    simpl in H. injection H as <- <-. simpl. destruct Hc as (-> & _).
    pose proof (Hsplit (calls w) FIRST_COMPLETED (futures st)) as Hl.
    assert (Hne : futures st <> []).
    { intros Hn. rewrite Hn in E. simpl in E.
      pose proof (max_concurrent_file_copies_bounds rt) as [Hm _].
      apply Z.geb_le in E. lia. }
    specialize (Hfirst (calls w) (futures st) Hne).
    destruct (fst (wait rt (calls w) FIRST_COMPLETED (futures st))) as [|c cs];
      [congruence|]. simpl in Hl. lia.
  - injection H as <- <-. rewrite Z.geb_leb in E. apply Z.leb_gt in E. exact E.
Qed.

Lemma migrate_loop_bound :
  forall rt syn storage_location_id table_strategy continue_on_error,
    wait_splits rt -> wait_first_completes rt ->
    forall fuel st w w' st',
      Z.of_nat (List.length (futures st)) <= max_concurrent_file_copies rt ->
      migrate_loop fuel rt syn storage_location_id table_strategy
        continue_on_error st w = (w', inr st') ->
      Z.of_nat (List.length (futures st')) <= max_concurrent_file_copies rt.
Proof.
  intros rt syn sl ts coe Hsplit Hfirst.
  induction fuel as [|fuel IH]; intros st w w' st' Hb H; [discriminate|].
  cbn [migrate_loop] in H. unfold bind at 1 in H.
  destruct (wait_if_saturated rt syn coe st w) as [w1 [e|st1]] eqn:Ew; [discriminate|].
  pose proof (wait_if_saturated_bound _ _ _ _ _ _ _ Hsplit Hfirst Hb Ew) as Hb1.
  unfold bind at 1 in H. unfold query at 1 in H. unfold bind at 1 in H.
  pose proof (next_batch_length (cursor_key st1) (rows (conn w1))) as Hlen.
  destruct (dispatch_rows syn sl ts (next_batch (cursor_key st1) (rows (conn w1))) st1 w1)
    as [w2 [e|st2]] eqn:Ed; [discriminate|].
  destruct (dispatch_rows_totals _ _ _ _ _ _ _ _ Ed) as (T1 & _).
  assert (Hb2 : Z.of_nat (List.length (futures st2)) <= max_concurrent_file_copies rt).
  { unfold _get_batch_size in Hlen. lia. }
  destruct (List.length (next_batch (cursor_key st1) (rows (conn w1))) =? 0)%nat.
  - injection H as <- <-. exact Hb2.
  - exact (IH _ _ _ _ Hb2 H).
Qed.

(** X18. The limit of [_get_executor]: when the dispatch loop has ended,
    at most max_concurrent_file_copies futures are outstanding, since the
    loop waits for a future whenever that many are. The limit is at
    least 1; for a pool of two threads or more it is below the size of
    the pool, so that a thread is left for the copies, and it is at most
    half the pool as long as the size of the pool is below 2^53, where
    the floating-point division is exact. [wait] is taken to split the
    futures it is given and, with FIRST_COMPLETED, to report one done. *)
Theorem copies_never_exceed_the_limit :
  forall fuel rt syn storage_location_id table_strategy continue_on_error w st,
    wait_splits rt -> wait_first_completes rt ->
    snd (run_scheduler fuel rt syn storage_location_id table_strategy
           continue_on_error w) = inr st ->
    Z.of_nat (List.length (futures st)) <= max_concurrent_file_copies rt /\
    1 <= max_concurrent_file_copies rt /\
    (2 <= DEFAULT_NUM_THREADS rt ->
     max_concurrent_file_copies rt < DEFAULT_NUM_THREADS rt) /\
    (2 <= DEFAULT_NUM_THREADS rt < 2 ^ 53 ->
     2 * max_concurrent_file_copies rt <= DEFAULT_NUM_THREADS rt).
Proof.
  intros fuel rt syn sl ts coe w st Hsplit Hfirst H.
  split; [|apply max_concurrent_file_copies_bounds].
  unfold run_scheduler in H. unfold bind at 1 in H.
  destruct (migrate_loop fuel rt syn sl ts coe (mkSched initial_key [] [] 0 0) w)
    as [w1 [e|st1]] eqn:El; [discriminate|].
  assert (Hb : Z.of_nat (List.length (futures st1)) <= max_concurrent_file_copies rt).
  { apply (migrate_loop_bound rt syn sl ts coe Hsplit Hfirst _ _ _ _ _) with (2 := El).
    simpl. pose proof (max_concurrent_file_copies_bounds rt). lia. }
  destruct (futures st1) as [|f fs] eqn:Ef.
  - simpl in H. injection H as Hst. subst st. rewrite Ef. exact Hb.
  - unfold bind in H.
    destruct (_wait_futures rt syn (migration_fn_history st1) (f :: fs)
                ALL_COMPLETED coe w1) as [w2 [e|[[fs2 mc] ec]]]; [discriminate|].
    simpl in H. injection H as Hst. subst st. exact Hb.
Qed.

(** ** What the scheduler leaves alone *)

(** X19. The scheduler neither adds nor removes a row and changes no key:
    when it returns, every row of the checkpoint it started with is in
    place with its key, and a row whose status changed is a row that left
    INDEXED and whose key was submitted. [wait] is taken to return
    futures it was given. *)
Theorem scheduler_changes_only_dispatched_rows :
  forall fuel rt syn storage_location_id table_strategy continue_on_error w st,
    wait_sound rt ->
    snd (run_scheduler fuel rt syn storage_location_id table_strategy
           continue_on_error w) = inr st ->
    exists ev,
      calls (fst (run_scheduler fuel rt syn storage_location_id table_strategy
                    continue_on_error w)) = calls w ++ ev /\
      Forall2 (fun r0 r =>
                 row_key r = row_key r0 /\
                 (c_status r = c_status r0 \/
                  (c_status r <> VInt (status_value INDEXED) /\
                   In (row_key r0) (dispatched ev))))
              (rows (conn w))
              (rows (conn (fst (run_scheduler fuel rt syn storage_location_id
                                  table_strategy continue_on_error w)))).
Proof.
  intros fuel rt syn sl ts coe w st Hws Hrun.
  pose proof (run_scheduler_inv rt syn sl ts coe w fuel) as H.
  destruct (run_scheduler fuel rt syn sl ts coe w) as [w' [e|st']]; [discriminate|].
  destruct H as (ev & Hinv & _). exists ev. simpl.
  split; [exact (inv_calls _ _ _ _ _ _ Hinv)|].
  pose proof (inv_rows _ _ _ _ _ _ Hinv) as Hev.
  unfold evolves in Hev.
  eapply Forall2_impl; [exact Hev|].
  intros r0 r [Hk Hs]. split; [exact Hk|].
  destruct Hs as [Hs|[Hs Hd]]; [now left|]. right. auto.
Qed.

(** ** The loops end *)


(** ** Every payload row is reported *)

Lemma with_rowid_sorted_from :
  forall (t : list Row) a,
    StronglySorted (fun x y : Z * Row => fst x < fst y)
                   (combine (map Z.of_nat (seq a (List.length t))) t) /\
    Forall (fun x : Z * Row => Z.of_nat a <= fst x)
           (combine (map Z.of_nat (seq a (List.length t))) t).
Proof.
  induction t as [|r t IH]; intros a; cbn [List.length seq map combine].
  - split; constructor.
  - destruct (IH (S a)) as [Hs Hf]. split.
    + constructor; [exact Hs|].
      eapply List.Forall_impl; [|exact Hf]. intros x Hx. cbv beta in Hx. cbn [fst]. lia.
    + constructor; [cbn [fst]; lia|].
      eapply List.Forall_impl; [|exact Hf]. intros x Hx. cbv beta in Hx. lia.
Qed.

Lemma get_migrations_where_next :
  forall l rowid x rest,
    StronglySorted (fun x y : Z * Row => fst x < fst y) l ->
    List.filter (get_migrations_where rowid) l = x :: rest ->
    List.filter (get_migrations_where (fst x)) l = rest.
Proof.
  intros l rowid x rest Hs. induction Hs as [|y l Hs IH Hy]; intros H; simpl in H.
  - discriminate.
  - rewrite List.Forall_forall in Hy. simpl.
    destruct (get_migrations_where rowid y) eqn:Ey.
    + injection H as <- <-.
      unfold get_migrations_where at 1. rewrite Z.ltb_irrefl. simpl.
      apply filter_ext_in. intros z Hz. unfold get_migrations_where.
      apply andb_prop in Ey as [Ey _]. apply Z.ltb_lt in Ey.
      specialize (Hy z Hz). f_equal.
      transitivity true; [|symmetry]; apply Z.ltb_lt; lia.
    + assert (Hx : In x l).
      { eapply (proj1 (filter_In _ _ _)). rewrite H. now left. }
      specialize (Hy x Hx). unfold get_migrations_where at 1.
      assert (E : (fst x <? fst y) = false) by (apply Z.ltb_ge; lia).
      rewrite E. simpl. now apply IH.
Qed.

Lemma payload_rows_with_rowid :
  forall t,
    map snd (List.filter (get_migrations_where (-1)) (with_rowid t))
    = List.filter is_payload_row t.
Proof.
  intros t. unfold with_rowid. generalize 1%nat as a.
  induction t as [|r t IH]; intros a; cbn [List.length seq map combine List.filter].
  - reflexivity.
  - unfold get_migrations_where at 1. cbn [fst snd].
    assert (E : (-1 <? Z.of_nat a) = true) by (apply Z.ltb_lt; lia).
    rewrite E. cbn [andb].
    assert (Ep : sql_eq (c_type r) (VInt (type_value FILE)) ||
                 sql_eq (c_type r) (VInt (type_value TABLE_ATTACHED_FILE))
                 = is_payload_row r).
    { unfold is_payload_row, sql_eq. destruct (c_type r); reflexivity. }
    rewrite Ep. destruct (is_payload_row r); cbn [map snd]; [f_equal|]; apply IH.
Qed.

Lemma initial_row_dict_other :
  forall row k, (forall c, In c result_columns -> column_name c <> k) ->
    initial_row_dict row !! k = None.
Proof.
  intros row k H. unfold initial_row_dict.
  rewrite fold_step_other by exact H. apply lookup_empty.
Qed.

Lemma result_record_yields :
  forall syn row st,
    cache_sound syn (column_names st) ->
    match result_record syn row st with
    | (st', inr _) =>
        exists d, yielded st' = yielded st ++ [d] /\ yields_record syn row d /\
                  cache_sound syn (column_names st')
    | (_, inl _) => True
    end.
Proof.
  intros syn row st Hcache. unfold result_record.
  destruct (initial_row_dict row !! "type") as [ty|] eqn:Hty; [|exact I].
  assert (Ety : ty = c_type row /\ is_none (c_type row) = false).
  { pose proof (initial_row_dict_column row Col_type) as H.
    simpl in H. rewrite H in Hty by (unfold result_columns; simpl; auto).
    destruct (is_none (c_type row)); [discriminate|]. injection Hty as <-. auto. }
  destruct Ety as [-> Hnn].
  set (d1 := <["type" := _]> (initial_row_dict row)).
  destruct (convert_int_args int_args d1) as [e|d2] eqn:Hconv; [exact I|].
  assert (Hvals : forall k v, d1 !! k = Some v -> v <> VNone).
  { intros k v. subst d1. destruct (decide ("type" = k)) as [<-|Hne].
    - rewrite lookup_insert_eq. intros [= <-].
      destruct (py_eqb _ _); discriminate.
    - rewrite lookup_insert_ne by assumption. apply initial_row_dict_values. }
  destruct (convert_int_args_spec int_args d1 d2 int_args_nodup Hvals Hconv) as [P1 P2].
  assert (F1 : forall c, In c result_columns -> column_name c <> "type" ->
                 d1 !! column_name c =
                 if is_none (get_col c row) then None else Some (get_col c row)).
  { intros c Hc Hne. subst d1. rewrite lookup_insert_ne by congruence.
    now apply initial_row_dict_column. }
  assert (Hcol : default VNone (d2 !! "col_id") = c_col_id row).
  { rewrite P1 by (simpl; intuition discriminate).
    pose proof (F1 Col_col_id) as Hx. cbn [column_name get_col] in Hx.
    rewrite Hx; [|unfold result_columns; simpl; auto 6|discriminate].
    destruct (c_col_id row); reflexivity. }
  rewrite Hcol.
  set (named := if is_none (c_col_id row) then _ else _).
  assert (Hnamed :
    yielded (fst named) = yielded st /\
    cache_sound syn (column_names (fst named)) /\
    match snd named with
    | inr d4 =>
        (forall k, k <> "col_name" -> d4 !! k = delete "col_id" d2 !! k) /\
        (if is_none (c_col_id row)
         then d4 !! "col_name" = delete "col_id" d2 !! "col_name"
         else exists log name,
                syn_column_name syn log (c_col_id row) = inr name /\
                d4 !! "col_name" = Some (VStr name))
    | inl _ => True
    end).
  { subst named. destruct (is_none (c_col_id row)).
    - simpl. auto.
    - destruct (column_names st !! c_col_id row) as [name|] eqn:Hc.
      + simpl. split; [reflexivity|]. split; [exact Hcache|]. split.
        * intros k Hk. apply lookup_insert_ne. congruence.
        * destruct (Hcache _ _ Hc) as [log Hl]. exists log, name.
          split; [exact Hl|apply lookup_insert_eq].
      + unfold remote.
        destruct (syn_column_name syn (cur_calls st) (c_col_id row)) as [e|name] eqn:Hs;
          simpl.
        * auto.
        * split; [reflexivity|]. split.
          -- intros col name' H. destruct (decide (c_col_id row = col)) as [<-|Hne].
             ++ rewrite lookup_insert_eq in H. injection H as <-. eauto.
             ++ rewrite lookup_insert_ne in H by assumption. now apply Hcache.
          -- split.
             ++ intros k Hk. apply lookup_insert_ne. congruence.
             ++ exists (cur_calls st), name. split; [exact Hs|apply lookup_insert_eq]. }
  destruct named as [st1 [e|d4]]; cbn [fst snd] in Hnamed;
    destruct Hnamed as (Hy & Hc1 & Hd4); [exact I|].
  destruct Hd4 as [Hd4 Hname].
  assert (Hstatus : d4 !! "status" =
                    if is_none (c_status row) then None else Some (c_status row)).
  { rewrite Hd4 by discriminate. rewrite lookup_delete_ne by discriminate.
    rewrite P1 by (simpl; intuition discriminate).
    pose proof (F1 Col_status) as Hx. cbn [column_name get_col] in Hx.
    apply Hx; [unfold result_columns; simpl; auto 10|discriminate]. }
  rewrite Hstatus.
  destruct (is_none (c_status row)) eqn:Hsn; [exact I|].
  destruct (status_of_value (c_status row)) as [e|s] eqn:Hsv; [exact I|].
  cbn [yielded column_names].
  eexists. split; [rewrite Hy; reflexivity|]. split; [|exact Hc1].
  assert (F5 : forall k, k <> "status" -> k <> "col_name" -> k <> "col_id" ->
                 <["status" := VStr (status_name s)]> d4 !! k = d2 !! k).
  { intros k H1 H2 H3. rewrite lookup_insert_ne by congruence.
    rewrite Hd4 by assumption. now apply lookup_delete_ne. }
  repeat split.
  - intros c Hc. simpl in Hc. destruct Hc as [<-|[<-|[]]]; cbn [column_name].
    + rewrite F5 by discriminate. rewrite P1 by (simpl; intuition discriminate).
      pose proof (F1 Col_id) as Hx. cbn [column_name] in Hx.
      apply Hx; [unfold result_columns; simpl; auto|discriminate].
    + rewrite F5 by discriminate. rewrite P1 by (simpl; intuition discriminate).
      pose proof (F1 Col_exception) as Hx. cbn [column_name] in Hx.
      apply Hx; [unfold result_columns; simpl; auto 12|discriminate].
  - rewrite F5 by discriminate. rewrite P1 by (simpl; intuition discriminate).
    subst d1. apply lookup_insert_eq.
  - intros c Hc.
    assert (Hres : In c result_columns).
    { unfold result_columns. simpl in *. intuition. }
    assert (Hint : In (column_name c) int_args).
    { unfold int_args. simpl in *.
      destruct Hc as [<-|[<-|[<-|[<-|[<-|[]]]]]]; simpl; auto 6. }
    assert (Hk : column_name c <> "status" /\ column_name c <> "col_name" /\
                 column_name c <> "col_id" /\ column_name c <> "type").
    { simpl in Hc. destruct Hc as [<-|[<-|[<-|[<-|[<-|[]]]]]];
        simpl; repeat split; discriminate. }
    destruct Hk as (K1 & K2 & K3 & K4).
    rewrite F5 by assumption.
    specialize (P2 _ Hint). rewrite (F1 c Hres K4) in P2.
    destruct (is_none (get_col c row)); [exact P2|].
    destruct P2 as (z & Hz & Hd2). exists z. split; assumption.
  - rewrite lookup_insert_ne by discriminate.
    destruct (is_none (c_col_id row)); [|exact Hname].
    rewrite Hname. rewrite lookup_delete_ne by discriminate.
    rewrite P1 by (simpl; intuition discriminate).
    subst d1. rewrite lookup_insert_ne by discriminate.
    apply initial_row_dict_other.
    intros c Hc. unfold result_columns in Hc. simpl in Hc.
    destruct Hc as [<-|[<-|[<-|[<-|[<-|[<-|[<-|[<-|[<-|[<-|[]]]]]]]]]]]; discriminate.
  - exists s. split; [exact Hsv|apply lookup_insert_eq].
  - intros k Hk. unfold record_keys in Hk. simpl in Hk.
    destruct (decide (k = "col_id")) as [->|Hcid].
    + rewrite lookup_insert_ne by discriminate. rewrite Hd4 by discriminate.
      apply lookup_delete_eq.
    + rewrite F5 by (try assumption; intros ->; apply Hk; auto 12).
      rewrite P1 by (simpl; intros Hi; apply Hk; intuition).
      subst d1. rewrite lookup_insert_ne by (intros <-; apply Hk; auto).
      apply initial_row_dict_other.
      intros c Hc <-. unfold result_columns in Hc. simpl in Hc.
      destruct Hc as [<-|[<-|[<-|[<-|[<-|[<-|[<-|[<-|[<-|[<-|[]]]]]]]]]]];
        simpl in Hk, Hcid; try (apply Hk; auto 12; fail); try (now apply Hcid).
Qed.

Lemma get_migrations_loop_complete :
  forall fuel syn t rowid st st',
    cache_sound syn (column_names st) ->
    get_migrations_loop fuel syn t rowid st = (st', inr tt) ->
    exists ds,
      yielded st' = yielded st ++ ds /\
      Forall2 (yields_record syn)
        (map snd (List.filter (get_migrations_where rowid) (with_rowid t))) ds.
Proof.
  induction fuel as [|fuel IH]; intros syn t rowid st st' Hcache H; [discriminate|].
  cbn [get_migrations_loop] in H. unfold select_migrations, _get_batch_size in H.
  destruct (List.filter (get_migrations_where rowid) (with_rowid t))
    as [|[rid row] rest] eqn:Ef.
  - simpl in H. unfold bind, ret in H. simpl in H. injection H as <-.
    exists []. split; [now rewrite app_nil_r|constructor].
  - simpl in H. unfold bind at 1 in H. unfold bind at 1 in H.
    pose proof (result_record_yields syn row st Hcache) as Hrec.
    destruct (result_record syn row st) as [st1 [e|[]]]; [discriminate|].
    destruct Hrec as (d & Hy & Hd & Hcache1). simpl in H.
    apply IH in H as (ds & Hy' & Hds); [|exact Hcache1].
    pose proof (get_migrations_where_next _ rowid (rid, row) rest
                  (proj1 (with_rowid_sorted_from t 1)) Ef) as Hnext.
    unfold with_rowid in Hds. simpl in Hnext. rewrite Hnext in Hds.
    exists (d :: ds). split.
    + rewrite Hy', Hy, <- app_assoc. reflexivity.
    + simpl. constructor; assumption.
Qed.

(** X21. When the generator [get_migrations] ends without raising, it
    has yielded one record for every FILE and TABLE_ATTACHED_FILE row of
    the committed checkpoint and nothing else, in rowid order, and each
    record is the record of its row, entry by entry: 'id' and 'exception'
    as stored, 'type' as 'file' or 'table', the five integer fields as
    integers, 'col_name' in place of 'col_id', the status by its name,
    no entry for a NULL. Folder and project rows are not reported. *)
Theorem get_migrations_complete :
  forall fuel syn db,
    snd (get_migrations fuel syn db) = None ->
    Forall2 (yields_record syn) (List.filter is_payload_row (committed db))
            (fst (get_migrations fuel syn db)).
Proof.
  intros fuel syn db H. unfold get_migrations in *.
  destruct (get_migrations_loop fuel syn (committed db) (-1) (mkCursor [] ∅ []))
    as [st [e|[]]] eqn:El; [discriminate|].
  apply get_migrations_loop_complete in El as (ds & Hy & Hds).
  - simpl in Hy |- *. rewrite Hy. rewrite payload_rows_with_rowid in Hds. exact Hds.
  - intros col name Hl. cbn [column_names] in Hl. rewrite lookup_empty in Hl.
    discriminate Hl.
Qed.

Lemma get_migrations_loop_fuel :
  forall fuel fuel' syn t rowid st,
    (List.length (List.filter (get_migrations_where rowid) (with_rowid t)) < fuel)%nat ->
    (List.length (List.filter (get_migrations_where rowid) (with_rowid t)) < fuel')%nat ->
    get_migrations_loop fuel syn t rowid st = get_migrations_loop fuel' syn t rowid st.
Proof.
  induction fuel as [|fuel IH]; intros fuel' syn t rowid st Hf Hf'; [lia|].
  destruct fuel' as [|fuel']; [lia|].
  cbn [get_migrations_loop]. unfold select_migrations, _get_batch_size.
  destruct (List.filter (get_migrations_where rowid) (with_rowid t))
    as [|[rid row] rest] eqn:Ef.
  - reflexivity.
  - cbn [firstn result_batch]. unfold bind at 1 3. unfold bind at 1 2.
    destruct (result_record syn row st) as [st1 [e|[]]]; [reflexivity|].
    cbn [ret List.length Nat.eqb].
    pose proof (get_migrations_where_next _ rowid (rid, row) rest
                  (proj1 (with_rowid_sorted_from t 1)) Ef) as Hnext.
    cbn [fst] in Hnext. fold (with_rowid t) in Hnext.
    apply IH; rewrite Hnext; simpl in Hf, Hf'; lia.
Qed.


(* ===================================================================== *)
(** ** The further properties on the small deployment                     *)
(* ===================================================================== *)

Lemma example_wait_splits : wait_splits prompt_rt.
Proof.
  intros log return_when fs. destruct return_when; cbn [wait prompt_rt example_wait fst snd].
  - rewrite length_firstn, length_skipn. lia.
  - simpl. lia.
Qed.

Lemma example_wait_all_completes : wait_all_completes prompt_rt.
Proof. intros log fs. reflexivity. Qed.

Lemma example_wait_first_completes : wait_first_completes prompt_rt.
Proof. intros log [|f fs] H; [congruence|discriminate]. Qed.

Lemma failing_copy_syn_fails :
  copies_fail failing_copy_syn (SynapseHTTPError "503 Service Unavailable").
Proof. intros log assoc sl. reflexivity. Qed.

(** X2 for a client that does not own the storage location 9. *)
Lemma migrate_verifies_storage_location_example :
  migrate 10 prompt_rt stranger_syn (VStr "syn1") (VInt 9) false (VStr "new") VNone false
          (open_db example_checkpoint)
  = (mkWorld (mkConn example_checkpoint example_checkpoint) [RestGET "/storageLocation/9"],
     inl (ValueError "Error verifying storage location ownership of 9. You must be creator of the destination storage location")).
Proof.
  rewrite (migrate_verifies_storage_location 10 prompt_rt stranger_syn (VStr "syn1")
             (VInt 9) false (VStr "new") VNone false (open_db example_checkpoint)
             (SynapseHTTPError "403 Forbidden")).
  - reflexivity.
  - reflexivity.
  - reflexivity.
Defined.

(** X3 for the file syn1 over the example checkpoint. *)
Lemma index_entity_skips_indexed_example :
  _index_entity 3 example_syn example_file VNone (VStr "new") VNone false
                (open_db example_checkpoint)
  = (mkWorld (commit (conn (open_db example_checkpoint)))
             (calls (open_db example_checkpoint)), inr 0).
Proof.
  apply (index_entity_skips_indexed 2 example_syn example_file VNone (VStr "new") VNone
           false (open_db example_checkpoint)
           (file_row "syn1" (VInt 1) "100" INDEXED) 1).
  - left. reflexivity.
  - reflexivity.
  - discriminate.
  - reflexivity.
  - lia.
Defined.

(** X9 for the project syn9: indexed once, with three payload rows, it
    is skipped the second time. *)
Lemma container_indexed_once_example :
  _index_entity 5 project_syn example_project VNone (VStr "all") (VStr "snapshot") false
    (fst (_index_entity 5 project_syn example_project VNone (VStr "all")
            (VStr "snapshot") false (open_db [])))
  = (mkWorld
       (commit (conn (fst (_index_entity 5 project_syn example_project VNone
                             (VStr "all") (VStr "snapshot") false (open_db [])))))
       (calls (fst (_index_entity 5 project_syn example_project VNone
                      (VStr "all") (VStr "snapshot") false (open_db [])))),
     inr 0).
Proof.
  apply (container_indexed_once 4 project_syn example_project VNone (VStr "all")
           (VStr "snapshot") (open_db []) _ 3).
  - right. reflexivity.
  - vm_compute. reflexivity.
Defined.

(** X12 for a link. *)
Lemma index_entity_unsupported_type_example :
  _index_entity 3 example_syn example_link VNone (VStr "new") VNone false (open_db [])
  = (open_db [], inl (OtherError "UnboundLocalError: count")).
Proof.
  apply (index_entity_unsupported_type 2 example_syn example_link VNone (VStr "new")
           VNone false (open_db []) "org.sagebionetworks.repo.model.Link").
  - reflexivity.
  - reflexivity.
Defined.

(** X10 for the file syn1 over a checkpoint that already has its rows. *)
Lemma index_file_entity_new_example :
  _index_file_entity example_syn example_file (VStr "syn9") (VStr "new")
                     (open_db example_checkpoint)
  = (mkWorld
       (mkConn (example_checkpoint ++
                [mkRow (VStr "syn1") (VInt 3) VNone VNone VNone (VStr "syn9") (VInt 1)
                       VNone (VInt 7) (VStr "100") VNone])
               example_checkpoint)
       [Get (VStr "syn1") VNone],
     inr 1).
Proof.
  apply (index_file_entity_new example_syn example_file (VStr "syn9")
           (open_db example_checkpoint) example_file).
  - reflexivity.
  - discriminate.
  - exact I.
  - exact I.
  - simpl. lia.
  - exact I.
Defined.

(** X11 for the file syn1, which has the versions 1 and 2. *)
Lemma index_file_entity_all_example :
  exists versions added,
    syn_versions example_syn [] (VStr "syn1") = inr versions /\
    2 = Z.of_nat (List.length versions) /\
    rows (conn (fst (_index_file_entity example_syn example_file (VStr "syn9")
                       (VStr "all") (open_db []))))
    = [] ++ added /\
    map c_version added = versions.
Proof.
  destruct (index_file_entity_all example_syn example_file (VStr "syn9") (open_db [])
              (fst (_index_file_entity example_syn example_file (VStr "syn9")
                      (VStr "all") (open_db []))) 2)
    as (versions & added & H1 & H2 & H3 & H4 & _).
  - vm_compute. reflexivity.
  - exists versions, added. auto.
Defined.

(** X7 for the table syn2, which has one cell. *)
Lemma index_table_entity_returns_rows_written_example :
  exists added,
    rows (conn (fst (_index_table_entity example_syn example_table (VStr "syn9")
                       (VStr "snapshot") (open_db []))))
    = [] ++ added /\
    1 = Z.of_nat (List.length added) /\
    Forall (indexed_cell (VStr "syn2") (VStr "syn9")) added.
Proof.
  apply (index_table_entity_returns_rows_written example_syn example_table (VStr "syn9")
           (VStr "snapshot") (open_db [])).
  vm_compute. reflexivity.
Defined.

(** X8 for the project syn9: four rows are written, three of them
    payload rows. *)
Lemma dry_run_indexed_total_example :
  exists added,
    rows (conn (fst project_dry_run)) = [] ++ added /\
    3 = payload_count added /\
    List.length added = 4%nat.
Proof.
  destruct (dry_run_indexed_total 10 prompt_rt project_syn (VStr "syn9") (VInt 9)
              (VStr "all") (VStr "snapshot") (open_db []) (fst project_dry_run)
              (mkMigrationResult 3 0 0))
    as (added & Hr & Hn & _).
  - vm_compute. reflexivity.
  - exists added. split; [exact Hr|]. split; [exact Hn|].
    change (rows (conn (open_db [])) ++ added) with added in Hr.
    rewrite <- Hr. vm_compute. reflexivity.
Defined.

(** X5 for the project syn9 over the example checkpoint. *)
Lemma dry_run_only_appends_example :
  exists added,
    rows (conn (fst (migrate 10 prompt_rt project_syn (VStr "syn9") (VInt 9) true
                       (VStr "all") (VStr "snapshot") false
                       (open_db example_checkpoint))))
    = example_checkpoint ++ added /\
    committed (conn (fst (migrate 10 prompt_rt project_syn (VStr "syn9") (VInt 9) true
                            (VStr "all") (VStr "snapshot") false
                            (open_db example_checkpoint))))
    = example_checkpoint ++ added.
Proof.
  apply (dry_run_only_appends 10 prompt_rt project_syn (VStr "syn9") (VInt 9)
           (VStr "all") (VStr "snapshot") false (open_db example_checkpoint)).
  reflexivity.
Defined.

(** X13 for the task of a table cell. *)
Lemma failed_copy_updates_nothing_example :
  exists evs cause,
    migration_task _migrate_table_attached_file failing_copy_syn
      (row_key (cell_row "syn2" 1 10 3 "200" INDEXED)) (VStr "200") (VInt 9) []
    = ([] ++ evs,
       inl (mkMigrationError (row_key (cell_row "syn2" 1 10 3 "200" INDEXED)) cause)) /\
    Forall (fun c => is_update c = false) evs /\
    (_migrate_table_attached_file <> _create_new_file_version ->
     cause = SynapseHTTPError "503 Service Unavailable").
Proof.
  apply (failed_copy_updates_nothing failing_copy_syn
           (SynapseHTTPError "503 Service Unavailable")).
  - exact failing_copy_syn_fails.
  - right. right. reflexivity.
Defined.


(** X17 for the run over the example checkpoint: five keys submitted,
    five migrations counted. *)
Lemma every_task_is_counted_example :
  exists st ev,
    snd example_run = inr st /\
    calls (fst example_run) = [] ++ ev /\
    migrated_total st + error_total st = Z.of_nat (List.length (dispatched ev)) /\
    migrated_total st = 5.
Proof.
  unfold example_run.
  destruct example_run_returns as (st & E & H5).
  destruct (every_task_is_counted 10 prompt_rt example_syn (VInt 9) (VStr "snapshot")
              true (open_db example_checkpoint) st
              example_wait_splits example_wait_all_completes E)
    as (ev & Hc & Hn & _).
  exists st, ev.
  split; [exact E|].
  split; [exact Hc|].
  split; [exact Hn|exact H5].
Defined.

(** X18 for the run over the example checkpoint, with a pool of eight
    threads. *)
Lemma copies_never_exceed_the_limit_example :
  exists st,
    snd example_run = inr st /\
    Z.of_nat (List.length (futures st)) <= max_concurrent_file_copies prompt_rt /\
    max_concurrent_file_copies prompt_rt = 4.
Proof.
  unfold example_run.
  destruct example_run_returns as (st & E & _).
  destruct (copies_never_exceed_the_limit 10 prompt_rt example_syn (VInt 9)
              (VStr "snapshot") true (open_db example_checkpoint) st
              example_wait_splits example_wait_first_completes E)
    as (Hb & _).
  exists st.
  split; [exact E|].
  split; [exact Hb|reflexivity].
Defined.

Lemma forall2_same_keys :
  forall (R : Row -> Row -> Prop) (t0 t : list Row),
    Forall2 R t0 t ->
    (forall r0 r, R r0 r -> row_key r = row_key r0) ->
    map row_key t = map row_key t0.
Proof.
  intros R t0 t Hr Hk.
  induction Hr as [|r0 r t0 t Hx _ IH]; [reflexivity|].
  simpl. rewrite (Hk _ _ Hx), IH. reflexivity.
Qed.

(** X19 for the run over the example checkpoint. *)
Lemma scheduler_changes_only_dispatched_rows_example :
  exists ev,
    calls (fst example_run) = [] ++ ev /\
    map row_key (rows (conn (fst example_run))) = map row_key example_checkpoint.
Proof.
  unfold example_run.
  destruct example_run_returns as (st & E & _).
  destruct (scheduler_changes_only_dispatched_rows 10 prompt_rt example_syn (VInt 9)
              (VStr "snapshot") true (open_db example_checkpoint) st
              example_wait_sound E)
    as (ev & Hc & Hr).
  exists ev.
  split; [exact Hc|].
  apply (forall2_same_keys _ _ _ Hr).
  intros r0 r [Hk _]. exact Hk.
Defined.


(** X21 for the example checkpoint: five payload rows, five records. *)
Lemma get_migrations_complete_example :
  Forall2 (yields_record example_syn) (List.filter is_payload_row example_checkpoint)
          (fst (get_migrations 10 example_syn (mkConn example_checkpoint example_checkpoint))).
Proof.
  apply (get_migrations_complete 10 example_syn
           (mkConn example_checkpoint example_checkpoint)).
  vm_compute. reflexivity.
Defined.

